(** * Gate-level arithmetic circuit synthesis (circuit.js)

    A shallow embedding of the netlist builders of [circuit.js]: the
    append-only netlist, the half and full adders, the column compressor,
    the adder, popcount and multiplier wrappers and the two cost metrics,
    together with a Boolean evaluation semantics of netlists. *)

From Stdlib Require Import ZArith Lia String DecimalString.
From stdpp Require Import base option list strings.

Local Open Scope Z_scope.
Local Open Scope string_scope.
Local Open Scope list_scope.

(** ** Data model *)

(** An entry of a column or an operand slot holds a JavaScript number (a
    wire index) or [undefined]. *)
Abbreviation wire := (option nat).

(** A gate is the array [[name, ...args]]. *)
Abbreviation gate_t := (string * list wire)%type.

Abbreviation netlist := (list gate_t).

(** [g.length] of the array [[name, ...args]]. *)
Definition js_length (g : gate_t) : nat := S (length (g.2)).

(** ** Cost metrics *)

Definition count_xaig (C : netlist) : nat :=
  length (filter (λ g, (3 ≤ js_length g)%nat) C).

Definition count_aig (C : netlist) : nat :=
  fold_left (λ sum g, (sum + (if String.eqb g.1 "xor" then 3 else 1))%nat)
            (filter (λ g, (3 ≤ js_length g)%nat) C) 0%nat.

(** ** Netlist builders *)

(** [gate(C, name, ...args)]: push and return the new index. *)
Definition gate (C : netlist) (name : string) (args : list wire) : netlist * nat :=
  (C ++ [(name, args)], length C).

Definition halfadder (C : netlist) (x y : wire) : netlist * (nat * nat) :=
  let '(C1, s) := gate C "xor" [x; y] in
  let '(C2, c) := gate C1 "and" [x; y] in
  (C2, (s, c)).

Definition fulladder (C : netlist) (x y z : wire) : netlist * (nat * nat) :=
  let '(C1, (s1, c1)) := halfadder C x y in
  let '(C2, (s2, c2)) := halfadder C1 (Some s1) z in
  let '(C3, c) := gate C2 "or" [Some c1; Some c2] in
  (C3, (s2, c)).

(** ** Evaluation of a netlist

    The netlist order is an evaluation order: gate [i] is evaluated from the
    values of the gates before it.  A gate without operands is a primary
    input and takes its value from the assignment [env]; a gate with one
    operand is a fan-out duplicate and has the value of its source; a gate
    with two operands applies the operator named by its tag.  [undefined]
    and indices that are not (yet) in the netlist have no value. *)

Definition binop (name : string) : option (bool → bool → bool) :=
  if String.eqb name "xor" then Some xorb
  else if String.eqb name "and" then Some andb
  else if String.eqb name "or" then Some orb
  else None.

Definition wire_val (vals : list (option bool)) (w : wire) : option bool :=
  i ← w; mjoin (vals !! i).

Definition gate_val (env : nat → bool) (vals : list (option bool))
    (idx : nat) (g : gate_t) : option bool :=
  match g.2 with
  | [] => Some (env idx)
  | [x] => wire_val vals x
  | [x; y] =>
      op ← binop g.1; a ← wire_val vals x; b ← wire_val vals y; Some (op a b)
  | _ => None
  end.

Definition eval (env : nat → bool) (C : netlist) : list (option bool) :=
  fold_left (λ vals g, vals ++ [gate_val env vals (length vals) g]) C [].

Definition b2z (b : bool) : Z := if b then 1 else 0.

(** Value of a wire as a bit, when it has one. *)
Definition wire_bit (vals : list (option bool)) (w : wire) : option Z :=
  b2z <$> wire_val vals w.

(** ** The compressor *)

(** One iteration of the body of [while (bits.length > 0)]; [None] when the
    loop condition fails.  The state is the netlist, the remaining columns
    and the outputs pushed so far. *)
Definition compress_step (C : netlist) (bits : list (list wire)) (outputs : list wire)
    : option (netlist * list (list wire) * list wire) :=
  match bits with
  | [] => None
  | col :: rest =>
      match col with
      | [x] =>
          (* bits[0].length === 1: outputs.push(bits.shift()[0]) *)
          Some (C, rest, outputs ++ [x])
      | _ =>
          let '(C', col', s, c) :=
            match col with
            | x :: y :: z :: col' =>
                (* bits[0].length >= 3 *)
                let '(C', (s, c)) := fulladder C x y z in (C', col', Some s, Some c)
            | [x; y] =>
                (* bits[0].length === 2 *)
                let '(C', (s, c)) := halfadder C x y in (C', [], Some s, Some c)
            | _ =>
                (* neither branch taken: s and c stay undefined *)
                (C, col, None, None)
            end in
          let col0 := col' ++ [s] in
          match rest with
          | [] => Some (C', [col0; [c]], outputs)
          | col1 :: rest' => Some (C', col0 :: (col1 ++ [c]) :: rest', outputs)
          end
      end
  end.

(** The [while] loop, run for at most [fuel] iterations; [None] when the
    bound is reached.  The loop consumes the column arrays it is given.
    Here they are taken by value, which is what [adder], [popcount] and
    [multiplier] need: they hand over columns that are pairwise distinct
    arrays.  [InPlace.compress] below keeps the arrays in a store, for
    callers that share an array between columns or look at their arrays
    afterwards; on pairwise distinct arrays the two agree, see
    [inplace_loop_agrees]. *)
Fixpoint compress_loop (fuel : nat) (C : netlist) (bits : list (list wire))
    (outputs : list wire) : option (netlist * list wire) :=
  match fuel with
  | O => None
  | S fuel =>
      match compress_step C bits outputs with
      | None => Some (C, outputs)
      | Some (C', bits', outputs') => compress_loop fuel C' bits' outputs'
      end
  end.

(** A bound on the number of iterations of the loop: every iteration
    lowers [work], see [compress_step_work], so [compress] never reaches the
    bound, see [compress_total]. *)
Definition col_weight (col : list wire) : nat :=
  match col with [] => 3 | _ => length col end.

Fixpoint total_weight (bits : list (list wire)) : nat :=
  match bits with
  | [] => 0
  | col :: rest => col_weight col + total_weight rest
  end.

Definition work (bits : list (list wire)) : nat :=
  2 * total_weight bits
  + match bits with (_ :: _ :: _) :: _ => 1 | _ => 0 end.

Definition compress (C : netlist) (bits : list (list wire)) : option (netlist * list wire) :=
  compress_loop (S (work bits)) C bits [].

(** ** Integer value of bit sequences and of columns *)

(** LSB-first value of a sequence of wires; [None] if some entry has no value. *)
Fixpoint bits_value (vals : list (option bool)) (ws : list wire) : option Z :=
  match ws with
  | [] => Some 0
  | w :: ws => b ← wire_bit vals w; v ← bits_value vals ws; Some (b + 2 * v)
  end.

(** Number of wires of a column that carry 1. *)
Fixpoint col_sum (vals : list (option bool)) (col : list wire) : option Z :=
  match col with
  | [] => Some 0
  | w :: col => b ← wire_bit vals w; v ← col_sum vals col; Some (b + v)
  end.

(** Weighted sum of the columns: column [w] has weight [2^w]. *)
Fixpoint cols_value (vals : list (option bool)) (bits : list (list wire)) : option Z :=
  match bits with
  | [] => Some 0
  | col :: rest => s ← col_sum vals col; v ← cols_value vals rest; Some (s + 2 * v)
  end.

(** ** Results of calls

    A call returns or throws; the netlist it leaves behind is reported in
    both cases. *)
Inductive result (A : Type) : Type :=
| Ok (a : A)
| Error (msg : string).
Arguments Ok {A} a.
Arguments Error {A} msg.

(** ** Arrays *)

(** [a[i]]: reading past the end gives [undefined]. *)
Definition js_get (a : list wire) (i : nat) : wire := mjoin (a !! i).

(** [a[i] = v]: writing past the end extends the array, the holes read as
    [undefined]. *)
Definition js_set (a : list wire) (i : nat) (v : wire) : list wire :=
  if (i <? length a)%nat then <[i:=v]> a
  else a ++ replicate (i - length a) None ++ [v].

(** ** Input allocation *)

(** The template literal [`${name}${i}`]. *)
Definition label (name : string) (i : nat) : string :=
  name +:+ NilZero.string_of_uint (Nat.to_uint i).

Definition inputs (C : netlist) (name : string) (n : nat) : netlist * list wire :=
  fold_left (λ '(C, ws) i, let '(C', w) := gate C (label name i) [] in (C', ws ++ [Some w]))
            (seq 0 n) (C, []).

(** ** Adder and popcount *)

Definition length_error : string := "Input bit arrays must have the same length.".

Definition adder (C : netlist) (bits_a bits_b : list wire)
    : option (netlist * result (list wire)) :=
  if decide (length bits_a ≠ length bits_b) then Some (C, Error length_error)
  else
    let land := imap (λ i a, [a; js_get bits_b i]) bits_a in
    '(C', outs) ← compress C land; Some (C', Ok outs).

Definition popcount (C : netlist) (bits : list wire) : option (netlist * list wire) :=
  compress C [bits].

(** ** Multiplier

    The caller passes its two operand arrays by reference, so arrays live in
    a store and are named by their position in it. *)
Abbreviation ref := nat.
Abbreviation store := (list (list wire)).

Definition alloc (h : store) (a : list wire) : store * ref := (h ++ [a], length h).

Definition type_error : string := "TypeError".

Record mstate : Type := MState {
  m_net : netlist;
  m_store : store;
  m_land : list (list wire)
}.

(** [for (const i of idxs) body(i)], stopping at the first exception. *)
Fixpoint for_each {S : Type} (idxs : list nat) (body : nat → S → S * result unit) (st : S)
    : S * result unit :=
  match idxs with
  | [] => (st, Ok ())
  | i :: idxs =>
      match body i st with
      | (st', Ok _) => for_each idxs body st'
      | r => r
      end
  end.

(** Body of the inner loop; [la] and [lb] are the arrays the local variables
    [bits_a] and [bits_b] refer to. *)
Definition mult_body (la lb : ref) (d i : nat) (st : mstate) : mstate * result unit :=
  let C := m_net st in
  let h := m_store st in
  let j := (d - i)%nat in
  let a := js_get (h !!! la) i in
  let b := js_get (h !!! lb) j in
  match a ≫= (C !!.) with
  | None => (st, Error type_error)                 (* C[a][0] *)
  | Some ga =>
      let '(C1, new_a) := gate C ga.1 [a] in
      let h1 := <[la := js_set (h !!! la) i (Some new_a)]> h in
      match b ≫= (C1 !!.) with
      | None => (MState C1 h1 (m_land st), Error type_error)   (* C[b][0] *)
      | Some gb =>
          let '(C2, new_b) := gate C1 gb.1 [b] in
          let h2 := <[lb := js_set (h1 !!! lb) j (Some new_b)]> h1 in
          match m_land st !! d with
          | None => (MState C2 h2 (m_land st), Error type_error)   (* land[d].push *)
          | Some col =>
              let '(C3, p) := gate C2 "and" [Some new_a; Some new_b] in
              (MState C3 h2 (<[d := col ++ [Some p]]> (m_land st)), Ok ())
          end
      end
  end.

(** The values of [i] visited by the inner loop on diagonal [d]. *)
Definition row_indices (na nb d : nat) : list nat :=
  let start_i := (d + 1 - nb)%nat in          (* Math.max(0, d - nb + 1) *)
  let end_i := (na `min` (d + 1))%nat in
  seq start_i (end_i - start_i).

Definition mult_row (la lb : ref) (na nb d : nat) : mstate → mstate * result unit :=
  for_each (row_indices na nb d) (mult_body la lb d).

Definition multiplier (C : netlist) (h : store) (bits_a bits_b : ref)
    : option (netlist * store * result (list wire)) :=
  let na := length (h !!! bits_a) in
  let nb := length (h !!! bits_b) in
  let land := replicate (na + nb - 1) [] in
  let '(h1, la) := alloc h (h !!! bits_a) in       (* bits_a = [...bits_a] *)
  let '(h2, lb) := alloc h1 (h1 !!! bits_b) in     (* bits_b = [...bits_b] *)
  match for_each (seq 0 (na + nb - 1)) (mult_row la lb na nb) (MState C h2 land) with
  | (st, Error msg) => Some (m_net st, m_store st, Error msg)
  | (st, Ok _) =>
      '(C', outs) ← compress (m_net st) (m_land st);
      Some (C', m_store st, Ok outs)
  end.

(** ** Partial products *)

(** The pairs [(i, j)] in the order in which the two loops of [multiplier]
    visit them. *)
Definition pairs (na nb : nat) : list (nat * nat) :=
  d ← seq 0 (na + nb - 1); (λ i, (i, (d - i)%nat)) <$> row_indices na nb d.

(** The three gates appended for one pair: a duplicate of [x], a duplicate
    of [y], and the AND of the two duplicates; [pos] is the index of the
    first of them. *)
Definition pp_cell (ta tb : string) (x y : wire) (pos : nat) : list gate_t :=
  [(ta, [x]); (tb, [y]); ("and", [Some pos; Some (S pos)])].

(** [pp_gates env va vb C G ps]: [G], appended to [C], is one [pp_cell] per
    pair of [ps], in order, the duplicated wires of the pair [(i, j)]
    carrying the values of operand bits [i] and [j]. *)
Inductive pp_gates (env : nat → bool) (va vb : list bool) (C : netlist)
    : list gate_t → list (nat * nat) → Prop :=
| pp_gates_nil : pp_gates env va vb C [] []
| pp_gates_snoc G ps i j ta tb x y α β :
    pp_gates env va vb C G ps →
    va !! i = Some α → wire_val (eval env (C ++ G)) x = Some α →
    vb !! j = Some β → wire_val (eval env (C ++ G)) y = Some β →
    pp_gates env va vb C (G ++ pp_cell ta tb x y (length (C ++ G))) (ps ++ [(i, j)]).

(** LSB-first value of a sequence of Booleans. *)
Fixpoint lsb_value (vs : list bool) : Z :=
  match vs with
  | [] => 0
  | v :: vs => b2z v + 2 * lsb_value vs
  end.

(** Bit [i] of an operand, 0 past its end. *)
Definition bit_at (vs : list bool) (i : nat) : Z := default 0 (b2z <$> vs !! i).

(** The partial product of the pair [(i, j)], at its weight. *)
Definition pp_term (va vb : list bool) (p : nat * nat) : Z :=
  2 ^ Z.of_nat (p.1 + p.2) * bit_at va p.1 * bit_at vb p.2.

Fixpoint sumZ {A : Type} (f : A → Z) (l : list A) : Z :=
  match l with
  | [] => 0
  | x :: l => f x + sumZ f l
  end.

(** All pairs [(i, j)] with [i < na] and [j < nb], row by row. *)
Definition grid (na nb : nat) : list (nat * nat) :=
  i ← seq 0 na; (λ j, (i, j)) <$> seq 0 nb.

(** ** Total readings of values, used when every wire has a value *)

Definition has_val (vals : list (option bool)) (w : wire) : Prop :=
  is_Some (wire_val vals w).

Definition bitZ (vals : list (option bool)) (w : wire) : Z :=
  default 0 (wire_bit vals w).

Fixpoint bitsZ (vals : list (option bool)) (ws : list wire) : Z :=
  match ws with
  | [] => 0
  | w :: ws => bitZ vals w + 2 * bitsZ vals ws
  end.

Fixpoint colZ (vals : list (option bool)) (col : list wire) : Z :=
  match col with
  | [] => 0
  | w :: col => bitZ vals w + colZ vals col
  end.

Fixpoint colsZ (vals : list (option bool)) (bits : list (list wire)) : Z :=
  match bits with
  | [] => 0
  | col :: rest => colZ vals col + 2 * colsZ vals rest
  end.

(** ** Loop invariant of the multiplier *)

(** The wires [ws] carry, one by one, the Booleans [vs]. *)
Definition operand_vals (vals : list (option bool)) (ws : list wire) (vs : list bool) : Prop :=
  Forall2 (λ w v, wire_val vals w = Some v) ws vs.

(** Invariant of the two loops of [multiplier] after the pairs [ps]: the
    netlist grew from [C] by one [pp_cell] per pair, the local copies [xa]
    and [xb] still carry the operands' bits, and the columns hold the
    partial products of [ps]. *)
Definition mult_inv (env : nat → bool) (C : netlist) (h : store) (va vb : list bool)
    (N : nat) (ps : list (nat * nat)) (st : mstate) : Prop :=
  ∃ G xa xb,
    m_net st = C ++ G
    ∧ pp_gates env va vb C G ps
    ∧ m_store st = h ++ [xa; xb]
    ∧ operand_vals (eval env (m_net st)) xa va
    ∧ operand_vals (eval env (m_net st)) xb vb
    ∧ length (m_land st) = N
    ∧ Forall (Forall (has_val (eval env (m_net st)))) (m_land st)
    ∧ colsZ (eval env (m_net st)) (m_land st) = sumZ (pp_term va vb) ps
    ∧ ∀ p, p ∈ ps → ∃ col, m_land st !! (p.1 + p.2)%nat = Some col ∧ col ≠ [].

(** ** Loop invariant of the compressor *)

(** The columns above the lowest one after a carry [c] went up: into the
    next column, or into a new one when there is none. *)
Definition push_carry (rest : list (list wire)) (c : wire) : list (list wire) :=
  match rest with
  | [] => [[c]]
  | col1 :: rest' => (col1 ++ [c]) :: rest'
  end.

(** No column of the given sizes is empty when the loop reaches it, [cin]
    carries coming in from below: a column reached with [m ≥ 1] wires sends
    [m / 2] carries up. *)
Fixpoint never_empty (cin : nat) (shape : list nat) : Prop :=
  match shape with
  | [] => True
  | k :: rest => (1 ≤ k + cin)%nat ∧ never_empty ((k + cin) / 2) rest
  end.

(** No column is reached empty, every wire held has a value, and the
    outputs pushed so far together with the remaining columns, shifted to
    their weight, are worth [v]. *)
Definition compress_inv (env : nat → bool) (v : Z)
    (C : netlist) (bits : list (list wire)) (outs : list wire) : Prop :=
  never_empty 0 (length <$> bits)
  ∧ Forall (Forall (has_val (eval env C))) bits
  ∧ Forall (has_val (eval env C)) outs
  ∧ bitsZ (eval env C) outs + 2 ^ Z.of_nat (length outs) * colsZ (eval env C) bits = v.

(** ** Gate shapes of the data model *)

Definition operands (g : gate_t) : nat := length g.2.

(** Contribution of a counted gate to the AIG metric. *)
Definition aig_cost (g : gate_t) : nat := if String.eqb g.1 "xor" then 3%nat else 1%nat.

(** Number of gates with exactly two operands and the tag XOR. *)
Definition xor2_count (C : netlist) : nat :=
  length (filter (λ g, operands g = 2%nat ∧ g.1 = "xor") C).

(** ** Number of output bits

    A column of [m ≥ 1] wires yields one output and sends [m / 2] carries
    up; what the last column sends up is counted in binary. *)

Definition bit_length (x : nat) : nat :=
  match x with
  | O => O
  | _ => S (Nat.log2 x)
  end.

(** Outputs produced from columns of the given sizes, [cin] carries coming
    in from below. *)
Fixpoint out_count (cin : nat) (shape : list nat) : nat :=
  match shape with
  | [] => bit_length cin
  | k :: rest => S (out_count ((k + cin) / 2) rest)
  end.

(** ** Acyclicity and sequences of calls *)

(** Every operand of every gate is the index of an earlier gate. *)
Definition acyclic (C : netlist) : Prop :=
  ∀ idx g w, C !! idx = Some g → w ∈ g.2 → ∃ k, w = Some k ∧ (k < idx)%nat.

(** [w] is the index of a gate of [C]. *)
Definition valid_wire (C : netlist) (w : wire) : Prop :=
  ∃ k, w = Some k ∧ (k < length C)%nat.

(** A call of one of the public operators, with its arguments. *)
Inductive call : Type :=
| CallInputs (name : string) (n : nat)
| CallAdder (bits_a bits_b : list wire)
| CallPopcount (bits : list wire)
| CallMultiplier (bits_a bits_b : list wire).

(** The wires a call is given. *)
Definition call_args (c : call) : list wire :=
  match c with
  | CallInputs _ _ => []
  | CallAdder bits_a bits_b => bits_a ++ bits_b
  | CallPopcount bits => bits
  | CallMultiplier bits_a bits_b => bits_a ++ bits_b
  end.

(** The netlist a call leaves behind and the wires it returns (none when it
    throws). *)
Definition run_call (C : netlist) (c : call) : netlist * list wire :=
  match c with
  | CallInputs name n => inputs C name n
  | CallAdder bits_a bits_b =>
      match adder C bits_a bits_b with
      | Some (C', Ok outs) => (C', outs)
      | Some (C', Error _) => (C', [])
      | None => (C, [])
      end
  | CallPopcount bits =>
      match popcount C bits with
      | Some (C', outs) => (C', outs)
      | None => (C, [])
      end
  | CallMultiplier bits_a bits_b =>
      match multiplier C [bits_a; bits_b] 0 1 with
      | Some (C', _, Ok outs) => (C', outs)
      | Some (C', _, Error _) => (C', [])
      | None => (C, [])
      end
  end.

(** Netlists produced from the empty netlist by calls whose wire arguments
    were returned by earlier calls; [known] collects the returned wires. *)
Inductive produced : netlist → list wire → Prop :=
| produced_empty : produced [] []
| produced_call C known c :
    produced C known →
    call_args c ⊆ known →
    produced (run_call C c).1 (known ++ (run_call C c).2).

(** Netlists produced from the empty netlist by calls whose wire arguments
    are indices of gates of the netlist they are applied to. *)
Inductive built : netlist → Prop :=
| built_empty : built []
| built_call C c :
    built C →
    Forall (valid_wire C) (call_args c) →
    built (run_call C c).1.

(** The gates [D] can be appended to [C] one by one, each with operands
    among the gates before it. *)
Fixpoint gates_ok (C : netlist) (D : list gate_t) : Prop :=
  match D with
  | [] => True
  | g :: D' => Forall (valid_wire C) g.2 ∧ gates_ok (C ++ [g]) D'
  end.

(** Columns on which the compressor builds no gate: single wires, followed
    by empty columns only. *)
Definition idle (bits : list (list wire)) : Prop :=
  ∃ pre n, bits = pre ++ replicate n [] ∧ Forall (λ col, length col = 1%nat) pre.

(** Column [d] exists and holds a wire. *)
Definition filled (st : mstate) (d : nat) : Prop :=
  ∃ col, m_land st !! d = Some col ∧ col ≠ [].

(** ** Concrete netlists and assignments used in examples *)

(** Every primary input carries 1. *)
Definition all_ones : nat → bool := λ _, true.

(** Seven primary inputs [x0 .. x6]. *)
Definition seven_inputs : netlist := (inputs [] "x" 7).1.

(** Two 2-bit operands [a1 a0] and [b1 b0]. *)
Definition two_by_two : netlist := (inputs (inputs [] "a" 2).1 "b" 2).1.

(** The netlist of a 2-bit adder over [two_by_two]. *)
Definition adder_2bit : netlist :=
  match adder two_by_two [Some 0; Some 1]%nat [Some 2; Some 3]%nat with
  | Some (C, _) => C
  | None => []
  end.

(** Five primary inputs [x0 .. x4] and the assignment 1,0,1,1,0. *)
Definition five_inputs : netlist := (inputs [] "x" 5).1.

Definition env_10110 : nat → bool :=
  λ i, match i with 0 | 2 | 3 => true | _ => false end%nat.

(** The assignment that gives the first [n] primary inputs the bits of [A]
    and the following ones the bits of [B]. *)
Definition operands_env (n : nat) (A B : Z) : nat → bool :=
  λ i, if (i <? n)%nat then Z.testbit A (Z.of_nat i) else Z.testbit B (Z.of_nat (i - n)).

(** ** Shapes of appended gates *)

(** A gate as the adder cells append them: two operands and one of the
    three operator tags. *)
Definition adder_gate (g : gate_t) : Prop :=
  operands g = 2%nat ∧ (g.1 = "xor" ∨ g.1 = "and" ∨ g.1 = "or").

(** ** Gates appended by the compressor, counted from the column sizes

    A column of [m ≥ 1] wires is reduced by [(m - 1) / 2] full adders and,
    when [m] is even, one half adder; [fa] and [ha] are what a full and a
    half adder count for. *)
Definition col_cost (fa ha m : nat) : nat :=
  fa * ((m - 1) / 2) + (if Nat.even m && (2 <=? m)%nat then ha else 0).

(** Cost of the columns created above the given ones by [cin] carries. *)
Fixpoint tail_cost_aux (fuel : nat) (fa ha cin : nat) : nat :=
  match fuel with
  | O => 0
  | S fuel =>
      match cin with
      | O => 0
      | _ => col_cost fa ha cin + tail_cost_aux fuel fa ha (cin / 2)
      end
  end.

Definition tail_cost (fa ha cin : nat) : nat := tail_cost_aux cin fa ha cin.

Fixpoint cost_pred (fa ha cin : nat) (shape : list nat) : nat :=
  match shape with
  | [] => tail_cost fa ha cin
  | k :: rest => col_cost fa ha (k + cin) + cost_pred fa ha ((k + cin) / 2) rest
  end.

(** The operand arrays of a call that the compressor would turn into empty
    columns are not empty. *)
Definition call_nonempty (c : call) : Prop :=
  match c with
  | CallPopcount bits => bits ≠ []
  | CallMultiplier bits_a bits_b => bits_a ≠ [] ∧ bits_b ≠ []
  | _ => True
  end.

(** ** Sizes of the columns of partial products *)

(** Column [d] of the multiplier holds one AND wire per step of the inner
    loop on diagonal [d]. *)
Definition diag_shape (na nb : nat) : list nat :=
  (λ d, length (row_indices na nb d)) <$> seq 0 (na + nb - 1).

(** Number of the pairs of [ps] that lie on diagonal [d]. *)
Definition on_diag (d : nat) (ps : list (nat * nat)) : nat :=
  length (filter (λ p, (p.1 + p.2 = d)%nat) ps).

Definition columns_match (ps : list (nat * nat)) (land : list (list wire)) : Prop :=
  ∀ d col, land !! d = Some col → length col = on_diag d ps.

(** ** The compressor on shared arrays

    [compress] shifts the outer array and splices and pushes the column
    arrays it is given.  A caller that passes one array as two columns, or
    that reads its arrays after the call, sees these updates; here the
    arrays live in a store and the outer array holds their references.  On
    a list that holds one array twice the loop may not terminate, so the
    number of iterations is bounded by [fuel]. *)
Module InPlace.

(** One iteration of the loop body; [bits] is the outer array, holding the
    references of the column arrays in the store [h]. *)
Definition compress_step (C : netlist) (h : store) (bits : list ref) (outputs : list wire)
    : option (netlist * store * list ref * list wire) :=
  match bits with
  | [] => None
  | r0 :: rest =>
      let col := h !!! r0 in
      match col with
      | [x] =>
          (* bits[0].length === 1: outputs.push(bits.shift()[0]) *)
          Some (C, h, rest, outputs ++ [x])
      | _ =>
          let '(C', col', s, c) :=
            match col with
            | x :: y :: z :: col' =>
                let '(C', (s, c)) := fulladder C x y z in (C', col', Some s, Some c)
            | [x; y] =>
                let '(C', (s, c)) := halfadder C x y in (C', [], Some s, Some c)
            | _ => (C, col, None, None)
            end in
          (* bits[0].splice(0, k); bits[0].push(s) *)
          let h1 := <[r0 := col' ++ [s]]> h in
          match rest with
          | [] =>
              (* bits.push([c]) *)
              let '(h2, r1) := alloc h1 [c] in Some (C', h2, [r0; r1], outputs)
          | r1 :: _ =>
              (* bits[1].push(c) *)
              Some (C', <[r1 := (h1 !!! r1) ++ [c]]> h1, bits, outputs)
          end
      end
  end.

(** The [while] loop, for at most [fuel] iterations; it returns the store
    as the loop leaves it. *)
Fixpoint compress_loop (fuel : nat) (C : netlist) (h : store) (bits : list ref)
    (outputs : list wire) : option (netlist * store * list wire) :=
  match fuel with
  | O => None
  | S fuel =>
      match compress_step C h bits outputs with
      | None => Some (C, h, outputs)
      | Some (C', h', bits', outputs') => compress_loop fuel C' h' bits' outputs'
      end
  end.

Definition compress (fuel : nat) (C : netlist) (h : store) (bits : list ref)
    : option (netlist * store * list wire) :=
  compress_loop fuel C h bits [].

(** [popcount] hands the caller's array over as the only column. *)
Definition popcount (fuel : nat) (C : netlist) (h : store) (bits : ref)
    : option (netlist * store * list wire) :=
  compress fuel C h [bits].

End InPlace.

(** The contents of the columns. *)
Definition columns (h : store) (bits : list ref) : list (list wire) :=
  (λ r, h !!! r) <$> bits.

(** The columns are pairwise distinct arrays of the store. *)
Definition distinct_arrays (h : store) (bits : list ref) : Prop :=
  NoDup bits ∧ Forall (λ r, (r < length h)%nat) bits.

(** Two columns over [seven_inputs], of five and of two wires, and a
    two-wire column below an empty one. *)
Definition two_columns : store :=
  [[Some 0; Some 1; Some 2; Some 3; Some 4]; [Some 5; Some 6]]%nat.

Definition pair_below_empty : store := [[Some 0; Some 1]; []]%nat.

(** * The growing graph (force.js, second part)

    A graph is an array of nodes, node [u] being the array of the indices
    of its neighbours; every node carries a state, and a 16-bit rule decides
    from a node's state and the states of its neighbours its next state and
    whether it divides.  The coordinates, generation stamps and link objects
    that the source also maintains are floating-point or object data; they
    do not flow into the fields modelled here, except that reading the
    coordinates of a missing node throws, which is modelled. *)

(** [range = n => [...Array(n)].map((_, i) => i)] *)
Definition range (n : nat) : list nat := imap (λ i _, i) (replicate n ()).

Definition NN : nat := 3.

(** Sums and products of numbers that may be [undefined] or [NaN]: both
    make the result [NaN]. *)
Definition js_add (a b : option nat) : option nat := x ← a; y ← b; Some (x + y)%nat.

Definition js_mul (a : option nat) (k : nat) : option nat := x ← a; Some (x * k)%nat.

Definition calcCases (nodes : list (list nat)) (states : list (option nat))
    : list (option nat) :=
  imap (λ i node,
          let nc := foldl (λ a j, js_add a (mjoin (states !! j))) (Some 0%nat) node in
          js_add nc (js_mul (mjoin (states !! i)) (NN + 1)))
       nodes.

(** The links [{source, target}] as pairs. *)
Definition createLinks (nodes : list (list nat)) : list (nat * nat) :=
  concat (imap (λ source node,
                  (λ target, (source, target))
                    <$> filter (λ target, (source < target)%nat) node)
               nodes).

(** [ToInt32] of an integer. *)
Definition to_int32 (z : Z) : Z := (z + 2 ^ 31) mod 2 ^ 32 - 2 ^ 31.

(** [(rule >> r) & 1]: the shift count is taken modulo 32, and is 0 when
    [r] is [NaN]. *)
Definition shr_and1 (rule : Z) (r : option nat) : nat :=
  Z.to_nat (Z.land (Z.shiftr (to_int32 rule) (Z.of_nat (default 0%nat r `mod` 32))) 1).

Record ggraph : Type := GGraph {
  rule : Z;
  lastGen : nat;
  nodes : list (list nat);
  states : list (option nat);
  dividing : list nat;
  phase : Z
}.

(** The constructor, with its default rule 2182. *)
Definition initial_graph (rule : Z) : ggraph :=
  GGraph rule 0
    [[9; 1; 2]; [0; 2; 4]; [1; 3; 0]; [2; 4; 6]; [3; 5; 1];
     [4; 6; 8]; [5; 7; 3]; [6; 8; 9]; [7; 9; 5]; [8; 0; 7]]%nat
    (Some <$> [0; 0; 0; 1; 0; 1; 0; 1; 1; 1]%nat)
    [] 0.

(** [node[node.indexOf(oldPeer)] = newPeer]: the first occurrence is
    replaced; when there is none the write goes to the property [-1] and
    the elements stay as they are. *)
Fixpoint replace_first (oldPeer newPeer : nat) (node : list nat) : list nat :=
  match node with
  | [] => []
  | x :: node' =>
      if decide (x = oldPeer) then newPeer :: node'
      else x :: replace_first oldPeer newPeer node'
  end.

(** [reconnect(source, oldPeer, newPeer)]; it throws when there is no node
    [source]. *)
Definition reconnect (nodes : list (list nat)) (source oldPeer newPeer : nat)
    : option (list (list nat)) :=
  node ← nodes !! source;
  Some (<[source := replace_first oldPeer newPeer node]> nodes).

(** Phase 0 of [grow]: all cases are computed first, then the states and
    the division flags of the nodes are overwritten, in order. *)
Definition update_states (g : ggraph) : ggraph :=
  let cases := calcCases (nodes g) (states g) in
  GGraph (rule g) (lastGen g) (nodes g)
    (((λ r, Some (shr_and1 (rule g) r)) <$> cases) ++ drop (length cases) (states g))
    (((λ r, shr_and1 (rule g) (js_add r (Some 8%nat))) <$> cases)
       ++ drop (length cases) (dividing g))
    (phase g).

(** Body of the loop of phase 1 for index [i]; [None] when it throws. *)
Definition divide (i : nat) (st : list (list nat) * list (option nat) * list nat)
    : option (list (list nat) * list (option nat) * list nat) :=
  let '(nodes, states, dividing) := st in
  match dividing !! i with
  | None | Some O => Some st                       (* !this.dividing[i]: continue *)
  | Some _ =>
      node ← nodes !! i;
      match node with
      | a :: b :: c :: rest =>
          let j := length nodes in
          let k := (j + 1)%nat in
          let nodes1 := <[i := a :: j :: k :: rest]> nodes ++ [[i; b; k]; [i; j; c]] in
          let states1 := states ++ [mjoin (states !! i); mjoin (states !! i)] in
          nodes2 ← reconnect nodes1 b i j;
          nodes3 ← reconnect nodes2 c i k;
          _ ← nodes3 !! a;                          (* nodes[q].x for q = a *)
          Some (nodes3, states1, <[i := 0%nat]> dividing)
      | _ => None                                   (* reconnect(undefined, ...) *)
      end
  end.

Fixpoint divide_all (idxs : list nat) (st : list (list nat) * list (option nat) * list nat)
    : option (list (list nat) * list (option nat) * list nat) :=
  match idxs with
  | [] => Some st
  | i :: idxs => st' ← divide i st; divide_all idxs st'
  end.

Definition grow (g : ggraph) : option ggraph :=
  if decide (phase g = 0) then
    let g' := update_states g in
    Some (GGraph (rule g') (lastGen g') (nodes g') (states g') (dividing g') (1 - phase g))
  else
    '(nodes', states', dividing') ←
      divide_all (seq 0 (length (dividing g))) (nodes g, states g, dividing g);
    Some (GGraph (rule g) (lastGen g + 1) nodes' states' dividing' (1 - phase g)).

(** A simple cubic graph: every node has three distinct neighbours, none of
    them itself, and is a neighbour of each of them. *)
Definition cubic (nodes : list (list nat)) : Prop :=
  ∀ u node, nodes !! u = Some node →
    length node = 3%nat ∧ NoDup node ∧ (u ∉ node)
    ∧ ∀ v, v ∈ node → ∃ nv, nodes !! v = Some nv ∧ u ∈ nv.

Definition binary (s : option nat) : Prop := s = Some 0%nat ∨ s = Some 1%nat.

Definition wf_graph (g : ggraph) : Prop :=
  cubic (nodes g)
  ∧ length (states g) = length (nodes g)
  ∧ Forall binary (states g)
  ∧ (length (dividing g) ≤ length (nodes g))%nat
  ∧ (phase g = 0 ∨ phase g = 1).

(** [n] calls of [grow], one after the other. *)
Fixpoint grow_n (n : nat) (g : ggraph) : option ggraph :=
  match n with
  | O => Some g
  | S n => g' ← grow_n n g; grow g'
  end.

(** The nodes after node [i], with neighbours [a], [b] and [c], has divided;
    [nb] and [nc] are the neighbour lists of [b] and [c] before. *)
Definition divided (ns : list (list nat)) (i a b c : nat) (nb nc : list nat)
    : list (list nat) :=
  <[c := replace_first i (length ns + 1)%nat nc]>
    (<[b := replace_first i (length ns) nb]>
       (<[i := [a; length ns; (length ns + 1)%nat]]> ns
          ++ [[i; b; (length ns + 1)%nat]; [i; length ns; c]])).

(** Number of division flags that are set. *)
Definition flagged (ds : list nat) : nat := length (filter (λ d, d ≠ 0%nat) ds).

(** All directed arcs [(source, target)], sources counted from [k]. *)
Definition arcs (k : nat) (ns : list (list nat)) : list (nat * nat) :=
  concat (imap (λ s node, (λ t, ((k + s)%nat, t)) <$> node) ns).

Definition upward (e : nat * nat) : Prop := (e.1 < e.2)%nat.

#[global] Instance upward_dec (e : nat * nat) : Decision (upward e) :=
  decide (e.1 < e.2)%nat.

(** A graph in phase 1 whose node 6 is about to divide. *)
Definition dividing_graph : ggraph :=
  GGraph 2182 0 (nodes (initial_graph 2182)) (states (initial_graph 2182))
    [0; 0; 0; 0; 0; 0; 1; 0; 0; 0]%nat 1.

(** * Properties *)

(** ** Evaluation lemmas *)

Lemma eval_snoc env C g :
  eval env (C ++ [g]) = eval env C ++ [gate_val env (eval env C) (length (eval env C)) g].
Proof. unfold eval. by rewrite fold_left_app. Qed.

Lemma eval_length env C : length (eval env C) = length C.
Proof.
  induction C as [|g C IH] using rev_ind; [done|].
  rewrite eval_snoc, !length_app, IH. done.
Qed.

Lemma eval_app env C D : eval env C `prefix_of` eval env (C ++ D).
Proof.
  induction D as [|g D IH] using rev_ind.
  - by rewrite app_nil_r.
  - rewrite app_assoc, eval_snoc. etrans; [exact IH|]. by apply prefix_app_r.
Qed.

Lemma wire_val_prefix vals vals' w v :
  vals `prefix_of` vals' → wire_val vals w = Some v → wire_val vals' w = Some v.
Proof.
  intros [k ->]. destruct w as [i|]; simpl; [|done].
  destruct (vals !! i) as [o|] eqn:E; simpl; [|done].
  intros ->. by rewrite (lookup_app_l_Some _ _ _ _ E).
Qed.

Lemma wire_val_app env C D w v :
  wire_val (eval env C) w = Some v → wire_val (eval env (C ++ D)) w = Some v.
Proof. apply wire_val_prefix, eval_app. Qed.

Lemma wire_val_last env C g :
  wire_val (eval env (C ++ [g])) (Some (length C)) = gate_val env (eval env C) (length C) g.
Proof.
  rewrite eval_snoc. simpl.
  rewrite lookup_app_r by (rewrite eval_length; lia).
  rewrite !eval_length, Nat.sub_diag. done.
Qed.


(** ** Gates and their values *)

Lemma wire_val_lt vals i v : wire_val vals (Some i) = Some v → (i < length vals)%nat.
Proof.
  simpl. destruct (vals !! i) eqn:E; [|done].
  intros _. by eapply lookup_lt_Some.
Qed.

Lemma gate_val_binary env C name op x y vx vy :
  binop name = Some op →
  wire_val (eval env C) x = Some vx →
  wire_val (eval env C) y = Some vy →
  wire_val (eval env (C ++ [(name, [x; y])])) (Some (length C)) = Some (op vx vy).
Proof.
  intros Hop Hx Hy. rewrite wire_val_last. unfold gate_val. simpl.
  rewrite Hop, Hx, Hy. done.
Qed.

Lemma gate_val_dup env C name x vx :
  wire_val (eval env C) x = Some vx →
  wire_val (eval env (C ++ [(name, [x])])) (Some (length C)) = Some vx.
Proof. intros Hx. rewrite wire_val_last. done. Qed.

Lemma halfadder_eq C x y :
  halfadder C x y
  = (C ++ [("xor", [x; y]); ("and", [x; y])], (length C, S (length C))).
Proof.
  unfold halfadder, gate. rewrite <- app_assoc, length_app. simpl.
  do 3 f_equal. lia.
Qed.

Lemma fulladder_eq C x y z :
  fulladder C x y z
  = (C ++ [("xor", [x; y]); ("and", [x; y]);
           ("xor", [Some (length C); z]); ("and", [Some (length C); z]);
           ("or", [Some (S (length C)); Some (3 + length C)%nat])],
     ((2 + length C)%nat, (4 + length C)%nat)).
Proof.
  unfold fulladder. rewrite !halfadder_eq. unfold gate.
  rewrite <- !app_assoc, !length_app. simpl.
  repeat f_equal; lia.
Qed.

Lemma halfadder_val env C x y vx vy :
  wire_val (eval env C) x = Some vx →
  wire_val (eval env C) y = Some vy →
  let vals := eval env (C ++ [("xor", [x; y]); ("and", [x; y])]) in
  wire_val vals (Some (length C)) = Some (xorb vx vy)
  ∧ wire_val vals (Some (S (length C))) = Some (andb vx vy).
Proof.
  intros Hx Hy vals. subst vals.
  change [("xor", [x; y]); ("and", [x; y])] with ([("xor", [x; y])] ++ [("and", [x; y])]).
  rewrite app_assoc. split.
  - apply wire_val_app. by apply gate_val_binary.
  - replace (S (length C)) with (length (C ++ [("xor", [x; y])]))
      by (rewrite length_app; simpl; lia).
    apply gate_val_binary; [done| |]; by apply wire_val_app.
Qed.

Lemma fulladder_val env C x y z vx vy vz :
  wire_val (eval env C) x = Some vx →
  wire_val (eval env C) y = Some vy →
  wire_val (eval env C) z = Some vz →
  let vals := eval env (fulladder C x y z).1 in
  wire_val vals (Some (fulladder C x y z).2.1) = Some (xorb (xorb vx vy) vz)
  ∧ wire_val vals (Some (fulladder C x y z).2.2)
    = Some (orb (andb vx vy) (andb (xorb vx vy) vz)).
Proof.
  intros Hx Hy Hz vals. subst vals.
  destruct (halfadder_val env C x y vx vy Hx Hy) as [Hs1 Hc1].
  set (C1 := C ++ [("xor", [x; y]); ("and", [x; y])]) in *.
  assert (Hl1 : length C1 = (2 + length C)%nat)
    by (unfold C1; rewrite length_app; simpl; lia).
  destruct (halfadder_val env C1 (Some (length C)) z (xorb vx vy) vz) as [Hs2 Hc2];
    [done | by apply wire_val_app |].
  set (C2 := C1 ++ [("xor", [Some (length C); z]); ("and", [Some (length C); z])]) in *.
  assert (Hl2 : length C2 = (4 + length C)%nat)
    by (unfold C2; rewrite length_app; simpl; lia).
  rewrite fulladder_eq. cbn [fst snd].
  replace (C ++ _) with (C2 ++ [("or", [Some (S (length C)); Some (3 + length C)%nat])])
    by (unfold C2, C1; by rewrite <- !app_assoc).
  split.
  - apply wire_val_app. by rewrite <- Hl1.
  - rewrite <- Hl2. apply gate_val_binary; [done | by apply wire_val_app |].
    replace (3 + length C)%nat with (S (length C1)) by lia. done.
Qed.

Lemma b2z_half vx vy : b2z (xorb vx vy) + 2 * b2z (andb vx vy) = b2z vx + b2z vy.
Proof. by destruct vx, vy. Qed.

Lemma b2z_full vx vy vz :
  b2z (xorb (xorb vx vy) vz) + 2 * b2z (orb (andb vx vy) (andb (xorb vx vy) vz))
  = b2z vx + b2z vy + b2z vz.
Proof. by destruct vx, vy, vz. Qed.

(** C5 (as amended): the half adder appends the two gates XOR(x,y) and
    AND(x,y) and [sum + 2*carry = x + y]; the full adder is two chained half
    adders and an OR of their carries, five appended gates in all, and
    [s2 + 2*carry = x + y + z]. *)
Theorem halfadder_fulladder_correct env C x y z vx vy vz :
  wire_val (eval env C) x = Some vx →
  wire_val (eval env C) y = Some vy →
  wire_val (eval env C) z = Some vz →
  (∃ s c,
      halfadder C x y = (C ++ [("xor", [x; y]); ("and", [x; y])], (s, c))
      ∧ ∃ bs bc,
          wire_bit (eval env (halfadder C x y).1) (Some s) = Some bs
          ∧ wire_bit (eval env (halfadder C x y).1) (Some c) = Some bc
          ∧ bs + 2 * bc = b2z vx + b2z vy)
  ∧ (∃ C1 s1 c1 C2 s2 c2 c,
      halfadder C x y = (C1, (s1, c1))
      ∧ halfadder C1 (Some s1) z = (C2, (s2, c2))
      ∧ fulladder C x y z = (C2 ++ [("or", [Some c1; Some c2])], (s2, c))
      ∧ length (fulladder C x y z).1 = (length C + 5)%nat
      ∧ ∃ bs bc,
          wire_bit (eval env (fulladder C x y z).1) (Some s2) = Some bs
          ∧ wire_bit (eval env (fulladder C x y z).1) (Some c) = Some bc
          ∧ bs + 2 * bc = b2z vx + b2z vy + b2z vz).
Proof.
  intros Hx Hy Hz. split.
  - exists (length C), (S (length C)). rewrite halfadder_eq. split; [done|].
    destruct (halfadder_val env C x y vx vy Hx Hy) as [Hs Hc]. cbn [fst].
    exists (b2z (xorb vx vy)), (b2z (andb vx vy)). unfold wire_bit.
    rewrite Hs, Hc. split_and!; [done..|apply b2z_half].
  - destruct (fulladder_val env C x y z vx vy vz Hx Hy Hz) as [Hs Hc].
    assert (Hlen : length (fulladder C x y z).1 = (length C + 5)%nat)
      by (rewrite fulladder_eq; cbn [fst]; rewrite length_app; simpl; lia).
    unfold fulladder in *.
    destruct (halfadder C x y) as [C1 [s1 c1]] eqn:E1.
    destruct (halfadder C1 (Some s1) z) as [C2 [s2 c2]] eqn:E2.
    unfold gate in *. cbn [fst snd] in *.
    exists C1, s1, c1, C2, s2, c2, (length C2). split_and!; [done..|].
    exists (b2z (xorb (xorb vx vy) vz)),
      (b2z (orb (andb vx vy) (andb (xorb vx vy) vz))).
    unfold wire_bit. rewrite Hs, Hc. split_and!; [done..|apply b2z_full].
Qed.

(** ** Option-valued and total readings agree *)

Lemma wire_bit_Some vals w b :
  wire_bit vals w = Some b ↔ has_val vals w ∧ bitZ vals w = b.
Proof.
  unfold has_val, bitZ, wire_bit. destruct (wire_val vals w); simpl.
  - split; [intros [= <-]; eauto | intros [_ <-]; done].
  - split; [done | intros [[? [=]] _]].
Qed.

Lemma bits_value_Some vals ws v :
  bits_value vals ws = Some v ↔ Forall (has_val vals) ws ∧ bitsZ vals ws = v.
Proof.
  revert v. induction ws as [|w ws IH]; intros v; simpl.
  - split; [intros [= <-]; auto | intros [_ <-]; done].
  - destruct (wire_bit vals w) as [b|] eqn:Eb; simpl.
    + apply wire_bit_Some in Eb as [Hw <-].
      destruct (bits_value vals ws) as [u|] eqn:Eu; simpl.
      * destruct (IH u) as [[Hws <-] _]; [done|].
        split; [intros [= <-]; auto | intros [_ <-]; done].
      * split; [done|]. intros [Hall _]. apply Forall_cons in Hall as [_ Hall].
        destruct (IH (bitsZ vals ws)) as [_ IH2]. specialize (IH2 (conj Hall eq_refl)). congruence.
    + split; [done|]. intros [Hall _]. apply Forall_cons in Hall as [Hw _].
      assert (wire_bit vals w = Some (bitZ vals w)) as E by (by apply wire_bit_Some).
      congruence.
Qed.

Lemma col_sum_Some vals col v :
  col_sum vals col = Some v ↔ Forall (has_val vals) col ∧ colZ vals col = v.
Proof.
  revert v. induction col as [|w ws IH]; intros v; simpl.
  - split; [intros [= <-]; auto | intros [_ <-]; done].
  - destruct (wire_bit vals w) as [b|] eqn:Eb; simpl.
    + apply wire_bit_Some in Eb as [Hw <-].
      destruct (col_sum vals ws) as [u|] eqn:Eu; simpl.
      * destruct (IH u) as [[Hws <-] _]; [done|].
        split; [intros [= <-]; auto | intros [_ <-]; done].
      * split; [done|]. intros [Hall _]. apply Forall_cons in Hall as [_ Hall].
        destruct (IH (colZ vals ws)) as [_ IH2]. specialize (IH2 (conj Hall eq_refl)). congruence.
    + split; [done|]. intros [Hall _]. apply Forall_cons in Hall as [Hw _].
      assert (wire_bit vals w = Some (bitZ vals w)) as E by (by apply wire_bit_Some).
      congruence.
Qed.

Lemma cols_value_Some vals bits v :
  cols_value vals bits = Some v
  ↔ Forall (Forall (has_val vals)) bits ∧ colsZ vals bits = v.
Proof.
  revert v. induction bits as [|col rest IH]; intros v; simpl.
  - split; [intros [= <-]; auto | intros [_ <-]; done].
  - destruct (col_sum vals col) as [b|] eqn:Eb; simpl.
    + apply col_sum_Some in Eb as [Hw <-].
      destruct (cols_value vals rest) as [u|] eqn:Eu; simpl.
      * destruct (IH u) as [[Hws <-] _]; [done|].
        split; [intros [= <-]; auto | intros [_ <-]; done].
      * split; [done|]. intros [Hall _]. apply Forall_cons in Hall as [_ Hall].
        destruct (IH (colsZ vals rest)) as [_ IH2]. specialize (IH2 (conj Hall eq_refl)). congruence.
    + split; [done|]. intros [Hall _]. apply Forall_cons in Hall as [Hw _].
      assert (col_sum vals col = Some (colZ vals col)) as E by (by apply col_sum_Some).
      congruence.
Qed.

(** ** Values survive the growth of the netlist *)

Lemma has_val_app env C D w :
  has_val (eval env C) w → has_val (eval env (C ++ D)) w.
Proof. intros [v Hv]. exists v. by apply wire_val_app. Qed.

Lemma bitZ_app env C D w :
  has_val (eval env C) w → bitZ (eval env (C ++ D)) w = bitZ (eval env C) w.
Proof.
  intros [v Hv]. unfold bitZ, wire_bit.
  by rewrite (wire_val_app env C D w v Hv), Hv.
Qed.

Lemma Forall_has_val_app env C D ws :
  Forall (has_val (eval env C)) ws → Forall (has_val (eval env (C ++ D))) ws.
Proof. intros H. eapply Forall_impl; [exact H|]. intros w. apply has_val_app. Qed.

Lemma bitsZ_app_net env C D ws :
  Forall (has_val (eval env C)) ws →
  bitsZ (eval env (C ++ D)) ws = bitsZ (eval env C) ws.
Proof.
  induction 1 as [|w ws Hw _ IH]; simpl; [done|].
  by rewrite IH, bitZ_app.
Qed.

Lemma colZ_app_net env C D ws :
  Forall (has_val (eval env C)) ws →
  colZ (eval env (C ++ D)) ws = colZ (eval env C) ws.
Proof.
  induction 1 as [|w ws Hw _ IH]; simpl; [done|].
  by rewrite IH, bitZ_app.
Qed.

Lemma colsZ_app_net env C D bits :
  Forall (Forall (has_val (eval env C))) bits →
  colsZ (eval env (C ++ D)) bits = colsZ (eval env C) bits.
Proof.
  induction 1 as [|col rest Hc _ IH]; simpl; [done|].
  by rewrite IH, colZ_app_net.
Qed.

Lemma bitsZ_snoc vals ws w :
  bitsZ vals (ws ++ [w]) = bitsZ vals ws + 2 ^ Z.of_nat (length ws) * bitZ vals w.
Proof.
  induction ws as [|x ws IH]; simpl bitsZ; simpl length.
  - change (2 ^ Z.of_nat 0) with 1. lia.
  - rewrite IH, Nat2Z.inj_succ, Z.pow_succ_r by lia. lia.
Qed.

Lemma colZ_app vals xs ys : colZ vals (xs ++ ys) = colZ vals xs + colZ vals ys.
Proof. induction xs as [|x xs IH]; simpl; [done|]. rewrite IH. lia. Qed.

(** ** The adder cells in terms of bits *)

Lemma halfadder_bits env C x y :
  has_val (eval env C) x → has_val (eval env C) y →
  ∃ D, (halfadder C x y).1 = C ++ D
    ∧ has_val (eval env (C ++ D)) (Some (halfadder C x y).2.1)
    ∧ has_val (eval env (C ++ D)) (Some (halfadder C x y).2.2)
    ∧ bitZ (eval env (C ++ D)) (Some (halfadder C x y).2.1)
      + 2 * bitZ (eval env (C ++ D)) (Some (halfadder C x y).2.2)
      = bitZ (eval env C) x + bitZ (eval env C) y.
Proof.
  intros [vx Hx] [vy Hy]. rewrite halfadder_eq. cbn [fst snd].
  eexists. split; [done|].
  destruct (halfadder_val env C x y vx vy Hx Hy) as [Hs Hc].
  unfold has_val, bitZ, wire_bit. rewrite Hs, Hc, Hx, Hy.
  split_and!; [eauto..|]. simpl. apply b2z_half.
Qed.

Lemma fulladder_bits env C x y z :
  has_val (eval env C) x → has_val (eval env C) y → has_val (eval env C) z →
  ∃ D, (fulladder C x y z).1 = C ++ D
    ∧ has_val (eval env (C ++ D)) (Some (fulladder C x y z).2.1)
    ∧ has_val (eval env (C ++ D)) (Some (fulladder C x y z).2.2)
    ∧ bitZ (eval env (C ++ D)) (Some (fulladder C x y z).2.1)
      + 2 * bitZ (eval env (C ++ D)) (Some (fulladder C x y z).2.2)
      = bitZ (eval env C) x + bitZ (eval env C) y + bitZ (eval env C) z.
Proof.
  intros [vx Hx] [vy Hy] [vz Hz].
  destruct (fulladder_val env C x y z vx vy vz Hx Hy Hz) as [Hs Hc].
  rewrite fulladder_eq in *. cbn [fst snd] in *.
  eexists. split; [done|].
  unfold has_val, bitZ, wire_bit. rewrite Hs, Hc, Hx, Hy, Hz.
  split_and!; [eauto..|]. simpl. apply b2z_full.
Qed.

(** ** One iteration preserves the invariant *)

Lemma compress_step_carry (C' : netlist) col0 c rest (outs : list wire) :
  match rest with
  | [] => Some (C', [col0; [c]], outs)
  | col1 :: rest' => Some (C', col0 :: (col1 ++ [c]) :: rest', outs)
  end = Some (C', col0 :: push_carry rest c, outs).
Proof. by destruct rest. Qed.

Lemma colsZ_push_carry vals rest c :
  colsZ vals (push_carry rest c) = bitZ vals c + colsZ vals rest.
Proof.
  destruct rest as [|col1 rest']; simpl; [lia|].
  rewrite colZ_app. simpl. lia.
Qed.

Lemma push_carry_nonempty rest c :
  Forall (λ col : list wire, col ≠ []) rest →
  Forall (λ col : list wire, col ≠ []) (push_carry rest c).
Proof.
  destruct rest as [|col1 rest']; simpl; intros H.
  - by repeat constructor.
  - apply Forall_cons in H as [_ H]. constructor; [|done]. by destruct col1.
Qed.

Lemma never_empty_push_carry rest (c : wire) cin :
  never_empty (S cin) (length <$> rest) →
  never_empty cin (length <$> push_carry rest c).
Proof.
  destruct rest as [|col1 rest']; cbn [push_carry fmap list_fmap never_empty length].
  - intros _. split; [lia|done].
  - rewrite length_app. cbn [length].
    replace (length col1 + 1 + cin)%nat with (length col1 + S cin)%nat by lia. done.
Qed.

Lemma never_empty_nonempty (bits : list (list wire)) cin :
  Forall (λ col : list wire, col ≠ []) bits → never_empty cin (length <$> bits).
Proof.
  intros H. revert cin. induction H as [|col rest Hcol _ IH]; intros cin; [done|].
  cbn [fmap list_fmap never_empty]. split; [|apply IH].
  destruct col; [done|]. cbn [length]. lia.
Qed.

Lemma push_carry_has_val vals rest c :
  has_val vals c →
  Forall (Forall (has_val vals)) rest →
  Forall (Forall (has_val vals)) (push_carry rest c).
Proof.
  intros Hc. destruct rest as [|col1 rest']; simpl; intros H.
  - by repeat constructor.
  - apply Forall_cons in H as [H1 H]. constructor; [|done].
    apply Forall_app. by repeat constructor.
Qed.

(** A cell that consumes the wires [taken] of the lowest column, worth
    [s + 2*c], and leaves [col'] behind. *)
Lemma compress_inv_cell env v C D taken col' rest outs s c :
  compress_inv env v C ((taken ++ col') :: rest) outs →
  (length (taken ++ col') / 2 = S (length (col' ++ [s]) / 2))%nat →
  has_val (eval env (C ++ D)) s →
  has_val (eval env (C ++ D)) c →
  bitZ (eval env (C ++ D)) s + 2 * bitZ (eval env (C ++ D)) c
    = colZ (eval env C) taken →
  compress_inv env v (C ++ D) ((col' ++ [s]) :: push_carry rest c) outs.
Proof.
  intros (Hne & Hcols & Houts & Hv) Hhalf Hs Hc Hsc.
  cbn [fmap list_fmap never_empty] in Hne. destruct Hne as [_ Hne].
  rewrite Nat.add_0_r, Hhalf in Hne.
  apply Forall_cons in Hcols as [Hcol Hrest].
  apply Forall_app in Hcol as [Htaken Hcol'].
  split_and!.
  - cbn [fmap list_fmap never_empty]. rewrite Nat.add_0_r. split.
    + rewrite length_app. cbn [length]. lia.
    + by apply never_empty_push_carry.
  - constructor.
    + apply Forall_app. split; [by apply Forall_has_val_app|by repeat constructor].
    + apply push_carry_has_val; [done|].
      eapply Forall_impl; [exact Hrest|]. intros col. apply Forall_has_val_app.
  - by apply Forall_has_val_app.
  - rewrite bitsZ_app_net by done. rewrite <- Hv.
    cbn [colsZ]. rewrite colsZ_push_carry, !colZ_app.
    rewrite colsZ_app_net by done. rewrite (colZ_app_net env C D col') by done.
    cbn [colZ]. lia.
Qed.

Lemma compress_step_inv env v C bits outs C' bits' outs' :
  compress_inv env v C bits outs →
  compress_step C bits outs = Some (C', bits', outs') →
  compress_inv env v C' bits' outs' ∧ ∃ D, C' = C ++ D.
Proof.
  intros Hinv Hstep. unfold compress_step in Hstep.
  destruct bits as [|col rest]; [done|].
  destruct col as [|x [|y [|z col']]].
  - destruct Hinv as (Hne & _). cbn in Hne. lia.
  - injection Hstep as <- <- <-. split; [|exists []; by rewrite app_nil_r].
    destruct Hinv as (Hne & Hcols & Houts & Hv).
    destruct Hne as [_ Hne]. change ((length [x] + 0) / 2)%nat with 0%nat in Hne.
    apply Forall_cons in Hcols as [Hcol Hrest].
    apply Forall_cons in Hcol as [Hx _].
    split_and!; [done..| |].
    + apply Forall_app. by repeat constructor.
    + rewrite bitsZ_snoc, length_app, <- Hv. cbn [colsZ colZ length].
      rewrite Nat2Z.inj_add, Z.pow_add_r by lia. change (2 ^ Z.of_nat 1) with 2. lia.
  - destruct (halfadder C x y) as [C1 [s c]] eqn:Eha.
    rewrite compress_step_carry in Hstep. injection Hstep as <- <- <-.
    assert (Hcol : Forall (has_val (eval env C)) [x; y]).
    { destruct Hinv as (_ & Hcols & _). by apply Forall_cons in Hcols as [? _]. }
    apply Forall_cons in Hcol as [Hx Hcol]. apply Forall_cons in Hcol as [Hy _].
    destruct (halfadder_bits env C x y Hx Hy) as (D & HC & Hs & Hc & Hsc).
    rewrite Eha in *. cbn [fst snd] in *. subst C1.
    split; [|by exists D].
    apply (compress_inv_cell env v C D [x; y] [] rest outs); [done|done|done..|].
    rewrite Hsc. cbn [colZ]. lia.
  - destruct (fulladder C x y z) as [C1 [s c]] eqn:Efa.
    rewrite compress_step_carry in Hstep. injection Hstep as <- <- <-.
    assert (Hcol : Forall (has_val (eval env C)) (x :: y :: z :: col')).
    { destruct Hinv as (_ & Hcols & _). by apply Forall_cons in Hcols as [? _]. }
    apply Forall_cons in Hcol as [Hx Hcol]. apply Forall_cons in Hcol as [Hy Hcol].
    apply Forall_cons in Hcol as [Hz _].
    destruct (fulladder_bits env C x y z Hx Hy Hz) as (D & HC & Hs & Hc & Hsc).
    rewrite Efa in *. cbn [fst snd] in *. subst C1.
    split; [|by exists D].
    apply (compress_inv_cell env v C D [x; y; z] col' rest outs); [done| |done..|].
    { rewrite !length_app. cbn [length].
      replace (3 + length col')%nat with (length col' + 1 + 1 * 2)%nat by lia.
      rewrite Nat.div_add by lia. lia. }
    rewrite Hsc. cbn [colZ]. lia.
Qed.

Lemma compress_loop_inv env v fuel C bits outs C' outs' :
  compress_inv env v C bits outs →
  compress_loop fuel C bits outs = Some (C', outs') →
  compress_inv env v C' [] outs' ∧ ∃ D, C' = C ++ D.
Proof.
  revert C bits outs. induction fuel as [|fuel IH]; intros C bits outs Hinv; [done|].
  simpl. destruct (compress_step C bits outs) as [[[C1 bits1] outs1]|] eqn:Estep.
  - intros Hloop.
    destruct (compress_step_inv _ _ _ _ _ _ _ _ Hinv Estep) as [Hinv1 [D1 ->]].
    destruct (IH _ _ _ Hinv1 Hloop) as [Hfin [D2 ->]].
    split; [done|]. exists (D1 ++ D2). by rewrite app_assoc.
  - intros [= <- <-]. split; [|exists []; by rewrite app_nil_r].
    destruct bits as [|col rest]; [done|].
    unfold compress_step in Estep.
    destruct col as [|x [|y [|z col']]]; [| done | |].
    + by destruct rest.
    + destruct (halfadder C x y) as [? [? ?]]. by destruct rest.
    + destruct (fulladder C x y z) as [? [? ?]]. by destruct rest.
Qed.

(** ** The loop terminates *)

Lemma weight_push_carry rest c :
  (total_weight (push_carry rest c) ≤ total_weight rest + 1)%nat.
Proof.
  destruct rest as [|col1 rest']; simpl; [lia|].
  destruct col1; simpl; [lia|]. rewrite length_app. simpl. lia.
Qed.

Lemma work_bound bits : (work bits ≤ 2 * total_weight bits + 1)%nat.
Proof. unfold work. destruct bits as [|[|? [|? ?]] ?]; lia. Qed.

Lemma col_weight_snoc col w : col_weight (col ++ [w]) = S (length col).
Proof. destruct col; simpl; [done|]. rewrite length_app. simpl. lia. Qed.

Lemma compress_step_work C bits outs C' bits' outs' :
  compress_step C bits outs = Some (C', bits', outs') →
  (work bits' < work bits)%nat.
Proof.
  unfold compress_step. destruct bits as [|col rest]; [done|].
  destruct col as [|x [|y [|z col']]].
  - rewrite compress_step_carry. intros [= <- <- <-].
    pose proof (weight_push_carry rest None). unfold work. simpl. lia.
  - intros [= <- <- <-]. pose proof (work_bound rest). unfold work at 2. simpl. lia.
  - destruct (halfadder C x y) as [C1 [s c]].
    rewrite compress_step_carry. intros [= <- <- <-].
    pose proof (weight_push_carry rest (Some c)). unfold work. simpl. lia.
  - destruct (fulladder C x y z) as [C1 [s c]].
    rewrite compress_step_carry. intros [= <- <- <-].
    pose proof (weight_push_carry rest (Some c)). unfold work.
    cbn [total_weight]. rewrite col_weight_snoc.
    destruct col' as [|w col']; simpl; [lia|]. destruct (col' ++ [Some s]); lia.
Qed.

Lemma compress_loop_total fuel C bits outs :
  (work bits < fuel)%nat → is_Some (compress_loop fuel C bits outs).
Proof.
  revert C bits outs. induction fuel as [|fuel IH]; intros C bits outs Hw; [lia|].
  simpl. destruct (compress_step C bits outs) as [[[C1 bits1] outs1]|] eqn:Estep; [|eauto].
  apply IH. apply compress_step_work in Estep. lia.
Qed.

Lemma compress_total C bits : is_Some (compress C bits).
Proof. apply compress_loop_total. lia. Qed.

(** ** Value preservation *)

Lemma compress_correct_reached env C bits v :
  never_empty 0 (length <$> bits) →
  cols_value (eval env C) bits = Some v →
  ∃ D outs, compress C bits = Some (C ++ D, outs)
    ∧ bits_value (eval env (C ++ D)) outs = Some v.
Proof.
  intros Hne Hv. apply cols_value_Some in Hv as [Hcols Hv].
  destruct (compress_total C bits) as [[C' outs] Hrun].
  assert (Hinv : compress_inv env v C bits []).
  { split_and!; [done..|]. simpl. lia. }
  destruct (compress_loop_inv _ _ _ _ _ _ _ _ Hinv Hrun) as [(_ & _ & Houts & Hval) [D ->]].
  exists D, outs. split; [done|].
  apply bits_value_Some. split; [done|]. simpl in Hval. lia.
Qed.

Lemma compress_correct env C bits v :
  Forall (λ col : list wire, col ≠ []) bits →
  cols_value (eval env C) bits = Some v →
  ∃ D outs, compress C bits = Some (C ++ D, outs)
    ∧ bits_value (eval env (C ++ D)) outs = Some v.
Proof. intros Hne. apply compress_correct_reached. by apply never_empty_nonempty. Qed.

(** C1: the claim gives the outputs of [compress] the value of the weighted
    sum of the wires in the columns, for every list of columns.  The single
    empty column holds no wire, so the sum is 0; but the loop body has no
    branch for an empty column, [s] and [c] stay [undefined] and are pushed,
    and [compress] returns two [undefined] entries.  They are not wires and
    have no value, so the outputs have no integer value at all.  The store
    model gives the same outputs, and leaves [undefined] in the caller's
    array.  This is the defect of C9. *)
Theorem compress_value_empty_column env C fuel :
  cols_value (eval env C) [[]] = Some 0
  ∧ compress C [[]] = Some (C, [None; None])
  ∧ InPlace.compress (4 + fuel) C [[]] [0%nat] = Some (C, [[None]; [None]], [None; None])
  ∧ bits_value (eval env C) [None; None] = None.
Proof. split_and!; reflexivity. Qed.

(** C9: on a single empty column the compressor does not return the empty
    sequence; it pushes [undefined] into the column and into a new next
    column and returns both as output bits.  So does [popcount] of no bit,
    and so does an empty column above a finished one: its weight and the
    next one get an [undefined] output entry each. *)
Theorem compress_single_empty_column C :
  compress C [[]] = Some (C, [None; None])
  ∧ popcount C [] = Some (C, [None; None])
  ∧ ∀ x, compress C [[x]; []] = Some (C, [x; None; None]).
Proof. split_and!; [reflexivity..|]. intros x. reflexivity. Qed.

(** ** Cost metrics *)

Lemma fold_left_cost (l : list gate_t) (a : nat) :
  fold_left (λ sum g, (sum + aig_cost g)%nat) l a = (a + sum_list_with aig_cost l)%nat.
Proof.
  revert a. induction l as [|g l IH]; intros a; simpl; [lia|].
  rewrite IH. lia.
Qed.

Lemma counted_two_operands (C : netlist) :
  Forall (λ g, (operands g ≤ 2)%nat) C →
  filter (λ g, (3 ≤ js_length g)%nat) C = filter (λ g, operands g = 2%nat) C.
Proof.
  induction 1 as [|g C Hg _ IH]; [done|].
  rewrite !filter_cons, IH. unfold js_length, operands in *.
  repeat case_decide; try done; lia.
Qed.

Lemma aig_cost_sum (l : list gate_t) :
  sum_list_with aig_cost l
  = (length l + 2 * length (filter (λ g : gate_t, g.1 = "xor") l))%nat.
Proof.
  induction l as [|g l IH]; [done|].
  rewrite filter_cons. cbn [sum_list_with length]. rewrite IH. unfold aig_cost.
  destruct (String.eqb_spec g.1 "xor") as [E|E]; case_decide; try done; simpl; lia.
Qed.

Lemma filter_xor2 (C : netlist) :
  filter (λ g : gate_t, g.1 = "xor") (filter (λ g, operands g = 2%nat) C)
  = filter (λ g, operands g = 2%nat ∧ g.1 = "xor") C.
Proof.
  induction C as [|g C IH]; [done|].
  rewrite !filter_cons. case_decide.
  - rewrite filter_cons, IH. repeat case_decide; tauto.
  - rewrite IH. case_decide; tauto.
Qed.

Lemma count_aig_unfold (C : netlist) :
  count_aig C = sum_list_with aig_cost (filter (λ g, (3 ≤ js_length g)%nat) C).
Proof. unfold count_aig. apply (fold_left_cost _ 0%nat). Qed.

Lemma xor2_count_zero (C : netlist) :
  xor2_count C = 0%nat ↔ Forall (λ g, ¬ (operands g = 2%nat ∧ g.1 = "xor")) C.
Proof.
  unfold xor2_count. induction C as [|g C IH]; [done|].
  rewrite filter_cons, Forall_cons. case_decide as Hg; simpl.
  - split; [lia|]. by intros [? _].
  - rewrite IH. by split; [|intros [_ ?]].
Qed.

(** On any list of gates, of whatever arity, the AIG metric is at least
    the XAIG metric. *)
Lemma count_aig_ge (C : netlist) : (count_xaig C ≤ count_aig C)%nat.
Proof. rewrite count_aig_unfold, aig_cost_sum. unfold count_xaig. lia. Qed.

(** C7: on a netlist of the data model (no gate has more than two operands)
    [count_xaig] counts exactly the two-operand gates, [count_aig] sums 3 for
    each two-operand XOR and 1 for each other two-operand gate, so
    [count_aig ≥ count_xaig], with equality iff there is no two-operand XOR
    gate. *)
Theorem cost_metrics (C : netlist) :
  Forall (λ g, (operands g ≤ 2)%nat) C →
  count_xaig C = length (filter (λ g, operands g = 2%nat) C)
  ∧ count_aig C
    = (3 * length (filter (λ g, operands g = 2%nat ∧ g.1 = "xor") C)
       + 1 * length (filter (λ g, operands g = 2%nat ∧ g.1 ≠ "xor") C))%nat
  ∧ (count_xaig C ≤ count_aig C)%nat
  ∧ (count_aig C = count_xaig C
     ↔ Forall (λ g, ¬ (operands g = 2%nat ∧ g.1 = "xor")) C).
Proof.
  intros Hwf.
  assert (Hx : count_xaig C = length (filter (λ g, operands g = 2%nat) C)).
  { unfold count_xaig. by rewrite counted_two_operands. }
  assert (Ha : count_aig C = (count_xaig C + 2 * xor2_count C)%nat).
  { rewrite count_aig_unfold, counted_two_operands, aig_cost_sum, filter_xor2 by done.
    by rewrite Hx. }
  assert (Hsplit : length (filter (λ g, operands g = 2%nat) C)
    = (length (filter (λ g, operands g = 2%nat ∧ g.1 = "xor") C)
       + length (filter (λ g, operands g = 2%nat ∧ g.1 ≠ "xor") C))%nat).
  { clear. induction C as [|g C IH]; [done|].
    rewrite !filter_cons. repeat case_decide; simpl; try lia; tauto. }
  split_and!; [done| | |].
  - rewrite Ha, Hx, Hsplit. unfold xor2_count. lia.
  - lia.
  - rewrite <- xor2_count_zero. lia.
Qed.

Lemma cost_metrics_witness :
  Forall (λ g, (operands g ≤ 2)%nat) adder_2bit
  ∧ count_xaig adder_2bit = 7%nat
  ∧ count_aig adder_2bit = 13%nat
  ∧ (count_xaig adder_2bit ≤ count_aig adder_2bit)%nat.
Proof.
  assert (H : Forall (λ g, (operands g ≤ 2)%nat) adder_2bit).
  { vm_compute. repeat constructor. }
  split; [exact H|]. split; [reflexivity|]. split; [reflexivity|].
  exact (proj1 (proj2 (proj2 (cost_metrics adder_2bit H)))).
Defined.

Lemma halfadder_fulladder_correct_witness :
  ∃ s c bs bc,
    (fulladder seven_inputs (Some 0%nat) (Some 1%nat) (Some 2%nat)).2 = (s, c)
    ∧ wire_bit (eval all_ones (fulladder seven_inputs (Some 0%nat) (Some 1%nat) (Some 2%nat)).1) (Some s)
      = Some bs
    ∧ wire_bit (eval all_ones (fulladder seven_inputs (Some 0%nat) (Some 1%nat) (Some 2%nat)).1) (Some c)
      = Some bc
    ∧ bs + 2 * bc = 3.
Proof.
  destruct (halfadder_fulladder_correct all_ones seven_inputs
              (Some 0%nat) (Some 1%nat) (Some 2%nat) true true true
              eq_refl eq_refl eq_refl)
    as [_ (C1 & s1 & c1 & C2 & s2 & c2 & c & _ & _ & Hfa & _ & bs & bc & Hs & Hc & Hsum)].
  exists s2, c, bs, bc. rewrite Hfa at 1. done.
Defined.

(** C5, as stated, counts four appends for the full adder; it appends five
    gates. *)
Lemma fulladder_not_four_appends :
  length (fulladder seven_inputs (Some 0%nat) (Some 1%nat) (Some 2%nat)).1
  ≠ (length seven_inputs + 4)%nat.
Proof. vm_compute. lia. Qed.

(** ** Number of outputs of the compressor *)

Lemma bit_length_half x : (1 ≤ x)%nat → bit_length x = S (bit_length (x / 2)).
Proof.
  intros Hx. destruct (decide (x = 1%nat)) as [->|Hne]; [done|].
  assert (Hq : (1 ≤ x / 2)%nat) by (apply Nat.div_le_lower_bound; lia).
  unfold bit_length. destruct x as [|x']; [lia|].
  destruct (S x' / 2)%nat as [|q] eqn:Eq; [lia|]. f_equal.
  pose proof (Nat.div_mod_eq (S x') 2) as Hdm. rewrite Eq in Hdm.
  pose proof (Nat.mod_upper_bound (S x') 2 ltac:(lia)) as Hm.
  destruct (decide (S x' `mod` 2 = 0)%nat) as [E0|E1].
  - replace (S x') with (2 * S q)%nat by lia. apply Nat.log2_double. lia.
  - replace (S x') with (2 * S q + 1)%nat by lia. apply Nat.log2_succ_double. lia.
Qed.

Lemma out_count_cons cin k rest :
  out_count cin (k :: rest) = S (out_count ((k + cin) / 2) rest).
Proof. done. Qed.

Lemma half_succ_succ a : ((a + 2) / 2 = S (a / 2))%nat.
Proof. replace (a + 2)%nat with (a + 1 * 2)%nat by lia. rewrite Nat.div_add by lia. lia. Qed.

(** Sizes of the columns above after a carry went up. *)
Lemma push_carry_shape rest c cin :
  out_count cin (length <$> push_carry rest c) = out_count (S cin) (length <$> rest).
Proof.
  destruct rest as [|col1 rest']; cbn [push_carry fmap list_fmap].
  - rewrite out_count_cons. cbn [out_count length].
    rewrite (bit_length_half (S cin)) by lia. do 2 f_equal.
  - rewrite !out_count_cons, length_app. cbn [length]. do 3 f_equal. lia.
Qed.

Lemma compress_step_count C bits outs C' bits' outs' :
  Forall (λ col : list wire, col ≠ []) bits →
  compress_step C bits outs = Some (C', bits', outs') →
  Forall (λ col : list wire, col ≠ []) bits'
  ∧ (length outs' + out_count 0 (length <$> bits')
     = length outs + out_count 0 (length <$> bits))%nat.
Proof.
  intros Hne. unfold compress_step. destruct bits as [|col rest]; [done|].
  apply Forall_cons in Hne as [Hcol Hne].
  destruct col as [|x [|y [|z col']]]; [done| | |].
  - intros [= <- <- <-]. split; [done|].
    rewrite fmap_cons, out_count_cons, length_app. cbn [length].
    change ((1 + 0) / 2)%nat with 0%nat. lia.
  - destruct (halfadder C x y) as [C1 [s c]].
    rewrite compress_step_carry. intros [= <- <- <-].
    split; [constructor; [done|by apply push_carry_nonempty]|].
    rewrite !fmap_cons, !out_count_cons, push_carry_shape. cbn [length app].
    change ((1 + 0) / 2)%nat with 0%nat. change ((2 + 0) / 2)%nat with 1%nat. done.
  - destruct (fulladder C x y z) as [C1 [s c]].
    rewrite compress_step_carry. intros [= <- <- <-].
    split; [constructor; [by destruct col'|by apply push_carry_nonempty]|].
    rewrite !fmap_cons, !out_count_cons, push_carry_shape.
    rewrite length_app. cbn [length].
    replace (S (S (S (length col'))) + 0)%nat with ((length col' + 1 + 0) + 2)%nat by lia.
    by rewrite half_succ_succ.
Qed.

Lemma compress_loop_count fuel C bits outs C' outs' :
  Forall (λ col : list wire, col ≠ []) bits →
  compress_loop fuel C bits outs = Some (C', outs') →
  length outs' = (length outs + out_count 0 (length <$> bits))%nat.
Proof.
  revert C bits outs. induction fuel as [|fuel IH]; intros C bits outs Hne; [done|].
  simpl. destruct (compress_step C bits outs) as [[[C1 bits1] outs1]|] eqn:Estep.
  - intros Hloop.
    destruct (compress_step_count _ _ _ _ _ _ Hne Estep) as [Hne1 Hcount].
    rewrite (IH _ _ _ Hne1 Hloop). done.
  - intros [= <- <-].
    destruct bits as [|col rest]; [simpl; lia|].
    unfold compress_step in Estep.
    destruct col as [|x [|y [|z col']]]; [| done | |].
    + by destruct rest.
    + destruct (halfadder C x y) as [? [? ?]]. by destruct rest.
    + destruct (fulladder C x y z) as [? [? ?]]. by destruct rest.
Qed.

Lemma compress_length C bits C' outs :
  Forall (λ col : list wire, col ≠ []) bits →
  compress C bits = Some (C', outs) →
  length outs = out_count 0 (length <$> bits).
Proof. intros Hne Hrun. by rewrite (compress_loop_count _ _ _ _ _ _ Hne Hrun). Qed.

(** ** Popcount *)

Lemma out_count_single n : (1 ≤ n)%nat → out_count 0 [n] = Nat.log2_up (n + 1).
Proof.
  intros Hn. rewrite out_count_cons. cbn [out_count].
  rewrite Nat.add_0_r, <- bit_length_half by done.
  rewrite Nat.log2_up_eqn by lia.
  replace (Nat.pred (n + 1)) with n by lia. unfold bit_length. by destruct n; [lia|].
Qed.

(** C4: for a vector of [n] bits, [1 ≤ n ≤ 16], the output of [popcount]
    read LSB-first is the number of set bits, on [⌈log2(n+1)⌉] output bits. *)
Theorem popcount_correct env C bits n k :
  length bits = n → (1 ≤ n ≤ 16)%nat →
  col_sum (eval env C) bits = Some k →
  ∃ C' outs, popcount C bits = Some (C', outs)
    ∧ bits_value (eval env C') outs = Some k
    ∧ length outs = Nat.log2_up (n + 1).
Proof.
  intros Hlen Hn Hk.
  assert (Hne : Forall (λ col : list wire, col ≠ []) [bits]).
  { repeat constructor. destruct bits; simpl in *; [lia|done]. }
  assert (Hv : cols_value (eval env C) [bits] = Some k).
  { simpl. rewrite Hk. simpl. f_equal. lia. }
  destruct (compress_correct env C [bits] k Hne Hv) as (D & outs & Hrun & Hval).
  exists (C ++ D), outs. split_and!; [done..|].
  unfold popcount in *. rewrite (compress_length _ _ _ _ Hne Hrun).
  cbn [fmap list_fmap]. rewrite Hlen. apply out_count_single. lia.
Qed.

Lemma popcount_correct_witness :
  ∃ C' outs,
    popcount five_inputs [Some 0; Some 1; Some 2; Some 3; Some 4]%nat = Some (C', outs)
    ∧ bits_value (eval env_10110 C') outs = Some 3
    ∧ length outs = 3%nat.
Proof.
  apply (popcount_correct env_10110 five_inputs
           [Some 0; Some 1; Some 2; Some 3; Some 4]%nat 5 3).
  - reflexivity.
  - lia.
  - reflexivity.
Defined.

(** ** Adder *)

Lemma js_get_cons w ws i : js_get (w :: ws) (S i) = js_get ws i.
Proof. done. Qed.

Lemma adder_columns_cons a as' b bs :
  imap (λ i x, [x; js_get (b :: bs) i]) (a :: as')
  = [a; b] :: imap (λ i x, [x; js_get bs i]) as'.
Proof. rewrite imap_cons. f_equal. Qed.

Lemma adder_columns vals (bits_a bits_b : list wire) :
  length bits_a = length bits_b →
  Forall (has_val vals) bits_a →
  Forall (has_val vals) bits_b →
  let land := imap (λ i a, [a; js_get bits_b i]) bits_a in
  Forall (λ col : list wire, col ≠ []) land
  ∧ Forall (Forall (has_val vals)) land
  ∧ colsZ vals land = bitsZ vals bits_a + bitsZ vals bits_b
  ∧ length <$> land = replicate (length bits_a) 2%nat.
Proof.
  intros Hlen Ha. revert bits_b Hlen.
  induction Ha as [|a as' Hx Ha IH]; intros [|b bs] Hlen Hb; try done.
  apply Forall_cons in Hb as [Hy Hb].
  destruct (IH bs ltac:(simpl in Hlen; lia) Hb) as (IH1 & IH2 & IH3 & IH4).
  cbv zeta. rewrite adder_columns_cons. split_and!.
  - by constructor.
  - constructor; [by repeat constructor|done].
  - cbn [colsZ colZ bitsZ]. rewrite IH3. lia.
  - rewrite fmap_cons, IH4. done.
Qed.

Lemma out_count_pairs k : out_count 1 (replicate k 2%nat) = S k.
Proof.
  induction k as [|k IH]; [done|].
  cbn [replicate]. rewrite out_count_cons. change ((2 + 1) / 2)%nat with 1%nat.
  by rewrite IH.
Qed.

Lemma adder_correct env C bits_a bits_b A B :
  length bits_a = length bits_b →
  bits_value (eval env C) bits_a = Some A →
  bits_value (eval env C) bits_b = Some B →
  ∃ D outs, adder C bits_a bits_b = Some (C ++ D, Ok outs)
    ∧ bits_value (eval env (C ++ D)) outs = Some (A + B)
    ∧ length outs = match length bits_a with O => O | S n => S (S n) end.
Proof.
  intros Hlen HA HB.
  apply bits_value_Some in HA as [Ha <-]. apply bits_value_Some in HB as [Hb <-].
  destruct (adder_columns (eval env C) bits_a bits_b Hlen Ha Hb)
    as (Hne & Hcols & Hsum & Hshape).
  set (land := imap (λ i a, [a; js_get bits_b i]) bits_a) in *.
  destruct (compress_correct env C land (bitsZ (eval env C) bits_a + bitsZ (eval env C) bits_b))
    as (D & outs & Hrun & Hval); [done | by apply cols_value_Some |].
  exists D, outs. split_and!; [|done|].
  - unfold adder. rewrite decide_False by (intros H; by apply H).
    fold land. by rewrite Hrun.
  - rewrite (compress_length _ _ _ _ Hne Hrun), Hshape.
    destruct (length bits_a) as [|n]; [done|].
    cbn [replicate]. rewrite out_count_cons. change ((2 + 0) / 2)%nat with 1%nat.
    by rewrite out_count_pairs.
Qed.

(** C8: with operand arrays of unequal length [adder] throws before any gate
    is appended and leaves the netlist as it was; with equal lengths it does
    not throw. *)
Theorem adder_length_check C bits_a bits_b :
  (length bits_a ≠ length bits_b →
     adder C bits_a bits_b = Some (C, Error length_error))
  ∧ (length bits_a = length bits_b →
     ∃ C' outs, adder C bits_a bits_b = Some (C', Ok outs)).
Proof.
  split; intros Hlen; unfold adder.
  - by rewrite decide_True.
  - rewrite decide_False by (intros H; by apply H).
    destruct (compress_total C (imap (λ i a, [a; js_get bits_b i]) bits_a))
      as [[C' outs] ->].
    by exists C', outs.
Qed.

(** C2 (as amended): for [n]-bit operands encoding [A] and [B] the output
    of [adder] read LSB-first is [A + B]; it has [n + 1] bits when [n ≥ 1]
    and no bit at all when [n = 0]. *)
Theorem adder_roundtrip env C bits_a bits_b n A B :
  length bits_a = n → length bits_b = n →
  bits_value (eval env C) bits_a = Some A →
  bits_value (eval env C) bits_b = Some B →
  ∃ C' outs, adder C bits_a bits_b = Some (C', Ok outs)
    ∧ (∃ D, C' = C ++ D)
    ∧ bits_value (eval env C') outs = Some (A + B)
    ∧ length outs = (if decide (n = 0%nat) then 0 else n + 1)%nat.
Proof.
  intros Hla Hlb HA HB.
  destruct (adder_correct env C bits_a bits_b A B) as (D & outs & Hrun & Hval & Hlen);
    [congruence | done..|].
  exists (C ++ D), outs. split_and!; [done | by exists D | done |].
  rewrite Hlen, Hla. destruct n; simpl; lia.
Qed.

Lemma adder_roundtrip_witness :
  ∃ C' outs, adder two_by_two [Some 0; Some 1]%nat [Some 2; Some 3]%nat = Some (C', Ok outs)
    ∧ bits_value (eval all_ones C') outs = Some 6
    ∧ length outs = 3%nat.
Proof.
  destruct (adder_roundtrip all_ones two_by_two [Some 0; Some 1]%nat [Some 2; Some 3]%nat
              2 3 3 eq_refl eq_refl eq_refl eq_refl)
    as (C' & outs & Hrun & _ & Hval & Hlen).
  by exists C', outs.
Defined.

(** C2, as stated, fails for [n = 0]: the adder of two empty operands
    returns no output bit, not one. *)
Lemma adder_zero_width_no_bit :
  ¬ (∀ env C bits_a bits_b n A B,
        length bits_a = n → length bits_b = n →
        bits_value (eval env C) bits_a = Some A →
        bits_value (eval env C) bits_b = Some B →
        ∃ C' outs, adder C bits_a bits_b = Some (C', Ok outs)
          ∧ bits_value (eval env C') outs = Some (A + B)
          ∧ length outs = (n + 1)%nat).
Proof.
  intros H.
  destruct (H all_ones [] [] [] 0%nat 0 0 eq_refl eq_refl eq_refl eq_refl)
    as (C' & outs & Hrun & _ & Hlen).
  vm_compute in Hrun. injection Hrun as <- <-. done.
Qed.

(** ** Loops *)

Lemma for_each_preserves {S : Type} (P : S → Prop) body idxs (st : S) :
  P st → (∀ i st, P st → P (body i st).1) → P (for_each idxs body st).1.
Proof.
  intros HP Hbody. revert st HP.
  induction idxs as [|i idxs IH]; intros st HP; simpl; [done|].
  specialize (Hbody i st HP). destruct (body i st) as [st' [[]|msg]]; simpl in *.
  - by apply IH.
  - done.
Qed.

(** ** The multiplier leaves the caller's arrays alone *)

Lemma mult_body_frame (h0 : store) la lb d i st :
  (length h0 ≤ la)%nat → (length h0 ≤ lb)%nat →
  take (length h0) (m_store st) = h0 →
  take (length h0) (m_store (mult_body la lb d i st).1) = h0.
Proof.
  intros Hla Hlb Hst. unfold mult_body, gate. cbv zeta.
  repeat case_match; simpl; by rewrite ?take_insert_ge.
Qed.

Lemma mult_row_frame (h0 : store) la lb na nb d st :
  (length h0 ≤ la)%nat → (length h0 ≤ lb)%nat →
  take (length h0) (m_store st) = h0 →
  take (length h0) (m_store (mult_row la lb na nb d st).1) = h0.
Proof.
  intros Hla Hlb Hst. unfold mult_row.
  apply (for_each_preserves (λ st, take (length h0) (m_store st) = h0)); [done|].
  intros. by apply mult_body_frame.
Qed.

(** C10: [multiplier] returns (or throws) with every array of the caller's
    store holding exactly the wires it held before the call; the entries
    it overwrites with fan-out duplicates are those of its two copies. *)
Theorem multiplier_keeps_operands C (h : store) bits_a bits_b :
  ∃ C' h' r, multiplier C h bits_a bits_b = Some (C', h', r)
    ∧ take (length h) h' = h
    ∧ ∀ (p : ref) (a : list wire), h !! p = Some a → h' !! p = Some a.
Proof.
  assert (Hframe : ∀ h' : store, take (length h) h' = h →
            ∀ (p : ref) (a : list wire), h !! p = Some a → h' !! p = Some a).
  { intros h' Hh' p a Hp. rewrite <- Hh' in Hp.
    by apply lookup_take_Some in Hp as [? _]. }
  unfold multiplier, alloc.
  set (na := length (h !!! bits_a)). set (nb := length (h !!! bits_b)).
  set (st0 := MState C _ _).
  pose proof (for_each_preserves (λ st, take (length h) (m_store st) = h)
                (mult_row (length h) (length (h ++ [h !!! bits_a])) na nb)
                (seq 0 (na + nb - 1)) st0) as Hinv.
  destruct (for_each _ _ st0) as [st [[]|msg]]; simpl in Hinv.
  - destruct (compress_total (m_net st) (m_land st)) as [[C' outs] ->]. simpl.
    exists C', (m_store st), (Ok outs).
    assert (take (length h) (m_store st) = h) as Hst; [|by eauto].
    apply Hinv.
    + unfold st0. simpl. rewrite <- app_assoc. apply take_app_length.
    + intros d st' Hst'. apply mult_row_frame; [lia| rewrite length_app; lia | done].
  - exists (m_net st), (m_store st), (Error msg).
    assert (take (length h) (m_store st) = h) as Hst; [|by eauto].
    apply Hinv.
    + unfold st0. simpl. rewrite <- app_assoc. apply take_app_length.
    + intros d st' Hst'. apply mult_row_frame; [lia| rewrite length_app; lia | done].
Qed.

(** On two 2-bit operands: the arrays of the caller are as before, and the
    two copies hold the last duplicates made of each operand bit. *)
Example multiplier_store_2x2 :
  ∃ C' outs,
    multiplier two_by_two [[Some 0; Some 1]; [Some 2; Some 3]]%nat 0 1
    = Some (C', [[Some 0; Some 1]; [Some 2; Some 3];
                 [Some 7; Some 13]; [Some 11; Some 14]]%nat, Ok outs).
Proof. eexists _, _. vm_compute. reflexivity. Qed.

(** ** Sums of partial products *)

Section sums.
Context {A : Type}.
Implicit Types (f g : A → Z) (l k : list A).

Lemma sumZ_app f l k : sumZ f (l ++ k) = sumZ f l + sumZ f k.
Proof. induction l as [|x l IH]; simpl; [done|]. rewrite IH. lia. Qed.

Lemma sumZ_perm f l k : l ≡ₚ k → sumZ f l = sumZ f k.
Proof. induction 1; simpl; lia. Qed.

Lemma sumZ_ext f g l : (∀ x, f x = g x) → sumZ f l = sumZ g l.
Proof. intros H. induction l as [|x l IH]; simpl; [done|]. by rewrite H, IH. Qed.

Lemma sumZ_scale_l c f l : sumZ (λ x, c * f x) l = c * sumZ f l.
Proof. induction l as [|x l IH]; simpl; [lia|]. rewrite IH. lia. Qed.

Lemma sumZ_scale_r c f l : sumZ (λ x, f x * c) l = sumZ f l * c.
Proof. induction l as [|x l IH]; simpl; [lia|]. rewrite IH. lia. Qed.

Lemma sumZ_fmap {B : Type} (h : B → A) f (l : list B) :
  sumZ f (h <$> l) = sumZ (λ x, f (h x)) l.
Proof.
  induction l as [|x l IH]; [done|].
  rewrite fmap_cons. cbn [sumZ]. by rewrite IH.
Qed.

Lemma sumZ_bind {B : Type} (h : B → list A) f (l : list B) :
  sumZ f (l ≫= h) = sumZ (λ x, sumZ f (h x)) l.
Proof.
  induction l as [|x l IH]; [done|].
  rewrite bind_cons, sumZ_app, IH. done.
Qed.
End sums.

Lemma bit_at_cons v vs i : bit_at (v :: vs) (S i) = bit_at vs i.
Proof. done. Qed.

Lemma lsb_value_sum vs :
  lsb_value vs = sumZ (λ i, 2 ^ Z.of_nat i * bit_at vs i) (seq 0 (length vs)).
Proof.
  induction vs as [|v vs IH]; [done|].
  cbn [lsb_value length seq sumZ]. rewrite <- fmap_S_seq, sumZ_fmap.
  rewrite (sumZ_ext _ (λ i, 2 * (2 ^ Z.of_nat i * bit_at vs i))).
  - rewrite sumZ_scale_l, <- IH. unfold bit_at at 1. simpl. lia.
  - intros i. rewrite bit_at_cons, Nat2Z.inj_succ, Z.pow_succ_r by lia. lia.
Qed.

Lemma grid_sum va vb :
  sumZ (pp_term va vb) (grid (length va) (length vb)) = lsb_value va * lsb_value vb.
Proof.
  unfold grid. rewrite sumZ_bind.
  rewrite (sumZ_ext _ (λ i, (2 ^ Z.of_nat i * bit_at va i) * lsb_value vb)).
  - by rewrite sumZ_scale_r, <- lsb_value_sum.
  - intros i. rewrite sumZ_fmap. unfold pp_term. cbn [fst snd].
    rewrite (sumZ_ext _ (λ j, (2 ^ Z.of_nat i * bit_at va i) * (2 ^ Z.of_nat j * bit_at vb j))).
    + by rewrite sumZ_scale_l, <- lsb_value_sum.
    + intros j. rewrite Nat2Z.inj_add, Z.pow_add_r by lia. lia.
Qed.

Lemma elem_of_row_indices na nb d i :
  i ∈ row_indices na nb d ↔ (i < na ∧ i ≤ d ∧ d - i < nb)%nat.
Proof. unfold row_indices. rewrite elem_of_seq. lia. Qed.

Lemma elem_of_pairs na nb i j :
  (i, j) ∈ pairs na nb ↔ (i < na ∧ j < nb)%nat.
Proof.
  unfold pairs. rewrite list_elem_of_bind. split.
  - intros (d & Hin & Hd). apply list_elem_of_fmap in Hin as (i' & [= -> ->] & Hi).
    apply elem_of_row_indices in Hi. lia.
  - intros [Hi Hj]. exists (i + j)%nat. split.
    + apply list_elem_of_fmap. exists i. split; [f_equal; lia|].
      apply elem_of_row_indices. lia.
    + apply elem_of_seq. lia.
Qed.

Lemma elem_of_grid na nb i j :
  (i, j) ∈ grid na nb ↔ (i < na ∧ j < nb)%nat.
Proof.
  unfold grid. rewrite list_elem_of_bind. split.
  - intros (i' & Hin & Hi). apply list_elem_of_fmap in Hin as (j' & [= -> ->] & Hj).
    apply elem_of_seq in Hi, Hj. lia.
  - intros [Hi Hj]. exists i. split; [|apply elem_of_seq; lia].
    apply list_elem_of_fmap. exists j. split; [done|apply elem_of_seq; lia].
Qed.

Lemma NoDup_pairs na nb : NoDup (pairs na nb).
Proof.
  unfold pairs. apply NoDup_bind; [| |apply NoDup_seq].
  - intros d1 d2 [i j] _ _ H1 H2.
    apply list_elem_of_fmap in H1 as (i1 & [= -> ->] & Hi1).
    apply list_elem_of_fmap in H2 as (i2 & [= -> E] & Hi2).
    apply elem_of_row_indices in Hi1, Hi2. lia.
  - intros d _. apply NoDup_fmap_2_strong; [|apply NoDup_seq].
    by intros i1 i2 _ _ [= ->].
Qed.

Lemma NoDup_grid na nb : NoDup (grid na nb).
Proof.
  unfold grid. apply NoDup_bind; [| |apply NoDup_seq].
  - intros i1 i2 [i j] _ _ H1 H2.
    apply list_elem_of_fmap in H1 as (j1 & [= -> ->] & _).
    apply list_elem_of_fmap in H2 as (j2 & [= -> _] & _). done.
  - intros i _. apply NoDup_fmap_2_strong; [|apply NoDup_seq].
    by intros j1 j2 _ _ [= ->].
Qed.

(** The two loops visit every pair of the grid exactly once. *)
Lemma pairs_grid na nb : pairs na nb ≡ₚ grid na nb.
Proof.
  apply NoDup_Permutation; [apply NoDup_pairs|apply NoDup_grid|].
  intros [i j]. by rewrite elem_of_pairs, elem_of_grid.
Qed.

Lemma pairs_sum va vb :
  sumZ (pp_term va vb) (pairs (length va) (length vb)) = lsb_value va * lsb_value vb.
Proof. rewrite (sumZ_perm _ _ _ (pairs_grid _ _)). apply grid_sum. Qed.

(** ** One iteration of the inner loop of the multiplier *)

Lemma store_get_a (h : store) xa xb : (h ++ [xa; xb]) !!! length h = xa.
Proof. by rewrite (list_lookup_total_middle h [xb] xa). Qed.

Lemma store_get_b (h : store) xa xb : (h ++ [xa; xb]) !!! S (length h) = xb.
Proof.
  rewrite lookup_total_app_r by lia.
  replace (S (length h) - length h)%nat with 1%nat by lia. done.
Qed.

Lemma store_set_a (h : store) xa xb x :
  <[length h := x]> (h ++ [xa; xb]) = h ++ [x; xb].
Proof. rewrite insert_app_r_alt by lia. by rewrite Nat.sub_diag. Qed.

Lemma store_set_b (h : store) xa xb x :
  <[S (length h) := x]> (h ++ [xa; xb]) = h ++ [xa; x].
Proof.
  rewrite insert_app_r_alt by lia.
  replace (S (length h) - length h)%nat with 1%nat by lia. done.
Qed.

Lemma js_get_lookup (a : list wire) i w : a !! i = Some w → js_get a i = w.
Proof. unfold js_get. by intros ->. Qed.

Lemma js_set_insert (a : list wire) i v : (i < length a)%nat → js_set a i v = <[i:=v]> a.
Proof. intros H. unfold js_set. by rewrite (proj2 (Nat.ltb_lt _ _) H). Qed.

Lemma mult_body_ok (h : store) xa xb (Cc : netlist) land d i ka kb ga gb col :
  xa !! i = Some (Some ka) → xb !! (d - i)%nat = Some (Some kb) →
  Cc !! ka = Some ga → (Cc ++ [(ga.1, [Some ka])]) !! kb = Some gb →
  land !! d = Some col →
  mult_body (length h) (S (length h)) d i (MState Cc (h ++ [xa; xb]) land)
  = (MState (Cc ++ pp_cell ga.1 gb.1 (Some ka) (Some kb) (length Cc))
            (h ++ [<[i := Some (length Cc)]> xa; <[(d - i)%nat := Some (S (length Cc))]> xb])
            (<[d := col ++ [Some (2 + length Cc)%nat]]> land),
     Ok ()).
Proof.
  intros Ha Hb Hga Hgb Hcol. unfold mult_body, gate. cbn [m_net m_store m_land].
  rewrite store_get_a, store_get_b, (js_get_lookup _ _ _ Ha), (js_get_lookup _ _ _ Hb).
  cbn [mbind option_bind]. rewrite Hga. cbv zeta. rewrite Hgb.
  rewrite store_set_a, store_get_b, store_set_b, Hcol.
  rewrite !js_set_insert by (by eapply lookup_lt_Some).
  rewrite !length_app. cbn [length]. unfold pp_cell.
  rewrite <- !app_assoc. cbn [app].
  replace (length Cc + 1)%nat with (S (length Cc)) by lia.
  replace (S (length Cc) + 1)%nat with (2 + length Cc)%nat by lia. done.
Qed.

Lemma pp_cell_vals env (Cn : netlist) ta tb x y α β :
  wire_val (eval env Cn) x = Some α →
  wire_val (eval env Cn) y = Some β →
  let vals := eval env (Cn ++ pp_cell ta tb x y (length Cn)) in
  wire_val vals (Some (length Cn)) = Some α
  ∧ wire_val vals (Some (S (length Cn))) = Some β
  ∧ wire_val vals (Some (2 + length Cn)%nat) = Some (andb α β).
Proof.
  intros Hx Hy vals. subst vals. unfold pp_cell.
  change [(ta, [x]); (tb, [y]); ("and", [Some (length Cn); Some (S (length Cn))])]
    with ([(ta, [x])] ++ [(tb, [y])]
          ++ [("and", [Some (length Cn); Some (S (length Cn))])]).
  assert (H1 : wire_val (eval env (Cn ++ [(ta, [x])])) (Some (length Cn)) = Some α)
    by (by apply gate_val_dup).
  assert (H2 : wire_val (eval env ((Cn ++ [(ta, [x])]) ++ [(tb, [y])]))
                 (Some (S (length Cn))) = Some β).
  { replace (S (length Cn)) with (length (Cn ++ [(ta, [x])]))
      by (rewrite length_app; simpl; lia).
    apply gate_val_dup. by apply wire_val_app. }
  rewrite !app_assoc. split_and!.
  - by do 2 apply wire_val_app.
  - by apply wire_val_app.
  - replace (2 + length Cn)%nat with (length ((Cn ++ [(ta, [x])]) ++ [(tb, [y])]))
      by (rewrite !length_app; simpl; lia).
    apply gate_val_binary; [done| |done]. by apply wire_val_app.
Qed.

Lemma colsZ_insert_snoc vals (land : list (list wire)) d col w :
  land !! d = Some col →
  colsZ vals (<[d := col ++ [w]]> land)
  = colsZ vals land + 2 ^ Z.of_nat d * bitZ vals w.
Proof.
  revert d. induction land as [|c land IH]; intros [|d] Hd; try done.
  - injection Hd as ->. change (colZ vals (col ++ [w]) + 2 * colsZ vals land
      = colZ vals col + 2 * colsZ vals land + 2 ^ Z.of_nat 0 * bitZ vals w).
    rewrite colZ_app. simpl. lia.
  - change (colZ vals c + 2 * colsZ vals (<[d := col ++ [w]]> land)
      = colZ vals c + 2 * colsZ vals land + 2 ^ Z.of_nat (S d) * bitZ vals w).
    rewrite (IH d Hd), Nat2Z.inj_succ, Z.pow_succ_r by lia. lia.
Qed.

Lemma operand_vals_app env C D ws vs :
  operand_vals (eval env C) ws vs → operand_vals (eval env (C ++ D)) ws vs.
Proof.
  unfold operand_vals. intros H. eapply Forall2_impl; [exact H|].
  intros w v. apply wire_val_app.
Qed.

Lemma operand_vals_set vals ws vs i k v :
  operand_vals vals ws vs → vs !! i = Some v → wire_val vals (Some k) = Some v →
  operand_vals vals (<[i := Some k]> ws) vs.
Proof.
  intros H Hv Hk. rewrite <- (list_insert_id vs i v Hv).
  by apply Forall2_insert.
Qed.

Lemma bit_at_lookup vs i v : vs !! i = Some v → bit_at vs i = b2z v.
Proof. unfold bit_at. by intros ->. Qed.

Lemma mult_body_inv env C (h : store) va vb N ps d i st :
  mult_inv env C h va vb N ps st →
  (i < length va)%nat → (d - i < length vb)%nat → (i ≤ d)%nat → (d < N)%nat →
  ∃ st', mult_body (length h) (S (length h)) d i st = (st', Ok ())
    ∧ mult_inv env C h va vb N (ps ++ [(i, (d - i)%nat)]) st'.
Proof.
  intros (G & xa & xb & Hnet & Hpp & Hst & Hxa & Hxb & Hlen & Hland & Hsum & Hne)
    Hi Hj Hid Hd.
  destruct st as [Cc hh land]. cbn [m_net m_store m_land] in *. subst Cc hh.
  destruct (lookup_lt_is_Some_2 va i Hi) as [α Hα].
  destruct (lookup_lt_is_Some_2 vb (d - i) Hj) as [β Hβ].
  destruct (Forall2_lookup_r _ _ _ _ _ Hxa Hα) as (wa & Hwa & Hva).
  destruct (Forall2_lookup_r _ _ _ _ _ Hxb Hβ) as (wb & Hwb & Hvb).
  destruct wa as [ka|]; [|done]. destruct wb as [kb|]; [|done].
  destruct (lookup_lt_is_Some_2 (C ++ G) ka) as [ga Hga].
  { rewrite <- (eval_length env). by eapply wire_val_lt. }
  destruct (lookup_lt_is_Some_2 (C ++ G) kb) as [gb Hgb].
  { rewrite <- (eval_length env). by eapply wire_val_lt. }
  destruct (lookup_lt_is_Some_2 land d ltac:(lia)) as [col Hcol].
  rewrite (mult_body_ok h xa xb (C ++ G) land d i ka kb ga gb col)
    by (done || by apply lookup_app_l_Some).
  eexists. split; [done|].
  destruct (pp_cell_vals env (C ++ G) ga.1 gb.1 (Some ka) (Some kb) α β Hva Hvb)
    as (Hna & Hnb & Hnp).
  set (cell := pp_cell ga.1 gb.1 (Some ka) (Some kb) (length (C ++ G))) in *.
  exists (G ++ cell), (<[i := Some (length (C ++ G))]> xa),
    (<[(d - i)%nat := Some (S (length (C ++ G)))]> xb).
  cbn [m_net m_store m_land]. split_and!.
  - by rewrite app_assoc.
  - by eapply pp_gates_snoc.
  - done.
  - eapply operand_vals_set; [by apply operand_vals_app|done..].
  - eapply operand_vals_set; [by apply operand_vals_app|done..].
  - by rewrite length_insert.
  - apply Forall_insert.
    + eapply Forall_impl; [exact Hland|]. intros c. apply Forall_has_val_app.
    + apply Forall_app. split.
      * apply Forall_has_val_app. by eapply (Forall_lookup_1 _ land).
      * repeat constructor. by exists (andb α β).
  - rewrite (colsZ_insert_snoc _ _ _ _ _ Hcol), colsZ_app_net, Hsum by done.
    rewrite sumZ_app. cbn [sumZ]. unfold pp_term. cbn [fst snd].
    rewrite (bit_at_lookup _ _ _ Hα), (bit_at_lookup _ _ _ Hβ).
    unfold bitZ, wire_bit. rewrite Hnp. cbn [fmap option_fmap option_map default].
    replace (i + (d - i))%nat with d by lia. destruct α, β; simpl; lia.
  - intros p [Hp| ->%list_elem_of_singleton]%elem_of_app.
    + destruct (Hne p Hp) as (c & Hc & Hcne).
      destruct (decide (d = p.1 + p.2)%nat) as [->|Hdp].
      * rewrite list_lookup_insert_eq by (by eapply lookup_lt_Some).
        eexists. split; [done|]. by destruct col.
      * rewrite list_lookup_insert_ne by done. eauto.
    + cbn [fst snd]. replace (i + (d - i))%nat with d by lia.
      rewrite list_lookup_insert_eq by (by eapply lookup_lt_Some).
      eexists. split; [done|]. by destruct col.
Qed.

(** ** The loops of the multiplier *)

Lemma for_each_ok {S : Type} (I : list nat → S → Prop) body idxs dn (st : S) :
  I dn st →
  (∀ dn i st, I dn st → i ∈ idxs →
     ∃ st', body i st = (st', Ok ()) ∧ I (dn ++ [i]) st') →
  ∃ st', for_each idxs body st = (st', Ok ()) ∧ I (dn ++ idxs) st'.
Proof.
  revert dn st. induction idxs as [|i idxs IH]; intros dn st HI Hbody.
  - exists st. by rewrite app_nil_r.
  - destruct (Hbody dn i st HI) as (st1 & E & HI1); [by left|].
    simpl. rewrite E.
    destruct (IH (dn ++ [i]) st1 HI1) as (st' & E' & HI').
    { intros dn' i' st2 H2 Hin. apply Hbody; [done|by right]. }
    exists st'. split; [done|]. by rewrite <- app_assoc in HI'.
Qed.

Lemma mult_row_inv env C (h : store) va vb N ps d st :
  mult_inv env C h va vb N ps st → (d < N)%nat →
  ∃ st', mult_row (length h) (S (length h)) (length va) (length vb) d st = (st', Ok ())
    ∧ mult_inv env C h va vb N
        (ps ++ ((λ i, (i, (d - i)%nat)) <$> row_indices (length va) (length vb) d)) st'.
Proof.
  intros Hinv Hd. unfold mult_row.
  apply (for_each_ok
           (λ dn st, mult_inv env C h va vb N (ps ++ ((λ i, (i, (d - i)%nat)) <$> dn)) st)
           _ _ []).
  - by rewrite app_nil_r.
  - intros dn i st1 H1 Hi. apply elem_of_row_indices in Hi.
    rewrite fmap_app, app_assoc. apply mult_body_inv; [done|lia..].
Qed.

Lemma mult_loops_inv env C (h : store) va vb N st :
  mult_inv env C h va vb N [] st →
  (N = length va + length vb - 1)%nat →
  ∃ st', for_each (seq 0 N) (mult_row (length h) (S (length h)) (length va) (length vb)) st
         = (st', Ok ())
    ∧ mult_inv env C h va vb N (pairs (length va) (length vb)) st'.
Proof.
  intros Hinv HN. unfold pairs. rewrite <- HN.
  apply (for_each_ok
           (λ dn st, mult_inv env C h va vb N
              (dn ≫= λ d, (λ i, (i, (d - i)%nat)) <$> row_indices (length va) (length vb) d) st)
           _ _ []); [done|].
  intros dn d st1 H1 Hd. apply elem_of_seq in Hd.
  rewrite bind_app, bind_singleton. apply mult_row_inv; [done|lia].
Qed.

Lemma colsZ_replicate vals N : colsZ vals (replicate N []) = 0.
Proof. induction N as [|N IH]; simpl; [done|]. rewrite IH. done. Qed.

Lemma mult_inv_init env C (h : store) a b va vb N :
  operand_vals (eval env C) a va → operand_vals (eval env C) b vb →
  mult_inv env C h va vb N [] (MState C (h ++ [a; b]) (replicate N [])).
Proof.
  intros Ha Hb. exists [], a, b. cbn [m_net m_store m_land].
  rewrite app_nil_r, length_replicate, colsZ_replicate.
  split_and!; try done.
  - constructor.
  - apply Forall_replicate. constructor.
  - intros p Hp. by apply elem_of_nil in Hp.
Qed.

Lemma bits_value_operand_vals vals ws A :
  bits_value vals ws = Some A → ∃ vs, operand_vals vals ws vs ∧ lsb_value vs = A.
Proof.
  revert A. induction ws as [|w ws IH]; intros A; simpl.
  - intros [= <-]. exists []. split; [constructor|done].
  - unfold wire_bit. destruct (wire_val vals w) as [v|] eqn:Ev; [|done]. simpl.
    destruct (bits_value vals ws) as [u|]; [|done]. simpl. intros [= <-].
    destruct (IH u eq_refl) as (vs & Hvs & <-).
    exists (v :: vs). split; [by constructor|done].
Qed.

Lemma mult_columns_nonempty env C (h : store) va vb st :
  (1 ≤ length va)%nat → (1 ≤ length vb)%nat →
  mult_inv env C h va vb (length va + length vb - 1)
    (pairs (length va) (length vb)) st →
  Forall (λ col : list wire, col ≠ []) (m_land st).
Proof.
  intros Hn Hm (G & xa & xb & _ & _ & _ & _ & _ & Hlen & _ & _ & Hne).
  apply Forall_lookup. intros d col Hcol.
  assert (d < length va + length vb - 1)%nat as Hd
    by (rewrite <- Hlen; by eapply lookup_lt_Some).
  destruct (Hne ((d + 1 - length vb)%nat, (d - (d + 1 - length vb))%nat))
    as (col' & Hcol' & Hne').
  { apply elem_of_pairs. lia. }
  cbn [fst snd] in Hcol'.
  replace (d + 1 - length vb + (d - (d + 1 - length vb)))%nat with d in Hcol' by lia.
  congruence.
Qed.

Lemma multiplier_run env C (h : store) pa pb a b va vb :
  h !! pa = Some a → h !! pb = Some b →
  (1 ≤ length va)%nat → (1 ≤ length vb)%nat →
  operand_vals (eval env C) a va → operand_vals (eval env C) b vb →
  ∃ st D outs,
    mult_inv env C h va vb (length va + length vb - 1) (pairs (length va) (length vb)) st
    ∧ compress (m_net st) (m_land st) = Some (m_net st ++ D, outs)
    ∧ multiplier C h pa pb = Some (m_net st ++ D, m_store st, Ok outs)
    ∧ bits_value (eval env (m_net st ++ D)) outs = Some (lsb_value va * lsb_value vb).
Proof.
  intros Hpa Hpb Hn Hm Ha Hb.
  pose proof (Forall2_length _ _ _ Ha) as Hla.
  pose proof (Forall2_length _ _ _ Hb) as Hlb.
  destruct (mult_loops_inv env C h va vb (length va + length vb - 1)
              (MState C (h ++ [a; b]) (replicate (length va + length vb - 1) [])))
    as (st & Hloops & Hinv); [by apply mult_inv_init|done|].
  pose proof (mult_columns_nonempty env C h va vb st Hn Hm Hinv) as Hne.
  pose proof Hinv as (G & xa & xb & Hnet & _ & _ & _ & _ & _ & Hland & Hsum & _).
  destruct (compress_correct env (m_net st) (m_land st) (lsb_value va * lsb_value vb))
    as (D & outs & Hrun & Hval); [done| |].
  { apply cols_value_Some. split; [done|]. by rewrite Hsum, pairs_sum. }
  exists st, D, outs. split_and!; [done..| |done].
  unfold multiplier, alloc.
  rewrite (list_lookup_total_correct _ _ _ Hpa).
  rewrite (list_lookup_total_correct _ _ _ Hpb).
  rewrite (list_lookup_total_correct (h ++ [a]) pb b) by (by apply lookup_app_l_Some).
  rewrite length_app. cbn [length]. rewrite <- app_assoc. cbn [app].
  replace (length h + 1)%nat with (S (length h)) by lia.
  rewrite Hla, Hlb, Hloops, Hrun. done.
Qed.

Lemma pp_gates_length env va vb C G ps :
  pp_gates env va vb C G ps → length G = (3 * length ps)%nat.
Proof.
  induction 1 as [|G ps i j ta tb x y α β _ IH _ _ _ _]; [done|].
  rewrite !length_app, IH. simpl. lia.
Qed.

Lemma length_grid na nb : length (grid na nb) = (na * nb)%nat.
Proof.
  assert (H : ∀ l : list nat,
             length (l ≫= λ i, (λ j, (i, j)) <$> seq 0 nb) = (length l * nb)%nat).
  { induction l as [|i l IH]; [done|].
    rewrite bind_cons, length_app, length_fmap, length_seq, IH. simpl. lia. }
  unfold grid. by rewrite H, length_seq.
Qed.

Lemma length_pairs na nb : length (pairs na nb) = (na * nb)%nat.
Proof. rewrite (Permutation_length (pairs_grid na nb)). apply length_grid. Qed.

(** C3: for operands of [n ≥ 1] and [m ≥ 1] bits encoding [A] and [B], the
    output of [multiplier] read LSB-first is [A * B]; before compressing,
    the circuit has [n + m - 1] columns and has appended, for each pair
    [(i, j)] in diagonal order, a duplicate of the wire of [a[i]], a
    duplicate of the wire of [b[j]] and the AND of the two duplicates. *)
Theorem multiplier_correct env C (h : store) pa pb a b n m A B :
  h !! pa = Some a → h !! pb = Some b →
  length a = n → length b = m → (1 ≤ n)%nat → (1 ≤ m)%nat →
  bits_value (eval env C) a = Some A →
  bits_value (eval env C) b = Some B →
  ∃ C' h' outs,
    multiplier C h pa pb = Some (C', h', Ok outs)
    ∧ bits_value (eval env C') outs = Some (A * B)
    ∧ ∃ va vb G land,
        operand_vals (eval env C) a va
        ∧ operand_vals (eval env C) b vb
        ∧ pp_gates env va vb C G (pairs n m)
        ∧ length G = (3 * (n * m))%nat
        ∧ length land = (n + m - 1)%nat
        ∧ compress (C ++ G) land = Some (C', outs).
Proof.
  intros Hpa Hpb Hn Hm Hn1 Hm1 HA HB.
  destruct (bits_value_operand_vals _ _ _ HA) as (va & Ha & <-).
  destruct (bits_value_operand_vals _ _ _ HB) as (vb & Hb & <-).
  pose proof (Forall2_length _ _ _ Ha) as Hla.
  pose proof (Forall2_length _ _ _ Hb) as Hlb.
  destruct (multiplier_run env C h pa pb a b va vb)
    as (st & D & outs & Hinv & Hrun & Hmul & Hval); [done|done|lia|lia|done|done|].
  destruct Hinv as (G & xa & xb & Hnet & Hpp & _ & _ & _ & Hlen & _).
  exists (m_net st ++ D), (m_store st), outs. split_and!; [done..|].
  exists va, vb, G, (m_land st).
  rewrite <- Hla, <- Hlb, Hn, Hm in *. rewrite <- Hnet.
  split_and!; [done..| |done|done].
  by rewrite (pp_gates_length _ _ _ _ _ _ Hpp), length_pairs.
Qed.

Lemma multiplier_correct_witness :
  ∃ C' h' outs,
    multiplier two_by_two [[Some 0; Some 1]; [Some 2; Some 3]]%nat 0 1
    = Some (C', h', Ok outs)
    ∧ bits_value (eval all_ones C') outs = Some 9.
Proof.
  assert (Hn : (1 ≤ 2)%nat) by lia.
  destruct (multiplier_correct all_ones two_by_two
              [[Some 0; Some 1]; [Some 2; Some 3]]%nat 0 1
              [Some 0; Some 1]%nat [Some 2; Some 3]%nat 2 2 3 3
              eq_refl eq_refl eq_refl eq_refl Hn Hn eq_refl eq_refl)
    as (C' & h' & outs & Hrun & Hval & _).
  exists C', h', outs. split; [exact Hrun|exact Hval].
Defined.

(** ** Acyclicity *)

Lemma valid_wire_app C D w : valid_wire C w → valid_wire (C ++ D) w.
Proof. intros (k & -> & Hk). exists k. split; [done|]. rewrite length_app. lia. Qed.

Lemma valid_wire_new C D k : (k < length (C ++ D))%nat → valid_wire (C ++ D) (Some k).
Proof. intros Hk. by exists k. Qed.

Lemma Forall_valid_wire_app C D ws :
  Forall (valid_wire C) ws → Forall (valid_wire (C ++ D)) ws.
Proof. intros H. eapply Forall_impl; [exact H|]. intros w. apply valid_wire_app. Qed.

Lemma acyclic_nil : acyclic [].
Proof. intros idx g w Hg. by rewrite lookup_nil in Hg. Qed.

Lemma acyclic_snoc C g :
  acyclic C → Forall (valid_wire C) g.2 → acyclic (C ++ [g]).
Proof.
  intros HC Hg idx g' w Hidx Hw.
  apply lookup_app_Some in Hidx as [Hidx|[Hge Hidx]]; [by eapply HC|].
  apply list_lookup_singleton_Some in Hidx as [Hz <-].
  rewrite Forall_forall in Hg. destruct (Hg w Hw) as (k & -> & Hk).
  exists k. split; [done|lia].
Qed.

Lemma acyclic_app C D : acyclic C → gates_ok C D → acyclic (C ++ D).
Proof.
  revert C. induction D as [|g D IH]; intros C HC HD.
  - by rewrite app_nil_r.
  - destruct HD as [Hg HD]. rewrite (cons_middle g C D), app_assoc.
    apply IH; [by apply acyclic_snoc|done].
Qed.

Ltac solve_valid :=
  repeat match goal with
  | |- _ ∧ _ => split
  | |- True => exact I
  | |- Forall _ [] => constructor
  | |- Forall _ (_ :: _) => constructor
  | |- valid_wire _ _ =>
      first [ assumption
            | by repeat apply valid_wire_app
            | eexists; split; [reflexivity|]; rewrite ?length_app; simpl; lia ]
  end.

Lemma halfadder_acyclic C x y :
  acyclic C → valid_wire C x → valid_wire C y →
  acyclic (halfadder C x y).1
  ∧ valid_wire (halfadder C x y).1 (Some (halfadder C x y).2.1)
  ∧ valid_wire (halfadder C x y).1 (Some (halfadder C x y).2.2)
  ∧ ∃ D, (halfadder C x y).1 = C ++ D.
Proof.
  intros HC Hx Hy. rewrite halfadder_eq. cbn [fst snd]. split_and!.
  - apply acyclic_app; [done|]. cbn [gates_ok snd]. solve_valid.
  - solve_valid.
  - solve_valid.
  - eauto.
Qed.

Lemma fulladder_acyclic C x y z :
  acyclic C → valid_wire C x → valid_wire C y → valid_wire C z →
  acyclic (fulladder C x y z).1
  ∧ valid_wire (fulladder C x y z).1 (Some (fulladder C x y z).2.1)
  ∧ valid_wire (fulladder C x y z).1 (Some (fulladder C x y z).2.2)
  ∧ ∃ D, (fulladder C x y z).1 = C ++ D.
Proof.
  intros HC Hx Hy Hz. rewrite fulladder_eq. cbn [fst snd]. split_and!.
  - apply acyclic_app; [done|]. cbn [gates_ok snd]. solve_valid.
  - solve_valid.
  - solve_valid.
  - eauto.
Qed.

Lemma push_carry_valid C rest c :
  valid_wire C c →
  Forall (Forall (valid_wire C)) rest →
  Forall (Forall (valid_wire C)) (push_carry rest c).
Proof.
  intros Hc. destruct rest as [|col1 rest']; simpl; intros H.
  - by repeat constructor.
  - apply Forall_cons in H as [H1 H]. constructor; [|done].
    apply Forall_app. by repeat constructor.
Qed.

Lemma compress_step_acyclic C bits outs C' bits' outs' :
  acyclic C →
  Forall (Forall (valid_wire C)) bits →
  Forall (λ col : list wire, col ≠ []) bits →
  compress_step C bits outs = Some (C', bits', outs') →
  acyclic C'
  ∧ Forall (Forall (valid_wire C')) bits'
  ∧ Forall (λ col : list wire, col ≠ []) bits'.
Proof.
  intros HC Hval Hne. unfold compress_step. destruct bits as [|col rest]; [done|].
  apply Forall_cons in Hne as [Hcol Hne]. apply Forall_cons in Hval as [Hvcol Hval].
  destruct col as [|x [|y [|z col']]]; [done| | |].
  - by intros [= <- <- <-].
  - apply Forall_cons in Hvcol as [Hx Hvcol]. apply Forall_cons in Hvcol as [Hy _].
    destruct (halfadder_acyclic C x y HC Hx Hy) as (HC1 & Hs & Hc & D & HD).
    destruct (halfadder C x y) as [C1 [s c]]. cbn [fst snd] in *. subst C1.
    rewrite compress_step_carry. intros [= <- <- <-]. split_and!; [done| |].
    + constructor; [by repeat constructor|].
      apply push_carry_valid; [done|].
      eapply Forall_impl; [exact Hval|]. intros c0. apply Forall_valid_wire_app.
    + constructor; [done|by apply push_carry_nonempty].
  - apply Forall_cons in Hvcol as [Hx Hvcol]. apply Forall_cons in Hvcol as [Hy Hvcol].
    apply Forall_cons in Hvcol as [Hz Hvcol].
    destruct (fulladder_acyclic C x y z HC Hx Hy Hz) as (HC1 & Hs & Hc & D & HD).
    destruct (fulladder C x y z) as [C1 [s c]]. cbn [fst snd] in *. subst C1.
    rewrite compress_step_carry. intros [= <- <- <-]. split_and!; [done| |].
    + constructor.
      * apply Forall_app. split; [by apply Forall_valid_wire_app|by repeat constructor].
      * apply push_carry_valid; [done|].
        eapply Forall_impl; [exact Hval|]. intros c0. apply Forall_valid_wire_app.
    + constructor; [by destruct col'|by apply push_carry_nonempty].
Qed.

Lemma compress_loop_acyclic fuel C bits outs C' outs' :
  acyclic C →
  Forall (Forall (valid_wire C)) bits →
  Forall (λ col : list wire, col ≠ []) bits →
  compress_loop fuel C bits outs = Some (C', outs') →
  acyclic C'.
Proof.
  revert C bits outs. induction fuel as [|fuel IH]; intros C bits outs HC Hval Hne; [done|].
  simpl. destruct (compress_step C bits outs) as [[[C1 bits1] outs1]|] eqn:Estep.
  - destruct (compress_step_acyclic _ _ _ _ _ _ HC Hval Hne Estep) as (HC1 & Hval1 & Hne1).
    by apply IH.
  - by intros [= <- <-].
Qed.

Lemma compress_step_idle C bits outs C' bits' outs' :
  idle bits →
  compress_step C bits outs = Some (C', bits', outs') →
  C' = C ∧ idle bits'.
Proof.
  intros (pre & n & -> & Hpre). unfold compress_step.
  destruct pre as [|col pre].
  - destruct n as [|[|n]]; [done| |]; simpl; intros [= <- <- <-]; (split; [done|]).
    + exists [[None]; [None]], 0%nat. split; [done|]. by repeat constructor.
    + exists [[None]; [None]], n. split; [done|]. by repeat constructor.
  - apply Forall_cons in Hpre as [Hcol Hpre].
    destruct col as [|x [|? ?]]; try done. simpl.
    intros [= <- <- <-]. split; [done|]. by exists pre, n.
Qed.

Lemma compress_loop_idle fuel C bits outs C' outs' :
  idle bits → compress_loop fuel C bits outs = Some (C', outs') → C' = C.
Proof.
  revert C bits outs. induction fuel as [|fuel IH]; intros C bits outs Hidle; [done|].
  simpl. destruct (compress_step C bits outs) as [[[C1 bits1] outs1]|] eqn:Estep.
  - destruct (compress_step_idle _ _ _ _ _ _ Hidle Estep) as [-> Hidle1]. by apply IH.
  - by intros [= <- <-].
Qed.

Lemma inputs_fold_acyclic name (l : list nat) (C : netlist) (ws : list wire) :
  acyclic C →
  acyclic (fold_left
             (λ '(C, ws) i, let '(C', w) := gate C (label name i) [] in (C', ws ++ [Some w]))
             l (C, ws)).1.
Proof.
  revert C ws. induction l as [|i l IH]; intros C ws HC; [done|].
  simpl. apply IH. apply acyclic_snoc; [done|constructor].
Qed.

Lemma inputs_acyclic C name n : acyclic C → acyclic (inputs C name n).1.
Proof. apply inputs_fold_acyclic. Qed.

Lemma adder_columns_valid C (bits_a bits_b : list wire) :
  length bits_a = length bits_b →
  Forall (valid_wire C) bits_a → Forall (valid_wire C) bits_b →
  let land := imap (λ i a, [a; js_get bits_b i]) bits_a in
  Forall (Forall (valid_wire C)) land ∧ Forall (λ col : list wire, col ≠ []) land.
Proof.
  intros Hlen Ha. revert bits_b Hlen.
  induction Ha as [|a as' Hx Ha IH]; intros [|b bs] Hlen Hb; try done.
  apply Forall_cons in Hb as [Hy Hb].
  destruct (IH bs ltac:(simpl in Hlen; lia) Hb) as (IH1 & IH2).
  cbv zeta. rewrite adder_columns_cons. split.
  - constructor; [by repeat constructor|done].
  - by constructor.
Qed.

Lemma adder_acyclic C bits_a bits_b :
  acyclic C → Forall (valid_wire C) (bits_a ++ bits_b) →
  acyclic (run_call C (CallAdder bits_a bits_b)).1.
Proof.
  intros HC [Ha Hb]%Forall_app. unfold run_call, adder.
  case_decide as Hlen; [done|].
  assert (length bits_a = length bits_b) as Hlen' by lia.
  destruct (adder_columns_valid C bits_a bits_b Hlen' Ha Hb) as [Hval Hne].
  destruct (compress C _) as [[C' outs]|] eqn:Erun; simpl; [|done].
  by eapply compress_loop_acyclic.
Qed.

Lemma popcount_acyclic C bits :
  acyclic C → Forall (valid_wire C) bits →
  acyclic (run_call C (CallPopcount bits)).1.
Proof.
  intros HC Hbits. unfold run_call, popcount.
  destruct (compress C [bits]) as [[C' outs]|] eqn:Erun; simpl; [|done].
  destruct bits as [|w bits].
  - by injection Erun as <- <-.
  - eapply compress_loop_acyclic; [done| | |exact Erun].
    + by constructor.
    + by constructor.
Qed.

(** ** The multiplier keeps the netlist acyclic *)

Lemma filled_insert st C h d d' col w :
  m_land st !! d = Some col →
  filled st d' → filled (MState C h (<[d := col ++ [w]]> (m_land st))) d'.
Proof.
  intros Hcol (c & Hc & Hne). unfold filled. cbn [m_land].
  destruct (decide (d = d')) as [<-|Hdd].
  - rewrite list_lookup_insert_eq by (by eapply lookup_lt_Some).
    eexists. split; [done|]. by destruct col.
  - rewrite list_lookup_insert_ne by done. eauto.
Qed.

Lemma mult_body_struct la lb d i st :
  acyclic (m_net st) →
  Forall (Forall (valid_wire (m_net st))) (m_land st) →
  acyclic (m_net (mult_body la lb d i st).1)
  ∧ Forall (Forall (valid_wire (m_net (mult_body la lb d i st).1)))
      (m_land (mult_body la lb d i st).1)
  ∧ length (m_land (mult_body la lb d i st).1) = length (m_land st)
  ∧ (∀ d', filled st d' → filled (mult_body la lb d i st).1 d')
  ∧ ((mult_body la lb d i st).2 = Ok () → filled (mult_body la lb d i st).1 d).
Proof.
  intros HC Hland. unfold mult_body.
  destruct (js_get (m_store st !!! la) i) as [ka|]; cbn [mbind option_bind]; [|by auto].
  destruct (m_net st !! ka) as [ga|] eqn:Ega; [|by auto].
  assert (Hka : valid_wire (m_net st) (Some ka)).
  { exists ka. split; [done|]. by eapply lookup_lt_Some. }
  unfold gate. cbv zeta.
  set (C1 := m_net st ++ [(ga.1, [Some ka])]).
  assert (HC1 : acyclic C1) by (apply acyclic_snoc; [done|by repeat constructor]).
  assert (Hland1 : Forall (Forall (valid_wire C1)) (m_land st)).
  { eapply Forall_impl; [exact Hland|]. intros c. apply Forall_valid_wire_app. }
  destruct (js_get (m_store st !!! lb) (d - i)) as [kb|]; cbn [mbind option_bind];
    [|by auto].
  destruct (C1 !! kb) as [gb|] eqn:Egb; [|by auto].
  assert (Hkb : valid_wire C1 (Some kb)).
  { exists kb. split; [done|]. by eapply lookup_lt_Some. }
  set (C2 := C1 ++ [(gb.1, [Some kb])]).
  assert (HC2 : acyclic C2) by (apply acyclic_snoc; [done|by repeat constructor]).
  assert (Hland2 : Forall (Forall (valid_wire C2)) (m_land st)).
  { eapply Forall_impl; [exact Hland1|]. intros c. apply Forall_valid_wire_app. }
  destruct (m_land st !! d) as [col|] eqn:Ecol; cbn [fst snd m_net m_land]; [|by auto].
  set (C3 := C2 ++ [("and", [Some (length (m_net st)); Some (length C1)])]).
  assert (Hp : valid_wire C3 (Some (length C2))).
  { exists (length C2). split; [done|]. unfold C3. rewrite length_app. simpl. lia. }
  split_and!.
  - apply acyclic_snoc; [done|]. cbn [snd].
    repeat constructor; eexists; (split; [done|]); unfold C2, C1;
      rewrite !length_app; simpl; lia.
  - apply Forall_insert.
    + eapply Forall_impl; [exact Hland2|]. intros c. apply Forall_valid_wire_app.
    + apply Forall_app. split; [|by repeat constructor].
      apply Forall_valid_wire_app. by eapply (Forall_lookup_1 _ (m_land st)).
  - by rewrite length_insert.
  - intros d' Hd'. by apply filled_insert.
  - intros _. unfold filled. cbn [m_land].
    rewrite list_lookup_insert_eq by (by eapply lookup_lt_Some).
    eexists. split; [done|]. by destruct col.
Qed.

Lemma for_each_struct {S : Type} (P : S → Prop) (F : S → nat → Prop) (Pok : nat → Prop)
    body idxs (st : S) :
  (∀ i st, P st →
     P (body i st).1
     ∧ (∀ d, F st d → F (body i st).1 d)
     ∧ ((body i st).2 = Ok () → Pok i → F (body i st).1 i)) →
  P st →
  P (for_each idxs body st).1
  ∧ (∀ d, F st d → F (for_each idxs body st).1 d)
  ∧ ((for_each idxs body st).2 = Ok () →
     ∀ i, i ∈ idxs → Pok i → F (for_each idxs body st).1 i).
Proof.
  intros Hbody. revert st. induction idxs as [|i idxs IH]; intros st HP.
  - simpl. split_and!; [done..|]. intros _ i Hi. by apply elem_of_nil in Hi.
  - simpl. destruct (Hbody i st HP) as (HP1 & Hmono1 & Hok1).
    destruct (body i st) as [st1 [[]|msg]]; cbn [fst snd] in *.
    + destruct (IH st1 HP1) as (HP2 & Hmono2 & Hok2). split_and!; [done|by auto|].
      intros Hok j [->|Hj]%elem_of_cons Hj'; [by auto|by apply Hok2].
    + split_and!; [done..|]. intros [=].
Qed.

Lemma mult_row_struct la lb na nb d st :
  acyclic (m_net st) →
  Forall (Forall (valid_wire (m_net st))) (m_land st) →
  acyclic (m_net (mult_row la lb na nb d st).1)
  ∧ Forall (Forall (valid_wire (m_net (mult_row la lb na nb d st).1)))
      (m_land (mult_row la lb na nb d st).1)
  ∧ length (m_land (mult_row la lb na nb d st).1) = length (m_land st)
  ∧ (∀ d', filled st d' → filled (mult_row la lb na nb d st).1 d')
  ∧ ((mult_row la lb na nb d st).2 = Ok () → row_indices na nb d ≠ [] →
     filled (mult_row la lb na nb d st).1 d).
Proof.
  intros HC Hland. unfold mult_row.
  pose proof (for_each_struct
    (λ s, acyclic (m_net s) ∧ Forall (Forall (valid_wire (m_net s))) (m_land s)
          ∧ length (m_land s) = length (m_land st)
          ∧ ∀ d', filled st d' → filled s d')
    (λ s _, filled s d) (λ _, True)
    (mult_body la lb d) (row_indices na nb d) st) as H.
  destruct H as ((H1 & H2 & H3 & H4) & _ & H5).
  - intros i s (Hs1 & Hs2 & Hs3 & Hs4).
    destruct (mult_body_struct la lb d i s Hs1 Hs2) as (B1 & B2 & B3 & B4 & B5).
    split_and!; [done|done|congruence|by auto|by auto|by auto].
  - by auto.
  - split_and!; [done..|]. intros Hok Hrow.
    destruct (row_indices na nb d) as [|i l] eqn:El; [done|].
    apply (H5 Hok i); [by left|done].
Qed.

Lemma mult_loops_struct la lb na nb N st :
  acyclic (m_net st) →
  Forall (Forall (valid_wire (m_net st))) (m_land st) →
  let r := for_each (seq 0 N) (mult_row la lb na nb) st in
  acyclic (m_net r.1)
  ∧ Forall (Forall (valid_wire (m_net r.1))) (m_land r.1)
  ∧ length (m_land r.1) = length (m_land st)
  ∧ (r.2 = Ok () → ∀ d, (d < N)%nat → row_indices na nb d ≠ [] → filled r.1 d).
Proof.
  intros HC Hland r. subst r.
  pose proof (for_each_struct
    (λ s, acyclic (m_net s) ∧ Forall (Forall (valid_wire (m_net s))) (m_land s)
          ∧ length (m_land s) = length (m_land st))
    filled (λ d, row_indices na nb d ≠ [])
    (mult_row la lb na nb) (seq 0 N) st) as H.
  destruct H as ((H1 & H2 & H3) & _ & H5).
  - intros d s (Hs1 & Hs2 & Hs3).
    destruct (mult_row_struct la lb na nb d s Hs1 Hs2) as (B1 & B2 & B3 & B4 & B5).
    split_and!; [done|done|congruence|done|done].
  - by auto.
  - split_and!; [done..|]. intros Hok d Hd Hrow.
    apply H5; [done| |done]. apply elem_of_seq. lia.
Qed.

Lemma for_each_skip {S : Type} body idxs (st : S) :
  (∀ i st, i ∈ idxs → body i st = (st, Ok ())) →
  for_each idxs body st = (st, Ok ()).
Proof.
  induction idxs as [|i idxs IH]; intros H; [done|].
  simpl. rewrite H by (by left). apply IH. intros j st' Hj. apply H. by right.
Qed.

Lemma row_indices_empty na nb d :
  (na = 0 ∨ nb = 0)%nat → row_indices na nb d = [].
Proof.
  intros H. unfold row_indices.
  replace (na `min` (d + 1) - (d + 1 - nb))%nat with 0%nat by lia. done.
Qed.

Lemma row_indices_nonempty na nb d :
  (1 ≤ na)%nat → (1 ≤ nb)%nat → (d < na + nb - 1)%nat → row_indices na nb d ≠ [].
Proof.
  intros Hna Hnb Hd Hrow.
  assert ((d + 1 - nb)%nat ∈ row_indices na nb d) as Hin
    by (apply elem_of_row_indices; lia).
  rewrite Hrow in Hin. by apply elem_of_nil in Hin.
Qed.

Lemma idle_replicate N : idle (replicate N []).
Proof. exists [], N. split; [done|constructor]. Qed.

Lemma multiplier_acyclic C bits_a bits_b :
  acyclic C → acyclic (run_call C (CallMultiplier bits_a bits_b)).1.
Proof.
  intros HC. unfold run_call, multiplier, alloc.
  change ([bits_a; bits_b] !!! 0%nat) with bits_a.
  change ([bits_a; bits_b] !!! 1%nat) with bits_b.
  change (([bits_a; bits_b] ++ [bits_a]) !!! 1%nat) with bits_b.
  set (na := length bits_a). set (nb := length bits_b).
  set (st0 := MState C _ _).
  destruct (decide (na = 0 ∨ nb = 0)%nat) as [Hz|Hnz].
  - rewrite for_each_skip.
    2:{ intros d st _. unfold mult_row. by rewrite row_indices_empty. }
    cbn [m_net m_land st0].
    destruct (compress C _) as [[C' outs]|] eqn:Erun; simpl; [|done].
    by rewrite (compress_loop_idle _ _ _ _ _ _ (idle_replicate _) Erun).
  - destruct (mult_loops_struct (length [bits_a; bits_b])
                (length ([bits_a; bits_b] ++ [bits_a])) na nb (na + nb - 1) st0)
      as (H1 & H2 & H3 & H4).
    { done. }
    { cbn [m_net m_land st0]. apply Forall_replicate. constructor. }
    destruct (for_each _ _ st0) as [st [[]|msg]]; cbn [fst snd] in *; [|done].
    destruct (compress (m_net st) (m_land st)) as [[C' outs]|] eqn:Erun; simpl; [|done].
    eapply compress_loop_acyclic; [exact H1|exact H2| |exact Erun].
    apply Forall_lookup. intros d col Hcol.
    assert (d < na + nb - 1)%nat as Hd.
    { apply lookup_lt_Some in Hcol. rewrite H3 in Hcol.
      cbn [m_land st0] in Hcol. by rewrite length_replicate in Hcol. }
    destruct (H4 eq_refl d Hd) as (col' & Hcol' & Hne).
    { apply row_indices_nonempty; lia. }
    congruence.
Qed.

(** C6 (as amended): a netlist produced from the empty netlist by calls of
    [inputs], [adder], [popcount] and [multiplier] whose wire arguments are
    indices of gates already in the netlist is acyclic: every operand of
    every gate is the index of an earlier gate. *)
Theorem built_acyclic C : built C → acyclic C.
Proof.
  induction 1 as [|C c _ IH Hargs]; [apply acyclic_nil|].
  destruct c as [name n|bits_a bits_b|bits|bits_a bits_b].
  - by apply inputs_acyclic.
  - by apply adder_acyclic.
  - by apply popcount_acyclic.
  - by apply multiplier_acyclic.
Qed.

Lemma built_acyclic_witness : acyclic adder_2bit.
Proof.
  assert (H0 : built (run_call [] (CallInputs "a" 2)).1)
    by (apply built_call; constructor).
  assert (H1 : built (run_call (run_call [] (CallInputs "a" 2)).1 (CallInputs "b" 2)).1)
    by (apply built_call; [exact H0|constructor]).
  assert (H2 : built (run_call two_by_two
                        (CallAdder [Some 0; Some 1]%nat [Some 2; Some 3]%nat)).1).
  { apply (built_call two_by_two); [exact H1|].
    repeat constructor; eexists; (split; [reflexivity|vm_compute; lia]). }
  exact (built_acyclic _ H2).
Defined.

(** C6, as stated, fails: [popcount] of no bit returns two [undefined]
    entries, and [popcount] of these builds gates whose operands are
    [undefined], not indices of earlier gates. *)
Lemma produced_not_acyclic :
  ¬ (∀ C known, produced C known → acyclic C).
Proof.
  intros H.
  assert (H1 : produced (run_call [] (CallPopcount [])).1
                 ([] ++ (run_call [] (CallPopcount [])).2))
    by (apply produced_call; [constructor|done]).
  assert (H2 : produced (run_call [] (CallPopcount [None; None])).1
                 (([] ++ (run_call [] (CallPopcount [])).2)
                  ++ (run_call [] (CallPopcount [None; None])).2)).
  { apply (produced_call (run_call [] (CallPopcount [])).1); [exact H1|].
    vm_compute. done. }
  specialize (H _ _ H2).
  destruct (H 0%nat ("xor", [None; None]) None) as (k & Hk & _); [done|by left|done].
Qed.

(** ** Primary inputs encode every operand value *)

Lemma inputs_eq C name n :
  inputs C name n
  = (C ++ ((λ i, (label name i, [])) <$> seq 0 n),
     (λ i, Some (length C + i)%nat) <$> seq 0 n).
Proof.
  unfold inputs. induction n as [|n IH]; [by rewrite app_nil_r|].
  rewrite seq_S, fold_left_app, IH. simpl. unfold gate.
  rewrite length_app, length_fmap, length_seq, !fmap_app, app_assoc. done.
Qed.

Lemma eval_inputs env C (D : netlist) :
  Forall (λ g : gate_t, g.2 = []) D →
  eval env (C ++ D)
  = eval env C ++ ((λ i, Some (env (length C + i)%nat)) <$> seq 0 (length D)).
Proof.
  induction D as [|g D IH] using rev_ind; intros HD.
  - by rewrite !app_nil_r.
  - apply Forall_app in HD as [HD Hg]. apply Forall_cons in Hg as [Hg _].
    rewrite app_assoc, eval_snoc, IH by done.
    rewrite !length_app, length_fmap, length_seq, eval_length. cbn [length].
    rewrite Nat.add_1_r, seq_S, fmap_app, <- app_assoc. do 2 f_equal.
    unfold gate_val. rewrite Hg. done.
Qed.

Lemma bits_value_testbit vals (ws : list wire) A :
  0 ≤ A < 2 ^ Z.of_nat (length ws) →
  (∀ i w, ws !! i = Some w → wire_val vals w = Some (Z.testbit A (Z.of_nat i))) →
  bits_value vals ws = Some A.
Proof.
  revert A. induction ws as [|w ws IH]; intros A HA Hbits.
  - simpl in *. f_equal. lia.
  - cbn [bits_value]. unfold wire_bit.
    rewrite (Hbits 0%nat w eq_refl). cbn [fmap option_fmap option_map mbind option_bind].
    rewrite (IH (A / 2)).
    + cbn [mbind option_bind]. f_equal. change (Z.of_nat 0) with 0.
      pose proof (Z.bit0_mod A) as Hb. pose proof (Z.div_mod A 2 ltac:(lia)) as Hd.
      change (Z.b2z (Z.testbit A 0)) with (b2z (Z.testbit A 0)) in Hb. lia.
    + cbn [length] in HA. rewrite Nat2Z.inj_succ, Z.pow_succ_r in HA by lia.
      split; [apply Z.div_pos; lia|]. apply Z.div_lt_upper_bound; lia.
    + intros i w' Hw'. rewrite (Hbits (S i) w' Hw').
      by rewrite Z.div2_bits, Nat2Z.inj_succ by lia.
Qed.

(** Every [A] below [2^n] is the value of the [n] wires that [inputs]
    returns, under the assignment that gives input [i] bit [i] of [A]. *)
Lemma inputs_encode env C name n A :
  0 ≤ A < 2 ^ Z.of_nat n →
  (∀ i, (i < n)%nat → env (length C + i)%nat = Z.testbit A (Z.of_nat i)) →
  bits_value (eval env (inputs C name n).1) (inputs C name n).2 = Some A.
Proof.
  intros HA Henv. rewrite inputs_eq. cbn [fst snd].
  apply bits_value_testbit; [by rewrite length_fmap, length_seq|].
  intros i w Hw. apply list_lookup_fmap_Some in Hw as (j & -> & Hj).
  apply lookup_seq in Hj as [-> Hi]. simpl.
  rewrite eval_inputs.
  2:{ apply Forall_forall. by intros g (k & -> & _)%list_elem_of_fmap. }
  rewrite lookup_app_r by (rewrite eval_length; lia).
  rewrite eval_length, length_fmap, length_seq.
  replace (length C + i - length C)%nat with i by lia.
  rewrite list_lookup_fmap, lookup_seq_lt by done. simpl.
  by rewrite Henv.
Qed.

Lemma bits_value_app_net env C D ws v :
  bits_value (eval env C) ws = Some v → bits_value (eval env (C ++ D)) ws = Some v.
Proof.
  rewrite !bits_value_Some. intros [Hws <-]. split.
  - by apply Forall_has_val_app.
  - by apply bitsZ_app_net.
Qed.

Lemma operand_inputs n m A B :
  0 ≤ A < 2 ^ Z.of_nat n → 0 ≤ B < 2 ^ Z.of_nat m →
  let a := inputs [] "a" n in
  let b := inputs a.1 "b" m in
  bits_value (eval (operands_env n A B) b.1) a.2 = Some A
  ∧ bits_value (eval (operands_env n A B) b.1) b.2 = Some B
  ∧ length a.2 = n ∧ length b.2 = m.
Proof.
  intros HA HB a b.
  assert (Hla : length a.1 = n).
  { unfold a. rewrite inputs_eq. cbn [fst]. by rewrite length_app, length_fmap, length_seq. }
  split_and!.
  - unfold b. rewrite (inputs_eq a.1). cbn [fst]. apply bits_value_app_net.
    apply inputs_encode; [done|]. intros i Hi. unfold operands_env. simpl.
    by rewrite (proj2 (Nat.ltb_lt _ _) Hi).
  - apply inputs_encode; [done|]. intros i Hi. unfold operands_env. rewrite Hla.
    rewrite (proj2 (Nat.ltb_ge _ _)) by lia. do 2 f_equal. lia.
  - unfold a. rewrite inputs_eq. cbn [snd]. by rewrite length_fmap, length_seq.
  - unfold b. rewrite inputs_eq. cbn [snd]. by rewrite length_fmap, length_seq.
Qed.

(** From the primary inputs to the sum: every pair of [n]-bit values is
    added exactly. *)
Lemma adder_on_inputs n A B :
  0 ≤ A < 2 ^ Z.of_nat n → 0 ≤ B < 2 ^ Z.of_nat n →
  let a := inputs [] "a" n in
  let b := inputs a.1 "b" n in
  ∃ C' outs, adder b.1 a.2 b.2 = Some (C', Ok outs)
    ∧ bits_value (eval (operands_env n A B) C') outs = Some (A + B).
Proof.
  intros HA HB a b.
  destruct (operand_inputs n n A B HA HB) as (Ha & Hb & Hla & Hlb).
  fold a b in Ha, Hb, Hla, Hlb.
  destruct (adder_correct (operands_env n A B) b.1 a.2 b.2 A B)
    as (D & outs & Hrun & Hval & _); [congruence|done..|].
  by exists (b.1 ++ D), outs.
Qed.

(** From the primary inputs to the product: every pair of an [n]-bit and an
    [m]-bit value is multiplied exactly. *)
Lemma multiplier_on_inputs n m A B :
  (1 ≤ n)%nat → (1 ≤ m)%nat →
  0 ≤ A < 2 ^ Z.of_nat n → 0 ≤ B < 2 ^ Z.of_nat m →
  let a := inputs [] "a" n in
  let b := inputs a.1 "b" m in
  ∃ C' h' outs, multiplier b.1 [a.2; b.2] 0 1 = Some (C', h', Ok outs)
    ∧ bits_value (eval (operands_env n A B) C') outs = Some (A * B).
Proof.
  intros Hn Hm HA HB a b.
  destruct (operand_inputs n m A B HA HB) as (Ha & Hb & Hla & Hlb).
  fold a b in Ha, Hb, Hla, Hlb.
  destruct (bits_value_operand_vals _ _ _ Ha) as (va & Hva & <-).
  destruct (bits_value_operand_vals _ _ _ Hb) as (vb & Hvb & <-).
  pose proof (Forall2_length _ _ _ Hva) as Hlva.
  pose proof (Forall2_length _ _ _ Hvb) as Hlvb.
  destruct (multiplier_run (operands_env n (lsb_value va) (lsb_value vb))
              b.1 [a.2; b.2] 0 1 a.2 b.2 va vb)
    as (st & D & outs & _ & _ & Hmul & Hval); [done|done|lia|lia|done|done|].
  by exists (m_net st ++ D), (m_store st), outs.
Qed.

(** ** The values as weighted sums

    [bits_value] and [cols_value] are written in Horner form; spelled out,
    output bit [i] and every wire of column [i] weigh [2^i]. *)

Lemma bitsZ_weighted vals (ws : list wire) :
  bitsZ vals ws
  = sumZ (λ i, 2 ^ Z.of_nat i * bitZ vals (js_get ws i)) (seq 0 (length ws)).
Proof.
  induction ws as [|w ws IH]; [done|].
  cbn [bitsZ length seq sumZ]. rewrite <- fmap_S_seq, sumZ_fmap.
  rewrite (sumZ_ext _ (λ i, 2 * (2 ^ Z.of_nat i * bitZ vals (js_get ws i)))).
  - rewrite sumZ_scale_l, <- IH. change (js_get (w :: ws) 0) with w. simpl. lia.
  - intros i. rewrite js_get_cons, Nat2Z.inj_succ, Z.pow_succ_r by lia. lia.
Qed.

Lemma colsZ_weighted vals (bits : list (list wire)) :
  colsZ vals bits
  = sumZ (λ w, 2 ^ Z.of_nat w * colZ vals (bits !!! w)) (seq 0 (length bits)).
Proof.
  induction bits as [|col rest IH]; [done|].
  cbn [colsZ length seq sumZ]. rewrite <- fmap_S_seq, sumZ_fmap.
  rewrite (sumZ_ext _ (λ w, 2 * (2 ^ Z.of_nat w * colZ vals (rest !!! w)))).
  - rewrite sumZ_scale_l, <- IH. change ((col :: rest) !!! 0%nat) with col. simpl. lia.
  - intros w. change ((col :: rest) !!! S w) with (rest !!! w).
    rewrite Nat2Z.inj_succ, Z.pow_succ_r by lia. lia.
Qed.

(** * Further properties of the builders *)

(** ** Input allocation *)

(** X1: [inputs] leaves the gates of the netlist as they are, appends [n]
    gates without operands labelled [name0 .. name(n-1)], and returns their
    indices, in order. *)
Theorem inputs_spec C name n :
  (inputs C name n).1 = C ++ ((λ i, (label name i, [])) <$> seq 0 n)
  ∧ length (inputs C name n).2 = n
  ∧ ∀ i, (i < n)%nat →
      (inputs C name n).2 !! i = Some (Some (length C + i)%nat)
      ∧ (inputs C name n).1 !! (length C + i)%nat = Some (label name i, []).
Proof.
  rewrite inputs_eq. cbn [fst snd]. split_and!; [done|by rewrite length_fmap, length_seq|].
  intros i Hi. split.
  - by rewrite list_lookup_fmap, lookup_seq_lt.
  - rewrite lookup_app_r, list_lookup_fmap by lia.
    replace (length C + i - length C)%nat with i by lia.
    by rewrite lookup_seq_lt.
Qed.

Lemma count_xaig_app (C D : netlist) : count_xaig (C ++ D) = (count_xaig C + count_xaig D)%nat.
Proof. unfold count_xaig. by rewrite filter_app, length_app. Qed.

Lemma count_aig_app (C D : netlist) : count_aig (C ++ D) = (count_aig C + count_aig D)%nat.
Proof. rewrite !count_aig_unfold, filter_app, sum_list_with_app. done. Qed.

Lemma count_free (D : netlist) :
  Forall (λ g, (operands g < 2)%nat) D → count_xaig D = 0%nat ∧ count_aig D = 0%nat.
Proof.
  intros HD. rewrite count_aig_unfold. unfold count_xaig.
  assert (filter (λ g : gate_t, (3 ≤ js_length g)%nat) D = []) as ->; [|done].
  induction HD as [|g D Hg _ IH]; [done|].
  rewrite filter_cons, IH. unfold js_length, operands in *. case_decide; [lia|done].
Qed.

(** X2: primary inputs are free: [inputs] changes neither cost metric. *)
Theorem inputs_free C name n :
  count_xaig (inputs C name n).1 = count_xaig C
  ∧ count_aig (inputs C name n).1 = count_aig C.
Proof.
  rewrite inputs_eq. cbn [fst]. rewrite count_xaig_app, count_aig_app.
  destruct (count_free ((λ i, (label name i, [])) <$> seq 0 n)) as [-> ->]; [|lia].
  apply Forall_fmap, Forall_forall. intros i _. unfold operands. simpl. lia.
Qed.

(** ** The compressor on arbitrary columns *)

Lemma compress_loop_fuel fuel fuel' C bits outs r :
  compress_loop fuel C bits outs = Some r → (fuel ≤ fuel')%nat →
  compress_loop fuel' C bits outs = Some r.
Proof.
  revert fuel' C bits outs. induction fuel as [|fuel IH]; intros fuel' C bits outs; [done|].
  intros Hrun Hle. destruct fuel' as [|fuel']; [lia|]. simpl in *.
  destruct (compress_step C bits outs) as [[[C1 bits1] outs1]|]; [|done].
  apply IH; [done|lia].
Qed.

Lemma adder_gate_half x y :
  Forall adder_gate [("xor", [x; y]); ("and", [x; y])].
Proof. repeat (apply Forall_cons_2; [split; [done|auto]|]). apply Forall_nil_2. Qed.

Lemma compress_step_appends C bits outs C' bits' outs' :
  compress_step C bits outs = Some (C', bits', outs') →
  ∃ D, C' = C ++ D ∧ Forall adder_gate D.
Proof.
  unfold compress_step. destruct bits as [|col rest]; [done|].
  destruct col as [|x [|y [|z col']]].
  - rewrite compress_step_carry. intros [= <- <- <-]. exists []. by rewrite app_nil_r.
  - intros [= <- <- <-]. exists []. by rewrite app_nil_r.
  - rewrite halfadder_eq, compress_step_carry. intros [= <- <- <-].
    eexists. split; [done|]. apply adder_gate_half.
  - rewrite fulladder_eq, compress_step_carry. intros [= <- <- <-].
    eexists. split; [done|].
    repeat (apply Forall_cons_2; [split; [done|auto]|]). apply Forall_nil_2.
Qed.

Lemma compress_loop_appends fuel C bits outs C' outs' :
  compress_loop fuel C bits outs = Some (C', outs') →
  ∃ D, C' = C ++ D ∧ Forall adder_gate D.
Proof.
  revert C bits outs. induction fuel as [|fuel IH]; intros C bits outs; [done|].
  simpl. destruct (compress_step C bits outs) as [[[C1 bits1] outs1]|] eqn:Estep.
  - intros Hloop.
    destruct (compress_step_appends _ _ _ _ _ _ Estep) as (D1 & -> & HD1).
    destruct (IH _ _ _ Hloop) as (D2 & -> & HD2).
    exists (D1 ++ D2). rewrite app_assoc. split; [done|]. by apply Forall_app.
  - intros [= <- <-]. exists []. by rewrite app_nil_r.
Qed.

(** X4: whatever columns it is given, [compress] only appends to the
    netlist, and every gate it appends is a two-operand XOR, AND or OR: it
    never appends an input or a duplicate and never touches an existing
    gate. *)
Theorem compress_appends C bits C' outs :
  compress C bits = Some (C', outs) →
  ∃ D, C' = C ++ D ∧ Forall adder_gate D.
Proof. apply compress_loop_appends. Qed.

Lemma compress_appends_witness :
  ∃ D, adder_2bit = two_by_two ++ D ∧ Forall adder_gate D.
Proof.
  apply (compress_appends two_by_two [[Some 0; Some 2]; [Some 1; Some 3]]%nat
           adder_2bit [Some 4; Some 8; Some 10]%nat).
  vm_compute. reflexivity.
Defined.

Lemma out_count_ge cin shape : (length shape ≤ out_count cin shape)%nat.
Proof.
  revert cin. induction shape as [|k rest IH]; intros cin; [simpl; lia|].
  rewrite out_count_cons. specialize (IH ((k + cin) / 2)%nat). simpl length. lia.
Qed.

(** ** Cost of the compressor *)

Section cost.
Context (μ : netlist → nat) (fa ha : nat).
Hypothesis μ_app : ∀ C D, μ (C ++ D) = (μ C + μ D)%nat.
Hypothesis μ_half : ∀ x y, μ [("xor", [x; y]); ("and", [x; y])] = ha.
Hypothesis μ_full : ∀ x y z s c1 c2,
  μ [("xor", [x; y]); ("and", [x; y]); ("xor", [s; z]); ("and", [s; z]);
     ("or", [c1; c2])] = fa.

Lemma tail_cost_aux_enough fuel cin :
  (cin ≤ fuel)%nat → tail_cost_aux fuel fa ha cin = tail_cost fa ha cin.
Proof.
  unfold tail_cost. revert cin.
  induction fuel as [fuel IH] using lt_wf_ind. intros cin Hle.
  destruct cin as [|cin]; [by destruct fuel|].
  destruct fuel as [|fuel]; [lia|]. cbn [tail_cost_aux]. f_equal.
  assert (S cin / 2 < S cin)%nat as Hhalf by (apply Nat.Div0.div_lt_upper_bound; lia).
  rewrite (IH fuel) by lia. rewrite (IH cin) by lia. done.
Qed.

Lemma tail_cost_unfold cin :
  tail_cost fa ha (S cin) = (col_cost fa ha (S cin) + tail_cost fa ha (S cin / 2))%nat.
Proof.
  unfold tail_cost at 1. cbn [tail_cost_aux]. f_equal.
  apply tail_cost_aux_enough.
  assert (S cin / 2 < S cin)%nat by (apply Nat.Div0.div_lt_upper_bound; lia). lia.
Qed.

Lemma cost_pred_cons cin k rest :
  cost_pred fa ha cin (k :: rest)
  = (col_cost fa ha (k + cin) + cost_pred fa ha ((k + cin) / 2) rest)%nat.
Proof. done. Qed.

Lemma cost_pred_push_carry rest c cin :
  cost_pred fa ha cin (length <$> push_carry rest c)
  = cost_pred fa ha (S cin) (length <$> rest).
Proof.
  destruct rest as [|col1 rest']; cbn [push_carry fmap list_fmap].
  - rewrite cost_pred_cons. cbn [cost_pred length]. by rewrite tail_cost_unfold.
  - rewrite !cost_pred_cons, length_app. cbn [length].
    by replace (length col1 + 1 + cin)%nat with (length col1 + S cin)%nat by lia.
Qed.

Lemma col_cost_1 : col_cost fa ha 1 = 0%nat.
Proof. unfold col_cost. simpl. lia. Qed.

Lemma col_cost_2 : col_cost fa ha 2 = ha.
Proof. unfold col_cost. simpl. lia. Qed.

Lemma col_cost_step m : col_cost fa ha (m + 3) = (fa + col_cost fa ha (m + 1))%nat.
Proof.
  unfold col_cost.
  replace (m + 3 - 1)%nat with (m + 2)%nat by lia.
  replace (m + 1 - 1)%nat with m by lia.
  rewrite half_succ_succ.
  replace (m + 3)%nat with (S (S (m + 1))) by lia. rewrite Nat.even_succ_succ.
  destruct (Nat.even (m + 1)) eqn:Ev; simpl.
  - destruct m as [|m]; [done|]. replace (S m + 1)%nat with (S (S m)) by lia. simpl. lia.
  - lia.
Qed.

Lemma compress_step_cost C bits outs C' bits' outs' :
  Forall (λ col : list wire, col ≠ []) bits →
  compress_step C bits outs = Some (C', bits', outs') →
  (μ C' + cost_pred fa ha 0 (length <$> bits')
   = μ C + cost_pred fa ha 0 (length <$> bits))%nat.
Proof.
  intros Hne. unfold compress_step. destruct bits as [|col rest]; [done|].
  apply Forall_cons in Hne as [Hcol Hne].
  destruct col as [|x [|y [|z col']]]; [done| | |].
  - intros [= <- <- <-]. rewrite fmap_cons, cost_pred_cons. cbn [length].
    change ((1 + 0) / 2)%nat with 0%nat. change (1 + 0)%nat with 1%nat.
    rewrite col_cost_1. lia.
  - rewrite halfadder_eq, compress_step_carry. intros [= <- <- <-].
    rewrite μ_app, μ_half, !fmap_cons, !cost_pred_cons, cost_pred_push_carry.
    cbn [length app]. change ((1 + 0) / 2)%nat with 0%nat.
    change ((2 + 0) / 2)%nat with 1%nat. change (1 + 0)%nat with 1%nat.
    change (2 + 0)%nat with 2%nat. rewrite col_cost_1, col_cost_2. lia.
  - rewrite fulladder_eq, compress_step_carry. intros [= <- <- <-].
    rewrite μ_app, μ_full, !fmap_cons, !cost_pred_cons, cost_pred_push_carry.
    rewrite length_app. cbn [length].
    replace (S (S (S (length col'))) + 0)%nat with (length col' + 3)%nat by lia.
    replace (length col' + 1 + 0)%nat with (length col' + 1)%nat by lia.
    rewrite col_cost_step.
    replace (length col' + 3)%nat with ((length col' + 1) + 2)%nat by lia.
    rewrite half_succ_succ. lia.
Qed.

Lemma compress_loop_cost fuel C bits outs C' outs' :
  Forall (λ col : list wire, col ≠ []) bits →
  compress_loop fuel C bits outs = Some (C', outs') →
  μ C' = (μ C + cost_pred fa ha 0 (length <$> bits))%nat.
Proof.
  revert C bits outs. induction fuel as [|fuel IH]; intros C bits outs Hne; [done|].
  simpl. destruct (compress_step C bits outs) as [[[C1 bits1] outs1]|] eqn:Estep.
  - intros Hloop.
    pose proof (compress_step_cost _ _ _ _ _ _ Hne Estep) as Hcost.
    destruct (compress_step_count _ _ _ _ _ _ Hne Estep) as [Hne1 _].
    rewrite (IH _ _ _ Hne1 Hloop). lia.
  - intros [= <- <-].
    destruct bits as [|col rest]; [simpl; unfold tail_cost; simpl; lia|].
    unfold compress_step in Estep.
    destruct col as [|x [|y [|z col']]]; [| done | |].
    + by destruct rest.
    + destruct (halfadder C x y) as [? [? ?]]. by destruct rest.
    + destruct (fulladder C x y z) as [? [? ?]]. by destruct rest.
Qed.

Lemma cost_pred_pairs k : cost_pred fa ha 1 (replicate k 2%nat) = (k * fa)%nat.
Proof.
  induction k as [|k IH].
  { cbn [replicate cost_pred]. by rewrite tail_cost_unfold, col_cost_1. }
  cbn [replicate]. rewrite cost_pred_cons. change ((2 + 1) / 2)%nat with 1%nat.
  rewrite IH. change (2 + 1)%nat with (0 + 3)%nat. rewrite col_cost_step.
  change (0 + 1)%nat with 1%nat. rewrite col_cost_1. lia.
Qed.
End cost.

Lemma count_xaig_cost_half x y : count_xaig [("xor", [x; y]); ("and", [x; y])] = 2%nat.
Proof. done. Qed.

Lemma count_aig_cost_half x y : count_aig [("xor", [x; y]); ("and", [x; y])] = 4%nat.
Proof. done. Qed.

Lemma count_xaig_cost_full x y z s c1 c2 :
  count_xaig [("xor", [x; y]); ("and", [x; y]); ("xor", [s; z]); ("and", [s; z]);
              ("or", [c1; c2])] = 5%nat.
Proof. done. Qed.

Lemma count_aig_cost_full x y z s c1 c2 :
  count_aig [("xor", [x; y]); ("and", [x; y]); ("xor", [s; z]); ("and", [s; z]);
             ("or", [c1; c2])] = 9%nat.
Proof. done. Qed.

Lemma compress_cost_sizes C bits C' outs :
  Forall (λ col : list wire, col ≠ []) bits →
  compress C bits = Some (C', outs) →
  count_xaig C' = (count_xaig C + cost_pred 5 2 0 (length <$> bits))%nat
  ∧ count_aig C' = (count_aig C + cost_pred 9 4 0 (length <$> bits))%nat.
Proof.
  intros Hne Hrun. split.
  - eapply (compress_loop_cost count_xaig 5 2); [apply count_xaig_app| | |done|exact Hrun].
    + apply count_xaig_cost_half.
    + apply count_xaig_cost_full.
  - eapply (compress_loop_cost count_aig 9 4); [apply count_aig_app| | |done|exact Hrun].
    + apply count_aig_cost_half.
    + apply count_aig_cost_full.
Qed.

Lemma adder_columns_shape (bits_a bits_b : list wire) :
  length bits_a = length bits_b →
  let land := imap (λ i a, [a; js_get bits_b i]) bits_a in
  Forall (λ col : list wire, col ≠ []) land
  ∧ length <$> land = replicate (length bits_a) 2%nat.
Proof.
  revert bits_b. induction bits_a as [|a as' IH]; intros [|b bs] Hlen; try done.
  destruct (IH bs ltac:(simpl in Hlen; lia)) as (IH1 & IH2).
  cbv zeta. rewrite adder_columns_cons. split.
  - by constructor.
  - rewrite fmap_cons, IH2. done.
Qed.

(** X7: an adder of two [n]-bit operands, [n ≥ 1], is one half adder and
    [n - 1] full adders: it adds [5n - 3] to the XAIG metric and [9n - 5]
    to the AIG metric, whatever the operand wires are. *)
Theorem adder_cost C bits_a bits_b n :
  length bits_a = n → length bits_b = n → (1 ≤ n)%nat →
  ∃ C' outs, adder C bits_a bits_b = Some (C', Ok outs)
    ∧ (count_xaig C' + 3 = count_xaig C + 5 * n)%nat
    ∧ (count_aig C' + 5 = count_aig C + 9 * n)%nat.
Proof.
  intros Hla Hlb Hn.
  destruct (adder_columns_shape bits_a bits_b ltac:(congruence)) as [Hne Hshape].
  unfold adder. rewrite decide_False by (intros H; apply H; congruence).
  set (land := imap (λ i a, [a; js_get bits_b i]) bits_a) in *.
  destruct (compress_total C land) as [[C' outs] Hrun]. rewrite Hrun.
  exists C', outs. split; [done|].
  destruct (compress_cost_sizes _ _ _ _ Hne Hrun) as [-> ->].
  rewrite Hshape, Hla. destruct n as [|k]; [lia|].
  cbn [replicate]. rewrite !cost_pred_cons. change ((2 + 0) / 2)%nat with 1%nat.
  rewrite !cost_pred_pairs. change (2 + 0)%nat with 2%nat. rewrite !col_cost_2. lia.
Qed.

Lemma adder_cost_witness :
  ∃ C' outs, adder two_by_two [Some 0; Some 1]%nat [Some 2; Some 3]%nat = Some (C', Ok outs)
    ∧ (count_xaig C' + 3 = count_xaig two_by_two + 5 * 2)%nat
    ∧ (count_aig C' + 5 = count_aig two_by_two + 9 * 2)%nat.
Proof.
  assert (Hn : (1 ≤ 2)%nat) by lia.
  exact (adder_cost two_by_two [Some 0; Some 1]%nat [Some 2; Some 3]%nat 2
           eq_refl eq_refl Hn).
Defined.

(** ** Composing the operators *)

Lemma compress_step_valid C bits outs C' bits' outs' :
  Forall (Forall (valid_wire C)) bits →
  Forall (valid_wire C) outs →
  compress_step C bits outs = Some (C', bits', outs') →
  Forall (valid_wire C') outs'.
Proof.
  intros Hval Houts Hstep.
  destruct (compress_step_appends _ _ _ _ _ _ Hstep) as (D & -> & _).
  unfold compress_step in Hstep. destruct bits as [|col rest]; [done|].
  apply Forall_cons in Hval as [Hvcol _].
  destruct col as [|x [|y [|z col']]].
  - rewrite compress_step_carry in Hstep. injection Hstep as _ _ <-.
    by apply Forall_valid_wire_app.
  - injection Hstep as _ _ <-. apply Forall_valid_wire_app.
    apply Forall_app. split; [done|]. apply Forall_cons in Hvcol as [Hx _].
    by repeat constructor.
  - destruct (halfadder C x y) as [C1 [s c]].
    rewrite compress_step_carry in Hstep. injection Hstep as _ _ <-.
    by apply Forall_valid_wire_app.
  - destruct (fulladder C x y z) as [C1 [s c]].
    rewrite compress_step_carry in Hstep. injection Hstep as _ _ <-.
    by apply Forall_valid_wire_app.
Qed.

Lemma compress_loop_valid fuel C bits outs C' outs' :
  acyclic C →
  Forall (Forall (valid_wire C)) bits →
  Forall (λ col : list wire, col ≠ []) bits →
  Forall (valid_wire C) outs →
  compress_loop fuel C bits outs = Some (C', outs') →
  acyclic C' ∧ Forall (valid_wire C') outs'.
Proof.
  revert C bits outs. induction fuel as [|fuel IH]; intros C bits outs HC Hval Hne Houts;
    [done|].
  simpl. destruct (compress_step C bits outs) as [[[C1 bits1] outs1]|] eqn:Estep.
  - destruct (compress_step_acyclic _ _ _ _ _ _ HC Hval Hne Estep) as (HC1 & Hval1 & Hne1).
    pose proof (compress_step_valid _ _ _ _ _ _ Hval Houts Estep) as Houts1.
    by apply IH.
  - by intros [= <- <-].
Qed.

Lemma inputs_valid C name n : Forall (valid_wire (inputs C name n).1) (inputs C name n).2.
Proof.
  rewrite inputs_eq. cbn [fst snd]. apply Forall_fmap, Forall_forall.
  intros i Hi%elem_of_seq. exists (length C + i)%nat. split; [done|].
  rewrite length_app, length_fmap, length_seq. lia.
Qed.

Lemma multiplier_valid C bits_a bits_b :
  acyclic C → bits_a ≠ [] → bits_b ≠ [] →
  acyclic (run_call C (CallMultiplier bits_a bits_b)).1
  ∧ Forall (valid_wire (run_call C (CallMultiplier bits_a bits_b)).1)
      (run_call C (CallMultiplier bits_a bits_b)).2.
Proof.
  intros HC Ha Hb. unfold run_call, multiplier, alloc.
  change ([bits_a; bits_b] !!! 0%nat) with bits_a.
  change ([bits_a; bits_b] !!! 1%nat) with bits_b.
  change (([bits_a; bits_b] ++ [bits_a]) !!! 1%nat) with bits_b.
  set (na := length bits_a). set (nb := length bits_b).
  assert (1 ≤ na)%nat by (unfold na; destruct bits_a; simpl; [done|lia]).
  assert (1 ≤ nb)%nat by (unfold nb; destruct bits_b; simpl; [done|lia]).
  set (st0 := MState C _ _).
  destruct (mult_loops_struct (length [bits_a; bits_b])
              (length ([bits_a; bits_b] ++ [bits_a])) na nb (na + nb - 1) st0)
    as (H1 & H2 & H3 & H4).
  { done. }
  { cbn [m_net m_land st0]. apply Forall_replicate. constructor. }
  destruct (for_each _ _ st0) as [st [[]|msg]]; cbn [fst snd] in *; [|by split].
  destruct (compress (m_net st) (m_land st)) as [[C' outs]|] eqn:Erun; simpl;
    [|by split].
  eapply compress_loop_valid; [exact H1|exact H2| |constructor|exact Erun].
  apply Forall_lookup. intros d col Hcol.
  assert (d < na + nb - 1)%nat as Hd.
  { apply lookup_lt_Some in Hcol. rewrite H3 in Hcol.
    cbn [m_land st0] in Hcol. by rewrite length_replicate in Hcol. }
  destruct (H4 eq_refl d Hd) as (col' & Hcol' & Hne).
  { apply row_indices_nonempty; lia. }
  congruence.
Qed.

(** X8: called on an acyclic netlist with wires of that netlist, and with
    no empty operand for [popcount] and [multiplier], every operator leaves
    an acyclic netlist and returns wires of it: what one call returns can be
    given to the next. *)
Theorem operators_compose C c :
  acyclic C → Forall (valid_wire C) (call_args c) → call_nonempty c →
  acyclic (run_call C c).1
  ∧ Forall (valid_wire (run_call C c).1) (run_call C c).2.
Proof.
  intros HC Hargs Hne. destruct c as [name n|bits_a bits_b|bits|bits_a bits_b].
  - split; [by apply inputs_acyclic|apply inputs_valid].
  - apply Forall_app in Hargs as [Ha Hb]. unfold run_call, adder.
    case_decide as Hlen; [by split|].
    assert (length bits_a = length bits_b) as Hlen' by lia.
    destruct (adder_columns_valid C bits_a bits_b Hlen' Ha Hb) as [Hval Hcols].
    destruct (compress C _) as [[C' outs]|] eqn:Erun; simpl; [|by split].
    eapply compress_loop_valid; [done|exact Hval|exact Hcols|constructor|exact Erun].
  - unfold run_call, popcount.
    destruct (compress C [bits]) as [[C' outs]|] eqn:Erun; simpl; [|by split].
    eapply compress_loop_valid; [done| | |constructor|exact Erun]; by constructor.
  - destruct Hne as [Ha Hb]. by apply multiplier_valid.
Qed.

Lemma operators_compose_witness :
  acyclic adder_2bit ∧ Forall (valid_wire adder_2bit) [Some 4; Some 8; Some 10]%nat.
Proof.
  assert (H0 : acyclic two_by_two).
  { apply (inputs_acyclic _ "b" 2), (inputs_acyclic _ "a" 2), acyclic_nil. }
  assert (Hargs : Forall (valid_wire two_by_two)
            (call_args (CallAdder [Some 0; Some 1]%nat [Some 2; Some 3]%nat))).
  { repeat constructor; eexists; (split; [reflexivity|vm_compute; lia]). }
  exact (operators_compose two_by_two
           (CallAdder [Some 0; Some 1]%nat [Some 2; Some 3]%nat) H0 Hargs I).
Defined.

(** ** The netlist only grows *)

Lemma mult_body_grows C0 la lb d i st :
  (∃ D, m_net st = C0 ++ D) → ∃ D, m_net (mult_body la lb d i st).1 = C0 ++ D.
Proof.
  intros [D HD]. unfold mult_body, gate. cbv zeta.
  repeat case_match; cbn [fst m_net]; rewrite ?HD, <- ?app_assoc; eauto.
Qed.

(** X9: no call of a public operator, with whatever arguments and whether
    it returns or throws, removes or changes a gate: the netlist it leaves
    is the one it was given followed by new gates. *)
Theorem operators_append_only C c : ∃ D, (run_call C c).1 = C ++ D.
Proof.
  destruct c as [name n|bits_a bits_b|bits|bits_a bits_b]; unfold run_call.
  - rewrite inputs_eq. eauto.
  - unfold adder. case_decide; [exists []; by rewrite app_nil_r|].
    destruct (compress C _) as [[C' outs]|] eqn:Erun; simpl.
    + destruct (compress_loop_appends _ _ _ _ _ _ Erun) as (D & -> & _). eauto.
    + exists []. by rewrite app_nil_r.
  - unfold popcount. destruct (compress C [bits]) as [[C' outs]|] eqn:Erun; simpl.
    + destruct (compress_loop_appends _ _ _ _ _ _ Erun) as (D & -> & _). eauto.
    + exists []. by rewrite app_nil_r.
  - unfold multiplier, alloc.
    set (st0 := MState C _ _).
    pose proof (for_each_preserves (λ st, ∃ D, m_net st = C ++ D)
                  (mult_row (length [bits_a; bits_b])
                     (length ([bits_a; bits_b] ++ [[bits_a; bits_b] !!! 0%nat]))
                     (length ([bits_a; bits_b] !!! 0%nat))
                     (length ([bits_a; bits_b] !!! 1%nat)))
                  (seq 0 (length ([bits_a; bits_b] !!! 0%nat)
                          + length ([bits_a; bits_b] !!! 1%nat) - 1)) st0) as Hinv.
    destruct Hinv as [D HD].
    { exists []. by rewrite app_nil_r. }
    { intros d st Hst. unfold mult_row.
      apply (for_each_preserves (λ st, ∃ D, m_net st = C ++ D)); [done|].
      intros i st' Hst'. by apply mult_body_grows. }
    destruct (for_each _ _ st0) as [st [[]|msg]]; cbn [fst] in HD.
    + destruct (compress (m_net st) (m_land st)) as [[C' outs]|] eqn:Erun; simpl.
      * destruct (compress_loop_appends _ _ _ _ _ _ Erun) as (D' & -> & _).
        rewrite HD, <- app_assoc. eauto.
      * exists []. by rewrite app_nil_r.
    + simpl. eauto.
Qed.

(** X10: two adders in a row on one netlist add three operands: the [n + 1]
    output wires of the first adder and a third operand of [n + 1] bits
    give [A + B + C] on [n + 2] bits. *)
Theorem adder_chain env C bits_a bits_b bits_c n A B Cv :
  length bits_a = n → length bits_b = n → length bits_c = S n → (1 ≤ n)%nat →
  bits_value (eval env C) bits_a = Some A →
  bits_value (eval env C) bits_b = Some B →
  bits_value (eval env C) bits_c = Some Cv →
  ∃ C1 sum C2 outs,
    adder C bits_a bits_b = Some (C1, Ok sum)
    ∧ adder C1 sum bits_c = Some (C2, Ok outs)
    ∧ bits_value (eval env C2) outs = Some (A + B + Cv)
    ∧ length outs = (n + 2)%nat.
Proof.
  intros Hla Hlb Hlc Hn HA HB HC.
  destruct (adder_correct env C bits_a bits_b A B) as (D1 & sum & Hrun1 & Hval1 & Hlen1);
    [congruence|done..|].
  rewrite Hla in Hlen1. destruct n as [|k]; [lia|].
  destruct (adder_correct env (C ++ D1) sum bits_c (A + B) Cv)
    as (D2 & outs & Hrun2 & Hval2 & Hlen2);
    [congruence|done|by apply bits_value_app_net|].
  exists (C ++ D1), sum, ((C ++ D1) ++ D2), outs. split_and!; [done..|].
  rewrite Hlen2, Hlen1. lia.
Qed.

Lemma adder_chain_witness :
  ∃ C1 sum C2 outs,
    adder seven_inputs [Some 0; Some 1]%nat [Some 2; Some 3]%nat = Some (C1, Ok sum)
    ∧ adder C1 sum [Some 4; Some 5; Some 6]%nat = Some (C2, Ok outs)
    ∧ bits_value (eval all_ones C2) outs = Some 13
    ∧ length outs = 4%nat.
Proof.
  assert (Hn : (1 ≤ 2)%nat) by lia.
  exact (adder_chain all_ones seven_inputs [Some 0; Some 1]%nat [Some 2; Some 3]%nat
           [Some 4; Some 5; Some 6]%nat 2 3 3 7
           eq_refl eq_refl eq_refl Hn eq_refl eq_refl eq_refl).
Defined.

(** ** The multiplier on operands that are not wires of the netlist *)

Lemma row_indices_0 na nb : (1 ≤ na)%nat → (1 ≤ nb)%nat → row_indices na nb 0 = [0%nat].
Proof.
  intros Hna Hnb. unfold row_indices.
  replace (0 + 1 - nb)%nat with 0%nat by lia.
  by replace (na `min` (0 + 1) - 0)%nat with 1%nat by lia.
Qed.

Lemma not_valid_lookup (C : netlist) (w : wire) : ¬ valid_wire C w → w ≫= (C !!.) = None.
Proof.
  intros Hw. destruct w as [k|]; [|done]. simpl.
  apply lookup_ge_None. destruct (decide (k < length C)%nat); [|lia].
  destruct Hw. by exists k.
Qed.

Lemma multiplier_first_pair C (h : store) pa pb a b w v :
  h !! pa = Some (w :: a) → h !! pb = Some (v :: b) →
  ∃ rest land,
    multiplier C h pa pb
    = match
        (let '(st, r) := mult_body (length h) (S (length h)) 0 0
                           (MState C (h ++ [w :: a; v :: b]) land) in
         match r with
         | Ok _ => for_each rest (mult_row (length h) (S (length h))
                                    (length (w :: a)) (length (v :: b))) st
         | _ => (st, r)
         end)
      with
      | (st, Error msg) => Some (m_net st, m_store st, Error msg)
      | (st, Ok _) =>
          '(C', outs) ← compress (m_net st) (m_land st);
          Some (C', m_store st, Ok outs)
      end.
Proof.
  intros Hpa Hpb. unfold multiplier, alloc.
  rewrite (list_lookup_total_correct _ _ _ Hpa).
  rewrite (list_lookup_total_correct _ _ _ Hpb).
  rewrite (list_lookup_total_correct (h ++ [w :: a]) pb (v :: b))
    by (by apply lookup_app_l_Some).
  rewrite length_app. cbn [length]. rewrite <- app_assoc. cbn [app].
  replace (length h + 1)%nat with (S (length h)) by lia.
  replace (S (length a) + S (length b) - 1)%nat with (S (length a + length b)) by lia.
  cbn [seq for_each]. unfold mult_row at 1.
  rewrite row_indices_0 by lia. cbn [for_each].
  exists (seq 1 (length a + length b)), (replicate (S (length a + length b)) []).
  destruct (mult_body _ _ 0 0 _) as [st [[]|msg]]; reflexivity.
Qed.

(** X11: when the first wire of the first operand is not a gate of the
    netlist ([undefined] or out of range), [multiplier] throws on its first
    read [C[a][0]], before any gate is appended. *)
Theorem multiplier_throws_first_operand C (h : store) pa pb a b w v :
  h !! pa = Some (w :: a) → h !! pb = Some (v :: b) →
  ¬ valid_wire C w →
  multiplier C h pa pb = Some (C, h ++ [w :: a; v :: b], Error type_error).
Proof.
  intros Hpa Hpb Hw.
  destruct (multiplier_first_pair C h pa pb a b w v Hpa Hpb) as (rest & land & ->).
  unfold mult_body. cbn [m_net m_store m_land].
  rewrite store_get_a. change (js_get (w :: a) 0) with w.
  by rewrite (not_valid_lookup _ _ Hw).
Qed.

Lemma multiplier_throws_first_operand_witness :
  multiplier two_by_two [[None; Some 1%nat]; [Some 2%nat; Some 3%nat]] 0 1
  = Some (two_by_two,
          [[None; Some 1%nat]; [Some 2%nat; Some 3%nat]]
          ++ [[None; Some 1%nat]; [Some 2%nat; Some 3%nat]],
          Error type_error).
Proof.
  apply (multiplier_throws_first_operand two_by_two
           [[None; Some 1%nat]; [Some 2%nat; Some 3%nat]] 0 1
           [Some 1%nat] [Some 3%nat] None (Some 2%nat)); [reflexivity..|].
  intros (k & Hk & _). discriminate Hk.
Defined.

(** X12: when the first wire of the first operand is gate [k] of the netlist
    and the first wire of the second operand is not a gate of the netlist
    so far, the duplicate of [k] included, [multiplier] throws on
    [C[b][0]] after it has appended that duplicate: the netlist it leaves
    is one gate longer. *)
Theorem multiplier_throws_second_operand C (h : store) pa pb a b k g v :
  h !! pa = Some (Some k :: a) → h !! pb = Some (v :: b) →
  C !! k = Some g →
  ¬ valid_wire (C ++ [(g.1, [Some k])]) v →
  multiplier C h pa pb
  = Some (C ++ [(g.1, [Some k])],
          h ++ [Some (length C) :: a; v :: b], Error type_error).
Proof.
  intros Hpa Hpb Hk Hv.
  destruct (multiplier_first_pair C h pa pb a b (Some k) v Hpa Hpb) as (rest & land & ->).
  unfold mult_body, gate. cbn [m_net m_store m_land].
  rewrite store_get_a, store_get_b. change (js_get (Some k :: a) 0) with (Some k).
  cbn [mbind option_bind]. rewrite Hk. cbv zeta.
  change (js_get (v :: b) (0 - 0)) with v.
  rewrite (not_valid_lookup _ _ Hv), store_set_a. done.
Qed.

Lemma multiplier_throws_second_operand_witness :
  multiplier two_by_two [[Some 0%nat; Some 1%nat]; [Some 9%nat; Some 3%nat]] 0 1
  = Some (two_by_two ++ [("a0", [Some 0%nat])],
          [[Some 0%nat; Some 1%nat]; [Some 9%nat; Some 3%nat]]
          ++ [[Some 4%nat; Some 1%nat]; [Some 9%nat; Some 3%nat]],
          Error type_error).
Proof.
  apply (multiplier_throws_second_operand two_by_two
           [[Some 0%nat; Some 1%nat]; [Some 9%nat; Some 3%nat]] 0 1
           [Some 1%nat] [Some 3%nat] 0 ("a0", []) (Some 9%nat)); [reflexivity..|].
  intros (k & Hk & Hlt). injection Hk as <-. vm_compute in Hlt. lia.
Defined.

(** ** Empty operands *)

Lemma compress_loop_agree fuel1 fuel2 C bits outs r1 r2 :
  compress_loop fuel1 C bits outs = Some r1 →
  compress_loop fuel2 C bits outs = Some r2 → r1 = r2.
Proof.
  intros H1 H2.
  pose proof (compress_loop_fuel _ (fuel1 `max` fuel2) _ _ _ _ H1 ltac:(lia)) as H1'.
  pose proof (compress_loop_fuel _ (fuel1 `max` fuel2) _ _ _ _ H2 ltac:(lia)) as H2'.
  congruence.
Qed.

Lemma half_up_succ_succ N : ((S (S N) + 1) / 2 = S ((N + 1) / 2))%nat.
Proof. replace (S (S N) + 1)%nat with ((N + 1) + 2)%nat by lia. apply half_succ_succ. Qed.

Lemma compress_loop_empties N C outs :
  ∃ fuel, compress_loop fuel C (replicate N []) outs
          = Some (C, outs ++ replicate (2 * ((N + 1) / 2)) None).
Proof.
  revert outs. induction N as [N IH] using lt_wf_ind. intros outs.
  destruct N as [|[|N]].
  - exists 1%nat. simpl. by rewrite app_nil_r.
  - exists 4%nat. simpl. by rewrite <- app_assoc.
  - destruct (IH N ltac:(lia) ((outs ++ [None]) ++ [None])) as [fuel Hrun].
    exists (S (S (S fuel))). cbn [replicate]. simpl compress_loop. rewrite Hrun.
    rewrite half_up_succ_succ.
    replace (2 * S ((N + 1) / 2))%nat with (S (S (2 * ((N + 1) / 2)))) by lia.
    cbn [replicate]. by rewrite <- !app_assoc.
Qed.

Lemma compress_empties N C :
  compress C (replicate N []) = Some (C, replicate (2 * ((N + 1) / 2)) None).
Proof.
  destruct (compress_loop_empties N C []) as [fuel Hrun].
  destruct (compress_total C (replicate N [])) as [r Hr].
  rewrite Hr. f_equal. eapply compress_loop_agree; [exact Hr|exact Hrun].
Qed.

(** X13: with an empty operand, [multiplier] appends no gate and returns no
    product bit: when the other operand has [k] bits it returns
    [2 * ⌈(k - 1) / 2⌉] entries, all [undefined] (none for [k ≤ 1]). *)
Theorem multiplier_empty_operand C (h : store) pa pb a b :
  h !! pa = Some a → h !! pb = Some b →
  a = [] ∨ b = [] →
  multiplier C h pa pb
  = Some (C, h ++ [a; b],
          Ok (replicate (2 * ((length a + length b - 1 + 1) / 2)) None)).
Proof.
  intros Hpa Hpb Hemp. unfold multiplier, alloc.
  rewrite (list_lookup_total_correct _ _ _ Hpa).
  rewrite (list_lookup_total_correct _ _ _ Hpb).
  rewrite (list_lookup_total_correct (h ++ [a]) pb b) by (by apply lookup_app_l_Some).
  rewrite for_each_skip.
  2:{ intros d st _. unfold mult_row. rewrite row_indices_empty; [done|].
      destruct Hemp as [-> | ->]; simpl; auto. }
  cbn [m_net m_land m_store]. rewrite compress_empties. simpl.
  by rewrite <- app_assoc.
Qed.

Lemma multiplier_empty_operand_witness :
  multiplier two_by_two [[]; [Some 0; Some 1; Some 2]]%nat 0 1
  = Some (two_by_two, [[]; [Some 0; Some 1; Some 2]; []; [Some 0; Some 1; Some 2]]%nat,
          Ok [None; None]).
Proof.
  apply (multiplier_empty_operand two_by_two [[]; [Some 0; Some 1; Some 2]]%nat 0 1
           [] [Some 0; Some 1; Some 2]%nat); [reflexivity|reflexivity|by left].
Defined.

(** ** Cost of the multiplier *)

Lemma mult_body_land la lb d i st st' :
  mult_body la lb d i st = (st', Ok ()) →
  ∃ col p, m_land st !! d = Some col ∧ m_land st' = <[d := col ++ [p]]> (m_land st).
Proof.
  unfold mult_body, gate. cbv zeta.
  repeat case_match; try done. intros [= <-]. cbn [m_land]. eauto.
Qed.

Lemma on_diag_snoc d ps i j :
  on_diag d (ps ++ [(i, j)])
  = (on_diag d ps + if decide (i + j = d)%nat then 1 else 0)%nat.
Proof.
  unfold on_diag. rewrite filter_app, length_app. f_equal.
  rewrite filter_cons, filter_nil. cbn [fst snd]. by case_decide.
Qed.

Lemma columns_match_body la lb d i st st' ps :
  columns_match ps (m_land st) → (i ≤ d)%nat →
  mult_body la lb d i st = (st', Ok ()) →
  columns_match (ps ++ [(i, (d - i)%nat)]) (m_land st').
Proof.
  intros Hm Hid Hbody.
  destruct (mult_body_land _ _ _ _ _ _ Hbody) as (col & p & Hcol & ->).
  intros d' col' Hcol'. rewrite on_diag_snoc.
  destruct (decide (d = d')) as [<-|Hdd].
  - rewrite list_lookup_insert_eq in Hcol' by (by eapply lookup_lt_Some).
    injection Hcol' as <-. rewrite length_app, (Hm _ _ Hcol). simpl.
    by rewrite decide_True by lia.
  - rewrite list_lookup_insert_ne in Hcol' by done.
    rewrite (Hm _ _ Hcol'). rewrite decide_False by lia. lia.
Qed.

Lemma mult_row_inv2 env C (h : store) va vb N ps d st :
  mult_inv env C h va vb N ps st → columns_match ps (m_land st) → (d < N)%nat →
  ∃ st', mult_row (length h) (S (length h)) (length va) (length vb) d st = (st', Ok ())
    ∧ mult_inv env C h va vb N
        (ps ++ ((λ i, (i, (d - i)%nat)) <$> row_indices (length va) (length vb) d)) st'
    ∧ columns_match
        (ps ++ ((λ i, (i, (d - i)%nat)) <$> row_indices (length va) (length vb) d))
        (m_land st').
Proof.
  intros Hinv Hm Hd. unfold mult_row.
  apply (for_each_ok
           (λ dn st, mult_inv env C h va vb N (ps ++ ((λ i, (i, (d - i)%nat)) <$> dn)) st
                     ∧ columns_match (ps ++ ((λ i, (i, (d - i)%nat)) <$> dn)) (m_land st))
           _ _ []).
  - by rewrite app_nil_r.
  - intros dn i st1 [H1 H2] Hi. apply elem_of_row_indices in Hi.
    rewrite fmap_app, app_assoc.
    destruct (mult_body_inv env C h va vb N _ d i st1 H1) as (st2 & Hbody & H3); [lia..|].
    exists st2. split_and!; [done..|]. eapply columns_match_body; [exact H2|lia|exact Hbody].
Qed.

Lemma mult_loops_inv2 env C (h : store) va vb N st :
  mult_inv env C h va vb N [] st → columns_match [] (m_land st) →
  (N = length va + length vb - 1)%nat →
  ∃ st', for_each (seq 0 N) (mult_row (length h) (S (length h)) (length va) (length vb)) st
         = (st', Ok ())
    ∧ mult_inv env C h va vb N (pairs (length va) (length vb)) st'
    ∧ columns_match (pairs (length va) (length vb)) (m_land st').
Proof.
  intros Hinv Hm HN. unfold pairs. rewrite <- HN.
  apply (for_each_ok
           (λ dn st,
              mult_inv env C h va vb N
                (dn ≫= λ d, (λ i, (i, (d - i)%nat)) <$> row_indices (length va) (length vb) d)
                st
              ∧ columns_match
                  (dn ≫= λ d, (λ i, (i, (d - i)%nat)) <$> row_indices (length va) (length vb) d)
                  (m_land st))
           _ _ []); [done|].
  intros dn d st1 [H1 H2] Hd. apply elem_of_seq in Hd.
  rewrite bind_app, bind_singleton. apply mult_row_inv2; [done|done|lia].
Qed.

Lemma on_diag_row na nb d d' :
  on_diag d ((λ i, (i, (d' - i)%nat)) <$> row_indices na nb d')
  = if decide (d' = d) then length (row_indices na nb d') else 0%nat.
Proof.
  unfold on_diag.
  assert (H : ∀ l : list nat, Forall (λ i, i ≤ d')%nat l →
            length (filter (λ p : nat * nat, (p.1 + p.2)%nat = d)
                      ((λ i, (i, (d' - i)%nat)) <$> l))
            = if decide (d' = d) then length l else 0%nat).
  { induction 1 as [|i l Hi _ IH]; [by case_decide|].
    rewrite fmap_cons, filter_cons. cbn [fst snd].
    repeat case_decide; simpl; rewrite IH; try lia;
      rewrite ?decide_True, ?decide_False by lia; lia. }
  apply H. apply Forall_forall. intros i Hi%elem_of_row_indices. lia.
Qed.

Lemma on_diag_pairs_seq na nb d s k :
  on_diag d (seq s k ≫= λ d', (λ i, (i, (d' - i)%nat)) <$> row_indices na nb d')
  = if decide (s ≤ d < s + k)%nat then length (row_indices na nb d) else 0%nat.
Proof.
  revert s. induction k as [|k IH]; intros s.
  - simpl. by rewrite decide_False by lia.
  - cbn [seq]. rewrite bind_cons. unfold on_diag in *.
    rewrite filter_app, length_app, IH.
    pose proof (on_diag_row na nb d s) as Hrow. unfold on_diag in Hrow. rewrite Hrow.
    repeat case_decide; subst; lia.
Qed.

Lemma columns_match_shape na nb (land : list (list wire)) :
  length land = (na + nb - 1)%nat →
  columns_match (pairs na nb) land →
  length <$> land = diag_shape na nb.
Proof.
  intros Hlen Hm. apply list_eq. intros d. unfold diag_shape.
  rewrite !list_lookup_fmap.
  destruct (land !! d) as [col|] eqn:Hcol; simpl.
  - assert (d < na + nb - 1)%nat by (rewrite <- Hlen; by eapply lookup_lt_Some).
    rewrite lookup_seq_lt by done. simpl. f_equal.
    rewrite (Hm _ _ Hcol). unfold pairs. rewrite on_diag_pairs_seq.
    by rewrite decide_True by lia.
  - apply lookup_ge_None in Hcol. rewrite lookup_seq_ge by lia. done.
Qed.

Lemma pp_gates_cost env va vb C G ps :
  pp_gates env va vb C G ps →
  count_xaig G = length ps ∧ count_aig G = length ps.
Proof.
  induction 1 as [|G ps i j ta tb x y α β _ [IH1 IH2] _ _ _ _]; [done|].
  rewrite count_xaig_app, count_aig_app, IH1, IH2.
  assert (count_xaig (pp_cell ta tb x y (length (C ++ G))) = 1%nat) as -> by done.
  assert (count_aig (pp_cell ta tb x y (length (C ++ G))) = 1%nat) as -> by done.
  by rewrite length_app.
Qed.

(** X14: an [n × m] multiplier on wires that have a value costs the [n·m]
    AND gates of the partial products (the [2nm] fan-out duplicates are
    free in both metrics) plus what compressing the diagonals costs, column
    [d] holding as many wires as the inner loop has steps on diagonal [d]. *)
Theorem multiplier_cost env C (h : store) pa pb a b n m A B :
  h !! pa = Some a → h !! pb = Some b →
  length a = n → length b = m → (1 ≤ n)%nat → (1 ≤ m)%nat →
  bits_value (eval env C) a = Some A →
  bits_value (eval env C) b = Some B →
  ∃ C' h' outs,
    multiplier C h pa pb = Some (C', h', Ok outs)
    ∧ count_xaig C' = (count_xaig C + n * m + cost_pred 5 2 0 (diag_shape n m))%nat
    ∧ count_aig C' = (count_aig C + n * m + cost_pred 9 4 0 (diag_shape n m))%nat.
Proof.
  intros Hpa Hpb Hn Hm Hn1 Hm1 HA HB.
  destruct (bits_value_operand_vals _ _ _ HA) as (va & Ha & _).
  destruct (bits_value_operand_vals _ _ _ HB) as (vb & Hb & _).
  pose proof (Forall2_length _ _ _ Ha) as Hla.
  pose proof (Forall2_length _ _ _ Hb) as Hlb.
  destruct (mult_loops_inv2 env C h va vb (length va + length vb - 1)
              (MState C (h ++ [a; b]) (replicate (length va + length vb - 1) [])))
    as (st & Hloops & Hinv & Hcm); [by apply mult_inv_init| |done|].
  { intros d col Hcol. cbn [m_land] in Hcol.
    apply lookup_replicate in Hcol as [-> _]. done. }
  assert (Hne : Forall (λ col : list wire, col ≠ []) (m_land st)).
  { eapply mult_columns_nonempty; [| |exact Hinv]; lia. }
  destruct Hinv as (G & xa & xb & Hnet & Hpp & _ & _ & _ & Hlen & _).
  destruct (compress_total (m_net st) (m_land st)) as [[C' outs] Hrun].
  exists C', (m_store st), outs. split.
  - unfold multiplier, alloc.
    rewrite (list_lookup_total_correct _ _ _ Hpa).
    rewrite (list_lookup_total_correct _ _ _ Hpb).
    rewrite (list_lookup_total_correct (h ++ [a]) pb b) by (by apply lookup_app_l_Some).
    rewrite length_app. cbn [length]. rewrite <- app_assoc. cbn [app].
    replace (length h + 1)%nat with (S (length h)) by lia.
    rewrite Hla, Hlb, Hloops, Hrun. done.
  - destruct (compress_cost_sizes _ _ _ _ Hne Hrun) as [-> ->].
    rewrite (columns_match_shape _ _ _ Hlen Hcm), Hnet, count_xaig_app, count_aig_app.
    destruct (pp_gates_cost _ _ _ _ _ _ Hpp) as [-> ->].
    rewrite length_pairs, <- Hla, <- Hlb, Hn, Hm. done.
Qed.

Lemma multiplier_cost_witness :
  ∃ C' h' outs,
    multiplier two_by_two [[Some 0; Some 1]; [Some 2; Some 3]]%nat 0 1
    = Some (C', h', Ok outs)
    ∧ count_xaig C' = 8%nat ∧ count_aig C' = 12%nat.
Proof.
  assert (Hn : (1 ≤ 2)%nat) by lia.
  destruct (multiplier_cost all_ones two_by_two
              [[Some 0; Some 1]; [Some 2; Some 3]]%nat 0 1
              [Some 0; Some 1]%nat [Some 2; Some 3]%nat 2 2 3 3
              eq_refl eq_refl eq_refl eq_refl Hn Hn eq_refl eq_refl)
    as (C' & h' & outs & Hrun & Hx & Ha).
  exists C', h', outs. split; [exact Hrun|]. split; [exact Hx|exact Ha].
Defined.

(** * The growing graph *)

Local Open Scope nat_scope.

(** X15: [range n] is the list 0, 1, ..., n-1. *)
Theorem range_spec n : range n = seq 0 n.
Proof.
  unfold range.
  assert (H : ∀ (f : nat → nat) n, imap (λ i (_ : ()), f i) (replicate n ()) = f <$> seq 0 n).
  { clear. intros f n. revert f. induction n as [|n IH]; intros f; [done|].
    cbn [replicate imap seq fmap list_fmap]. f_equal.
    rewrite <- fmap_S_seq, <- list_fmap_compose. apply (IH (f ∘ S)). }
  rewrite (H id). by rewrite list_fmap_id.
Qed.

Lemma replace_first_length o n l : length (replace_first o n l) = length l.
Proof. induction l as [|x l IH]; [done|]. cbn. case_decide; cbn; congruence. Qed.

Lemma replace_first_notin o n l : o ∉ l → replace_first o n l = l.
Proof.
  induction l as [|x l IH]; [done|]. intros H. cbn.
  rewrite not_elem_of_cons in H. destruct H as [H1 H2].
  case_decide; [congruence|]. by rewrite IH.
Qed.

Lemma elem_of_replace_first o n l x :
  NoDup l → o ∈ l → x ∈ replace_first o n l ↔ x = n ∨ (x ∈ l ∧ x ≠ o).
Proof.
  induction l as [|y l IH]; intros Hnd Ho.
  - by apply elem_of_nil in Ho.
  - apply NoDup_cons in Hnd as [Hy Hnd]. cbn. case_decide as E.
    + subst y. rewrite !elem_of_cons. split.
      * intros [->|H]; [by left|]. right. split; [by right|]. intros ->. done.
      * intros [->|[[->|H] H']]; [by left|done|by right].
    + apply elem_of_cons in Ho as [->|Ho]; [done|].
      rewrite !elem_of_cons, (IH Hnd Ho). split.
      * intros [->|[->|[H1 H2]]]; [right; split; [by left|done] | by left | right; split; [by right|done]].
      * intros [->|[[->|H1] H2]]; [right; by left | by left | right; right; done].
Qed.

Lemma NoDup_replace_first o n l : NoDup l → n ∉ l → NoDup (replace_first o n l).
Proof.
  intros Hnd Hn. destruct (decide (o ∈ l)) as [Ho|Ho].
  2: by rewrite replace_first_notin.
  induction l as [|y l IH]; [done|].
  apply NoDup_cons in Hnd as [Hy Hnd]. apply not_elem_of_cons in Hn as [Hn1 Hn2].
  cbn. case_decide as E.
  - by apply NoDup_cons.
  - apply elem_of_cons in Ho as [->|Ho]; [done|]. apply NoDup_cons. split; [|by apply IH].
    rewrite (elem_of_replace_first _ _ _ _ Hnd Ho). intros [->|[H _]]; done.
Qed.

Lemma replace_first_undo o n l :
  o ∈ l → n ∉ l → replace_first n o (replace_first o n l) = l.
Proof.
  induction l as [|y l IH]; intros Ho Hn; [by apply elem_of_nil in Ho|].
  apply not_elem_of_cons in Hn as [Hn1 Hn2]. cbn. case_decide as E.
  - subst y. cbn. by rewrite decide_True.
  - apply elem_of_cons in Ho as [->|Ho]; [done|]. cbn. rewrite decide_False by done.
    by rewrite IH.
Qed.



Lemma cubic_lt ns u node v : cubic ns → ns !! u = Some node → v ∈ node → v < length ns.
Proof.
  intros Hc Hu Hv. destruct (Hc u node Hu) as (_ & _ & _ & Hs).
  destruct (Hs v Hv) as (nv & Hnv & _). by apply lookup_lt_Some in Hnv.
Qed.

Lemma cubic_three ns u node :
  cubic ns → ns !! u = Some node →
  ∃ a b c, node = [a; b; c] ∧ a ≠ b ∧ a ≠ c ∧ b ≠ c ∧ u ≠ a ∧ u ≠ b ∧ u ≠ c.
Proof.
  intros Hc Hu. destruct (Hc u node Hu) as (Hl & Hnd & Hni & _).
  destruct node as [|a [|b [|c [|]]]]; try done. exists a, b, c.
  apply NoDup_cons in Hnd as [Ha Hnd]. apply NoDup_cons in Hnd as [Hb _].
  apply not_elem_of_cons in Ha as [? Ha]. apply not_elem_of_cons in Ha as [? _].
  apply not_elem_of_cons in Hb as [? _].
  apply not_elem_of_cons in Hni as [? Hni]. apply not_elem_of_cons in Hni as [? Hni].
  apply not_elem_of_cons in Hni as [? _]. done.
Qed.

Lemma divide_run ns ss ds i x :
  cubic ns → ds !! i = Some (S x) → i < length ns →
  ∃ a b c nb nc,
    ns !! i = Some [a; b; c] ∧ ns !! b = Some nb ∧ ns !! c = Some nc
    ∧ divide i (ns, ss, ds)
      = Some (divided ns i a b c nb nc, ss ++ [mjoin (ss !! i); mjoin (ss !! i)],
              <[i := 0]> ds).
Proof.
  intros Hc Hd Hi. destruct (lookup_lt_is_Some_2 ns i Hi) as [node Hn].
  destruct (cubic_three _ _ _ Hc Hn) as (a & b & c & -> & Hab & Hac & Hbc & Hia & Hib & Hic).
  destruct (Hc _ _ Hn) as (_ & _ & _ & Hs).
  destruct (Hs a ltac:(rewrite !elem_of_cons; tauto)) as (na & Hna & _).
  destruct (Hs b ltac:(rewrite !elem_of_cons; tauto)) as (nb & Hnb & _).
  destruct (Hs c ltac:(rewrite !elem_of_cons; tauto)) as (nc & Hnc & _).
  pose proof (lookup_lt_Some _ _ _ Hna) as Hla.
  pose proof (lookup_lt_Some _ _ _ Hnb) as Hlb.
  pose proof (lookup_lt_Some _ _ _ Hnc) as Hlc.
  exists a, b, c, nb, nc. split_and!; [done..|].
  unfold divide. rewrite Hd, Hn. cbn [mbind option_bind].
  unfold reconnect.
  assert (E1 : (<[i := [a; length ns; length ns + 1]]> ns
          ++ [[i; b; length ns + 1]; [i; length ns; c]]) !! b = Some nb).
  { rewrite lookup_app_l by (by rewrite length_insert).
    by rewrite list_lookup_insert_ne. }
  rewrite E1. cbn [mbind option_bind].
  set (ns2 := <[b := _]> _).
  assert (E2 : ns2 !! c = Some nc).
  { unfold ns2. rewrite list_lookup_insert_ne by done.
    rewrite lookup_app_l by (by rewrite length_insert).
    by rewrite list_lookup_insert_ne. }
  rewrite E2. cbn [mbind option_bind].
  set (ns3 := <[c := _]> _).
  assert (E3 : ns3 !! a = Some na).
  { unfold ns3, ns2. rewrite !list_lookup_insert_ne by done.
    rewrite lookup_app_l by (by rewrite length_insert).
    by rewrite list_lookup_insert_ne. }
  rewrite E3. done.
Qed.


Lemma divided_length ns i a b c nb nc :
  length (divided ns i a b c nb nc) = length ns + 2.
Proof. unfold divided. rewrite !length_insert, length_app, length_insert. done. Qed.

Lemma divided_lookup ns i a b c nb nc u :
  i < length ns → b < length ns → c < length ns → b ≠ c → i ≠ b → i ≠ c →
  divided ns i a b c nb nc !! u =
    if decide (u = c) then Some (replace_first i (length ns + 1) nc)
    else if decide (u = b) then Some (replace_first i (length ns) nb)
    else if decide (u = i) then Some [a; length ns; length ns + 1]
    else if decide (u = length ns) then Some [i; b; length ns + 1]
    else if decide (u = length ns + 1) then Some [i; length ns; c]
    else ns !! u.
Proof.
  intros Hi Hb Hc Hbc Hib Hic. unfold divided.
  case_decide as E1.
  { subst u. apply list_lookup_insert_eq.
    rewrite length_insert, length_app, length_insert. lia. }
  rewrite list_lookup_insert_ne by done.
  case_decide as E2.
  { subst u. apply list_lookup_insert_eq. rewrite length_app, length_insert. lia. }
  rewrite list_lookup_insert_ne by done.
  case_decide as E3.
  { subst u. rewrite lookup_app_l by (by rewrite length_insert).
    by apply list_lookup_insert_eq. }
  case_decide as E4.
  { subst u. rewrite lookup_app_r by (by rewrite length_insert).
    rewrite length_insert, Nat.sub_diag. done. }
  case_decide as E5.
  { subst u. rewrite lookup_app_r by (rewrite length_insert; lia).
    rewrite length_insert. replace (length ns + 1 - length ns) with 1 by lia. done. }
  destruct (decide (u < length ns)) as [Hu|Hu].
  - rewrite lookup_app_l by (by rewrite length_insert). by rewrite list_lookup_insert_ne.
  - rewrite lookup_ge_None_2; [symmetry; apply lookup_ge_None_2; lia|].
    rewrite length_app, length_insert. cbn. lia.
Qed.

Lemma divided_cubic ns i a b c nb nc :
  cubic ns → ns !! i = Some [a; b; c] → ns !! b = Some nb → ns !! c = Some nc →
  cubic (divided ns i a b c nb nc).
Proof.
  intros Hcub Hi Hb Hc.
  destruct (cubic_three _ _ _ Hcub Hi) as (a' & b' & c' & [= <- <- <-] & Hab & Hac & Hbc & Hia & Hib & Hic).
  pose proof (lookup_lt_Some _ _ _ Hi) as Hli.
  pose proof (lookup_lt_Some _ _ _ Hb) as Hlb.
  pose proof (lookup_lt_Some _ _ _ Hc) as Hlc.
  assert (Hla : a < length ns).
  { apply (cubic_lt ns i [a; b; c] a Hcub Hi). rewrite !elem_of_cons; tauto. }
  destruct (Hcub _ _ Hi) as (_ & _ & _ & Hsi).
  destruct (Hcub _ _ Hb) as (Hlenb & Hndb & Hbb & Hsb).
  destruct (Hcub _ _ Hc) as (Hlenc & Hndc & Hcc & Hsc).
  assert (Hib' : i ∈ nb).
  { destruct (Hsi b ltac:(rewrite !elem_of_cons; tauto)) as (? & ? & ?). congruence. }
  assert (Hic' : i ∈ nc).
  { destruct (Hsi c ltac:(rewrite !elem_of_cons; tauto)) as (? & ? & ?). congruence. }
  assert (Hnb_lt : ∀ v, v ∈ nb → v < length ns) by (intros v Hv; exact (cubic_lt ns b nb v Hcub Hb Hv)).
  assert (Hnc_lt : ∀ v, v ∈ nc → v < length ns) by (intros v Hv; exact (cubic_lt ns c nc v Hcub Hc Hv)).
  assert (L : ∀ u, divided ns i a b c nb nc !! u = _) by (intros u; by apply divided_lookup).
  assert (Mb : ∀ v, v ∈ replace_first i (length ns) nb ↔ v = length ns ∨ (v ∈ nb ∧ v ≠ i)).
  { intros v. by apply elem_of_replace_first. }
  assert (Mc : ∀ v, v ∈ replace_first i (length ns + 1) nc ↔ v = length ns + 1 ∨ (v ∈ nc ∧ v ≠ i)).
  { intros v. by apply elem_of_replace_first. }
  intros u node Hu. rewrite L in Hu.
  repeat case_decide; simplify_eq.
  - (* u = c *)
    split_and!.
    + by rewrite replace_first_length.
    + apply NoDup_replace_first; [done|]. intros Hin. apply Hnc_lt in Hin. lia.
    + rewrite Mc. intros [?|[? _]]; [lia|done].
    + intros v Hv. apply Mc in Hv as [->|[Hv Hvi]].
      * eexists. rewrite L. repeat case_decide; try lia. split; [done|].
        rewrite !elem_of_cons; tauto.
      * destruct (Hsc v Hv) as (nv & Hnv & Hcv).
        pose proof (lookup_lt_Some _ _ _ Hnv).
        rewrite L. repeat case_decide; simplify_eq; try lia; try done.
        -- eexists; split; [done|]. apply Mb. by right.
        -- eexists; split; done.
  - (* u = b *)
    split_and!.
    + by rewrite replace_first_length.
    + apply NoDup_replace_first; [done|]. intros Hin. apply Hnb_lt in Hin. lia.
    + rewrite Mb. intros [?|[? _]]; [lia|done].
    + intros v Hv. apply Mb in Hv as [->|[Hv Hvi]].
      * eexists. rewrite L. repeat case_decide; try lia. split; [done|].
        rewrite !elem_of_cons; tauto.
      * destruct (Hsb v Hv) as (nv & Hnv & Hcv).
        pose proof (lookup_lt_Some _ _ _ Hnv).
        rewrite L. repeat case_decide; simplify_eq; try lia; try done.
        -- eexists; split; [done|]. apply Mc. by right.
        -- eexists; split; done.
  - (* u = i *)
    split_and!; [done| | |].
    + repeat (apply NoDup_cons; split; [rewrite ?elem_of_cons, ?elem_of_nil; lia|]).
      apply NoDup_nil_2.
    + rewrite !elem_of_cons, elem_of_nil. lia.
    + intros v Hv. rewrite !elem_of_cons, elem_of_nil in Hv.
      destruct (Hsi a ltac:(rewrite !elem_of_cons; tauto)) as (na & Hna & Hia').
      rewrite L. destruct Hv as [->|[->|[->|[]]]]; repeat case_decide; simplify_eq; try lia.
      all: eexists; split; [done|]; rewrite ?elem_of_cons; tauto.
  - (* u = length ns *)
    split_and!; [done| | |].
    + repeat (apply NoDup_cons; split; [rewrite ?elem_of_cons, ?elem_of_nil; lia|]).
      apply NoDup_nil_2.
    + rewrite !elem_of_cons, elem_of_nil. lia.
    + intros v Hv. rewrite !elem_of_cons, elem_of_nil in Hv.
      rewrite L. destruct Hv as [->|[->|[->|[]]]]; repeat case_decide; simplify_eq; try lia.
      all: eexists; split; [done|]; rewrite ?Mb, ?elem_of_cons; tauto.
  - (* u = length ns + 1 *)
    split_and!; [done| | |].
    + repeat (apply NoDup_cons; split; [rewrite ?elem_of_cons, ?elem_of_nil; lia|]).
      apply NoDup_nil_2.
    + rewrite !elem_of_cons, elem_of_nil. lia.
    + intros v Hv. rewrite !elem_of_cons, elem_of_nil in Hv.
      rewrite L. destruct Hv as [->|[->|[->|[]]]]; repeat case_decide; simplify_eq; try lia.
      all: eexists; split; [done|]; rewrite ?Mc, ?elem_of_cons; tauto.
  - (* any other node *)
    destruct (Hcub _ _ Hu) as (Hlen & Hnd & Hun & Hs).
    split_and!; [done..|].
    intros v Hv. destruct (Hs v Hv) as (nv & Hnv & Huv).
    pose proof (lookup_lt_Some _ _ _ Hnv).
    rewrite L. repeat case_decide; simplify_eq; try lia.
    + eexists; split; [done|]. apply Mc. right. split; [done|]. congruence.
    + eexists; split; [done|]. apply Mb. right. split; [done|]. congruence.
    + eexists; split; [done|]. rewrite !elem_of_cons, elem_of_nil in Huv.
      rewrite !elem_of_cons. destruct Huv as [->|[->|[->|[]]]]; tauto.
    + eexists; split; done.
Qed.



Lemma binary_lookup ss i : Forall binary ss → i < length ss → binary (mjoin (ss !! i)).
Proof.
  intros Hb Hi. destruct (lookup_lt_is_Some_2 ss i Hi) as [s Hs]. rewrite Hs.
  exact (Forall_lookup_1 _ _ _ _ Hb Hs).
Qed.

Lemma divide_all_seq len : ∀ s ns ss ds,
  cubic ns → length ss = length ns → Forall binary ss → length ds ≤ length ns →
  ∃ ns' ss' ds',
    divide_all (seq s len) (ns, ss, ds) = Some (ns', ss', ds')
    ∧ cubic ns' ∧ length ss' = length ns' ∧ Forall binary ss'
    ∧ ss `prefix_of` ss'
    ∧ length ns' = length ns + 2 * flagged (take len (drop s ds))
    ∧ length ds' = length ds
    ∧ ∀ m, ds' !! m = if decide (s ≤ m < s + len) then (λ _, 0) <$> ds !! m else ds !! m.
Proof.
  induction len as [|len IH]; intros s ns ss ds Hc Hss Hbin Hds.
  { exists ns, ss, ds. split_and!; try done.
    intros m. case_decide; [lia|done]. }
  cbn [seq divide_all].
  destruct (ds !! s) as [d|] eqn:Ed; [destruct d as [|x]|].
  - (* flag not set *)
    unfold divide at 1. rewrite Ed. cbn [mbind option_bind].
    destruct (IH (S s) ns ss ds Hc Hss Hbin Hds)
      as (ns' & ss' & ds' & Hrun & Hc' & Hss' & Hbin' & Hpre & Hlen & Hdl & Hd').
    exists ns', ss', ds'. split_and!; try done.
    + rewrite Hlen, (drop_S _ _ _ Ed). cbn [take]. unfold flagged.
      rewrite filter_cons_False by (intros H; by apply H). done.
    + intros m. rewrite Hd'. destruct (decide (m = s)) as [->|Hm].
      * rewrite decide_False by lia. rewrite decide_True by lia. by rewrite Ed.
      * repeat case_decide; try lia; done.
  - (* the node divides *)
    assert (Hs : s < length ns) by (apply lookup_lt_Some in Ed; lia).
    destruct (divide_run ns ss ds s x Hc Ed Hs) as (a & b & c & nb & nc & Hi & Hb & Hcc & Hrun1).
    rewrite Hrun1. cbn [mbind option_bind].
    destruct (IH (S s) (divided ns s a b c nb nc)
                (ss ++ [mjoin (ss !! s); mjoin (ss !! s)]) (<[s := 0]> ds))
      as (ns' & ss' & ds' & Hrun & Hc' & Hss' & Hbin' & Hpre & Hlen & Hdl & Hd').
    + by apply divided_cubic.
    + rewrite length_app, divided_length. cbn. lia.
    + apply Forall_app. split; [done|].
      assert (binary (mjoin (ss !! s))) by (apply binary_lookup; [done|lia]).
      repeat (apply Forall_cons_2; [done|]). apply Forall_nil_2.
    + rewrite length_insert, divided_length. lia.
    + exists ns', ss', ds'. split_and!; try done.
      * etrans; [|exact Hpre]. by apply prefix_app_r.
      * rewrite Hlen, divided_length, (drop_S _ _ _ Ed). cbn [take].
        rewrite drop_insert_lt by lia. unfold flagged.
        rewrite filter_cons_True by done. cbn. lia.
      * by rewrite Hdl, length_insert.
      * intros m. rewrite Hd'. destruct (decide (m = s)) as [->|Hm].
        -- rewrite decide_False by lia. rewrite decide_True by lia.
           rewrite Ed. apply list_lookup_insert_eq. by apply lookup_lt_Some in Ed.
        -- rewrite list_lookup_insert_ne by done. repeat case_decide; try lia; done.
  - (* no flag at all *)
    unfold divide at 1. rewrite Ed. cbn [mbind option_bind].
    destruct (IH (S s) ns ss ds Hc Hss Hbin Hds)
      as (ns' & ss' & ds' & Hrun & Hc' & Hss' & Hbin' & Hpre & Hlen & Hdl & Hd').
    exists ns', ss', ds'. split_and!; try done.
    + rewrite Hlen. apply lookup_ge_None_1 in Ed.
      rewrite !drop_ge by lia. by rewrite !take_nil.
    + intros m. rewrite Hd'. destruct (decide (m = s)) as [->|Hm].
      * rewrite decide_False by lia. rewrite decide_True by lia. by rewrite Ed.
      * repeat case_decide; try lia; done.
Qed.

Lemma shr_and1_le rule r : shr_and1 rule r ≤ 1.
Proof.
  unfold shr_and1. generalize (Z.shiftr (to_int32 rule) (Z.of_nat (default 0 r `mod` 32))).
  intros v. change 1%Z with (Z.ones 1). rewrite Z.land_ones by lia.
  change (2 ^ 1)%Z with 2%Z. pose proof (Z.mod_pos_bound v 2). lia.
Qed.

Lemma calcCases_length ns ss : length (calcCases ns ss) = length ns.
Proof. unfold calcCases. by rewrite length_imap. Qed.

Lemma update_states_wf g :
  wf_graph g → phase g = 0%Z →
  ∃ g', grow g = Some g' ∧ wf_graph g' ∧ nodes g' = nodes g ∧ phase g' = 1%Z
        ∧ lastGen g' = lastGen g ∧ length (dividing g') = length (nodes g).
Proof.
  intros (Hc & Hss & Hbin & Hds & Hph) H0. unfold grow. rewrite decide_True by done.
  eexists. split; [done|]. cbn.
  assert (E : drop (length (calcCases (nodes g) (states g))) (states g) = []).
  { apply drop_ge. rewrite calcCases_length. lia. }
  split_and!; try done.
  - split_and!; cbn.
    + done.
    + rewrite E, length_app, length_fmap, calcCases_length. cbn. lia.
    + rewrite E, app_nil_r. apply Forall_fmap, Forall_forall. intros r _. cbn.
      pose proof (shr_and1_le (rule g) r). unfold binary.
      destruct (shr_and1 (rule g) r) as [|[|]]; [by left|by right|lia].
    + rewrite length_app, length_fmap, length_drop, calcCases_length. lia.
    + right. lia.
  - lia.
  - rewrite length_app, length_fmap, length_drop, calcCases_length. lia.
Qed.

Lemma grow_divide_wf g :
  wf_graph g → phase g = 1%Z →
  ∃ g', grow g = Some g' ∧ wf_graph g' ∧ phase g' = 0%Z
        ∧ lastGen g' = lastGen g + 1
        ∧ length (nodes g') = length (nodes g) + 2 * flagged (dividing g)
        ∧ states g `prefix_of` states g'
        ∧ dividing g' = replicate (length (dividing g)) 0.
Proof.
  intros (Hc & Hss & Hbin & Hds & Hph) H1. unfold grow. rewrite decide_False by lia.
  destruct (divide_all_seq (length (dividing g)) 0 _ _ _ Hc Hss Hbin Hds)
    as (ns' & ss' & ds' & Hrun & Hc' & Hss' & Hbin' & Hpre & Hlen & Hdl & Hd').
  rewrite Hrun. cbn [mbind option_bind]. eexists. split; [done|]. cbn.
  rewrite drop_0, take_ge in Hlen by done.
  split_and!; try done.
  - split_and!; cbn; try done; [lia|left; lia].
  - lia.
  - apply list_eq. intros m. rewrite Hd'. cbn.
    destruct (decide (m < length (dividing g))) as [Hm|Hm].
    + rewrite decide_True by lia. rewrite lookup_replicate_2 by done.
      destruct (lookup_lt_is_Some_2 _ _ Hm) as [d ->]. done.
    + rewrite decide_False by lia. rewrite lookup_ge_None_2 by lia.
      symmetry. apply lookup_ge_None_2. rewrite length_replicate. lia.
Qed.



Lemma arcs_cons k node ns :
  arcs k (node :: ns) = ((λ t, (k, t)) <$> node) ++ arcs (S k) ns.
Proof.
  unfold arcs. rewrite imap_cons. cbn [concat]. rewrite Nat.add_0_r. do 2 f_equal.
  apply imap_ext. intros s x _. cbn. apply list_fmap_ext. intros _ t _. f_equal. lia.
Qed.

Lemma links_from_arcs k ns :
  concat (imap (λ s node, (λ t, (k + s, t)) <$> filter (λ t, k + s < t) node) ns)
  = filter upward (arcs k ns).
Proof.
  revert k. induction ns as [|node ns IH]; intros k; [done|].
  rewrite arcs_cons, filter_app, <- IH, imap_cons. cbn [concat]. rewrite Nat.add_0_r.
  f_equal.
  - clear. induction node as [|t node IH]; [done|]. cbn [fmap list_fmap].
    rewrite !filter_cons. destruct (decide (k < t)) as [Hlt|Hlt].
    + rewrite decide_True by exact Hlt. cbn [fmap list_fmap]. by rewrite IH.
    + rewrite decide_False by exact Hlt. exact IH.
  - f_equal. apply imap_ext. intros s x _. cbn.
    replace (k + S s) with (S (k + s)) by lia. done.
Qed.

Lemma createLinks_arcs ns : createLinks ns = filter upward (arcs 0 ns).
Proof. exact (links_from_arcs 0 ns). Qed.

Lemma elem_of_arcs k ns s t :
  (s, t) ∈ arcs k ns ↔ k ≤ s ∧ ∃ node, ns !! (s - k) = Some node ∧ t ∈ node.
Proof.
  revert k. induction ns as [|node ns IH]; intros k.
  { unfold arcs. cbn. rewrite elem_of_nil. split; [done|]. by intros (_ & node & ? & _). }
  rewrite arcs_cons, elem_of_app, IH, list_elem_of_fmap. split.
  - intros [(t' & [= -> ->] & Ht)|(Hk & node' & Hn & Ht)].
    + split; [lia|]. exists node. by rewrite Nat.sub_diag.
    + split; [lia|]. exists node'. split; [|done].
      replace (s - k) with (S (s - S k)) by lia. done.
  - intros (Hk & node' & Hn & Ht). destruct (decide (s = k)) as [->|Hne].
    + left. rewrite Nat.sub_diag in Hn. injection Hn as <-. by exists t.
    + right. split; [lia|]. exists node'. split; [|done].
      replace (s - k) with (S (s - S k)) in Hn by lia. done.
Qed.

Lemma NoDup_arcs k ns : Forall NoDup ns → NoDup (arcs k ns).
Proof.
  intros H. revert k. induction H as [|node ns Hnd _ IH]; intros k.
  { apply NoDup_nil_2. }
  rewrite arcs_cons. apply NoDup_app. split_and!.
  - apply NoDup_fmap_2; [|done]. by intros t t' [= ->].
  - intros [s t] (t' & [= -> ->] & _)%list_elem_of_fmap (Hk & _)%elem_of_arcs. lia.
  - apply IH.
Qed.

Lemma length_arcs k ns :
  Forall (λ node, length node = 3) ns → length (arcs k ns) = 3 * length ns.
Proof.
  intros H. revert k. induction H as [|node ns Hl _ IH]; intros k; [done|].
  rewrite arcs_cons, length_app, length_fmap, IH, Hl. cbn. lia.
Qed.

Lemma createLinks_cubic_aux ns :
  cubic ns →
  NoDup (createLinks ns)
  ∧ (∀ s t, (s, t) ∈ createLinks ns ↔ s < t ∧ ∃ node, ns !! s = Some node ∧ t ∈ node)
  ∧ 2 * length (createLinks ns) = 3 * length ns.
Proof.
  intros Hc.
  assert (Hnd : Forall NoDup ns).
  { apply Forall_lookup. intros u node Hu. by destruct (Hc u node Hu) as (_ & ? & _). }
  assert (Hl3 : Forall (λ node, length node = 3) ns).
  { apply Forall_lookup. intros u node Hu. by destruct (Hc u node Hu) as (? & _). }
  assert (Harc : ∀ s t, (s, t) ∈ arcs 0 ns ↔ ∃ node, ns !! s = Some node ∧ t ∈ node).
  { intros s t. rewrite elem_of_arcs, Nat.sub_0_r. split; [by intros [_ ?]|]. split; [lia|done]. }
  assert (Hsym : ∀ s t, (s, t) ∈ arcs 0 ns → (t, s) ∈ arcs 0 ns ∧ s ≠ t).
  { intros s t (node & Hs & Ht)%Harc. destruct (Hc s node Hs) as (_ & _ & Hni & Hsy).
    split; [|by intros ->]. apply Harc. destruct (Hsy t Ht) as (nt & ? & ?). by exists nt. }
  rewrite createLinks_arcs. split_and!.
  - apply NoDup_filter, NoDup_arcs, Hnd.
  - intros s t. rewrite list_elem_of_filter, Harc. done.
  - pose proof (filter_app_complement upward (arcs 0 ns)) as Hp.
    apply Permutation_length in Hp. rewrite length_app, length_arcs in Hp by done.
    assert (Hsw : prod_swap <$> filter upward (arcs 0 ns)
                  ≡ₚ filter (λ e, ¬ upward e) (arcs 0 ns)).
    { apply NoDup_Permutation.
      - apply NoDup_fmap_2; [apply _|]. apply NoDup_filter, NoDup_arcs, Hnd.
      - apply NoDup_filter, NoDup_arcs, Hnd.
      - intros [t s]. rewrite list_elem_of_fmap, list_elem_of_filter. split.
        + intros ([s' t'] & [= -> ->] & [Hu Hin]%list_elem_of_filter).
          unfold upward in *. cbn in *. split; [lia|]. by apply Hsym.
        + intros [Hu Hin]. exists (s, t). split; [done|].
          apply list_elem_of_filter. destruct (Hsym _ _ Hin) as [? ?].
          unfold upward in *. cbn in *. split; [lia|done]. }
    apply Permutation_length in Hsw. rewrite length_fmap in Hsw. lia.
Qed.



Lemma foldl_js_add_None (ss : list (option nat)) (node : list nat) :
  foldl (λ a j, js_add a (mjoin (ss !! j))) None node = None.
Proof. induction node as [|j node IH]; [done|]. exact IH. Qed.

Lemma foldl_js_add_bound (ss : list (option nat)) (node : list nat) : ∀ acc,
  Forall (λ j, j < length ss) node → Forall binary ss →
  ∃ k, foldl (λ a j, js_add a (mjoin (ss !! j))) (Some acc) node = Some k
       ∧ acc ≤ k ≤ acc + length node.
Proof.
  induction node as [|j node IH]; intros acc Hr Hb.
  { exists acc. cbn. split; [done|lia]. }
  apply Forall_cons in Hr as [Hj Hr]. cbn [foldl].
  destruct (binary_lookup ss j Hb Hj) as [E|E]; rewrite E; cbn.
  - destruct (IH (acc + 0) Hr Hb) as (k & -> & ?). exists k. split; [done|lia].
  - destruct (IH (acc + 1) Hr Hb) as (k & -> & ?). exists k. split; [done|lia].
Qed.

Lemma foldl_js_add_missing (ss : list (option nat)) (node : list nat) j : ∀ acc,
  j ∈ node → mjoin (ss !! j) = None →
  foldl (λ a j, js_add a (mjoin (ss !! j))) acc node = None.
Proof.
  induction node as [|j' node IH]; intros acc Hj E.
  { by apply elem_of_nil in Hj. }
  cbn [foldl]. apply elem_of_cons in Hj as [<-|Hj].
  - rewrite E. destruct acc; cbn; apply foldl_js_add_None.
  - by apply IH.
Qed.

Lemma calcCases_lookup ns ss i :
  calcCases ns ss !! i =
    (λ node, js_add (foldl (λ a j, js_add a (mjoin (ss !! j))) (Some 0) node)
                    (js_mul (mjoin (ss !! i)) (NN + 1))) <$> ns !! i.
Proof. unfold calcCases. by rewrite list_lookup_imap. Qed.

Lemma calcCases_cubic ns ss i :
  cubic ns → length ss = length ns → Forall binary ss → i < length ns →
  ∃ r, calcCases ns ss !! i = Some (Some r) ∧ r < 8.
Proof.
  intros Hc Hl Hb Hi. destruct (lookup_lt_is_Some_2 ns i Hi) as [node Hn].
  rewrite calcCases_lookup, Hn. cbn [fmap option_fmap option_map].
  destruct (Hc i node Hn) as (Hlen & _ & _ & Hs).
  destruct (foldl_js_add_bound ss node 0) as (k & -> & Hk); [|done|].
  { apply Forall_forall. intros v Hv. rewrite Hl. by eapply cubic_lt. }
  destruct (binary_lookup ss i Hb ltac:(lia)) as [E|E]; rewrite E; cbn.
  - eexists. split; [done|]. lia.
  - eexists. split; [done|]. unfold NN. lia.
Qed.

Lemma to_int32_testbit z n : (0 ≤ n < 32)%Z → Z.testbit (to_int32 z) n = Z.testbit z n.
Proof.
  intros Hn. unfold to_int32.
  rewrite <- (Z.mod_pow2_bits_low ((z + 2 ^ 31) `mod` 2 ^ 32 - 2 ^ 31) 32 n) by lia.
  rewrite <- (Z.mod_pow2_bits_low z 32 n) by lia. f_equal.
  rewrite Zminus_mod_idemp_l. by replace (z + 2 ^ 31 - 2 ^ 31)%Z with z by lia.
Qed.

Lemma shr_and1_testbit rule r :
  r < 32 → shr_and1 rule (Some r) = Nat.b2n (Z.testbit rule (Z.of_nat r)).
Proof.
  intros Hr. unfold shr_and1. cbn [default id]. rewrite Nat.mod_small by done.
  change 1%Z with (Z.ones 1). rewrite Z.land_ones by lia. change (2 ^ 1)%Z with 2%Z.
  rewrite <- Z.bit0_mod, Z.shiftr_spec by lia. rewrite Z.add_0_l.
  rewrite to_int32_testbit by lia. by destruct (Z.testbit rule (Z.of_nat r)).
Qed.

Lemma initial_cubic rule : wf_graph (initial_graph rule).
Proof.
  split_and!; cbn; [|done| |lia|by left].
  - intros u node Hu.
    do 10 (destruct u as [|u];
      [injection Hu as <-; split_and!;
        [done
        |repeat (apply NoDup_cons; split; [rewrite ?elem_of_cons, ?elem_of_nil; lia|]);
         apply NoDup_nil_2
        |rewrite !elem_of_cons, elem_of_nil; lia
        |intros v Hv; rewrite !elem_of_cons, elem_of_nil in Hv;
         destruct Hv as [->|[->|[->|[]]]];
         (eexists; split; [reflexivity|rewrite !elem_of_cons; lia])]
      |]).
    done.
  - repeat (apply Forall_cons_2; [first [by left|by right]|]). apply Forall_nil_2.
Qed.

Lemma grow_wf g :
  wf_graph g → ∃ g', grow g = Some g' ∧ wf_graph g' ∧ phase g' = (1 - phase g)%Z.
Proof.
  intros Hwf. destruct (Hwf) as (_ & _ & _ & _ & [H0|H1]).
  - destruct (update_states_wf g Hwf H0) as (g' & Hg & Hwf' & _ & Hp & _).
    exists g'. split_and!; [done..|]. lia.
  - destruct (grow_divide_wf g Hwf H1) as (g' & Hg & Hwf' & Hp & _).
    exists g'. split_and!; [done..|]. lia.
Qed.

Lemma grow_n_wf n rule :
  ∃ g, grow_n n (initial_graph rule) = Some g ∧ wf_graph g
       ∧ phase g = Z.of_nat (n mod 2).
Proof.
  induction n as [|n (g & Hg & Hwf & Hp)].
  { eexists. split; [done|]. split; [apply initial_cubic|done]. }
  destruct (grow_wf g Hwf) as (g' & Hg' & Hwf' & Hp').
  exists g'. split_and!; [|done|].
  - cbn [grow_n]. rewrite Hg. exact Hg'.
  - rewrite Hp', Hp. replace (S n) with (1 + n) by done.
    rewrite Nat.Div0.add_mod by lia.
    pose proof (Nat.mod_upper_bound n 2 ltac:(lia)).
    destruct (n mod 2) as [|[|]]; [done|done|lia].
Qed.

Lemma initial_nodes_cubic rule : cubic (nodes (initial_graph rule)).
Proof. by destruct (initial_cubic rule) as (? & _). Qed.

Lemma dividing_graph_wf : wf_graph dividing_graph.
Proof.
  destruct (initial_cubic 2182) as (Hc & Hl & Hb & _).
  split_and!; [exact Hc|exact Hl|exact Hb|cbn; lia|by right].
Qed.

(** X16: on a simple cubic graph whose nodes all have a state 0 or 1,
    [calcCases] gives one case per node, and every case is a number below 8:
    it counts the neighbours in state 1 and adds 4 for the node's own state,
    so that the case and the case plus 8 both select one of the 16 bits of
    the rule. *)
Theorem calcCases_in_rule ns ss :
  cubic ns → length ss = length ns → Forall binary ss →
  length (calcCases ns ss) = length ns
  ∧ Forall (λ r, ∃ k, r = Some k ∧ k < 8) (calcCases ns ss).
Proof.
  intros Hc Hl Hb. split; [apply calcCases_length|].
  apply Forall_lookup. intros i r Hr.
  assert (Hi : i < length ns).
  { apply lookup_lt_Some in Hr. by rewrite calcCases_length in Hr. }
  destruct (calcCases_cubic ns ss i Hc Hl Hb Hi) as (k & Hk & Hlt).
  exists k. split; [congruence|done].
Qed.

Lemma calcCases_in_rule_witness :
  length (calcCases (nodes (initial_graph 2182)) (states (initial_graph 2182)))
    = length (nodes (initial_graph 2182))
  ∧ Forall (λ r, ∃ k, r = Some k ∧ k < 8)
      (calcCases (nodes (initial_graph 2182)) (states (initial_graph 2182))).
Proof.
  destruct (initial_cubic 2182) as (Hc & Hl & Hb & _).
  exact (calcCases_in_rule _ _ Hc Hl Hb).
Defined.

(** X17: when a neighbour of node [i] has no state ([undefined], or a state
    that is [NaN]), the case of [i] is [NaN]; [grow] then shifts the rule by
    0 both times, so the next state and the division flag of [i] are both
    bit 0 of the rule. *)
Theorem grow_missing_state g i node j :
  phase g = 0%Z → nodes g !! i = Some node → j ∈ node →
  mjoin (states g !! j) = None →
  ∃ g', grow g = Some g'
        ∧ calcCases (nodes g) (states g) !! i = Some None
        ∧ states g' !! i = Some (Some (Nat.b2n (Z.testbit (rule g) 0)))
        ∧ dividing g' !! i = Some (Nat.b2n (Z.testbit (rule g) 0)).
Proof.
  intros H0 Hn Hj Hs. unfold grow. rewrite decide_True by done.
  eexists. split; [done|]. cbn.
  assert (Hr : calcCases (nodes g) (states g) !! i = Some None).
  { rewrite calcCases_lookup, Hn. cbn [fmap option_fmap option_map].
    by rewrite (foldl_js_add_missing _ _ j _ Hj Hs). }
  assert (Hi : i < length (calcCases (nodes g) (states g))) by by eapply lookup_lt_Some.
  assert (E : shr_and1 (rule g) None = Nat.b2n (Z.testbit (rule g) 0)).
  { change (shr_and1 (rule g) None) with (shr_and1 (rule g) (Some 0)).
    by rewrite shr_and1_testbit by lia. }
  split_and!; [done| |].
  - rewrite lookup_app_l by by rewrite length_fmap.
    rewrite list_lookup_fmap, Hr. cbn. by rewrite E.
  - rewrite lookup_app_l by by rewrite length_fmap.
    rewrite list_lookup_fmap, Hr. cbn. by rewrite E.
Qed.

Lemma grow_missing_state_witness :
  ∃ g', grow (GGraph 2182 0 [[1; 2; 3]] [Some 1] [] 0) = Some g'
        ∧ calcCases [[1; 2; 3]] [Some 1] !! 0 = Some None
        ∧ states g' !! 0 = Some (Some 0)
        ∧ dividing g' !! 0 = Some 0.
Proof.
  assert (Hj : 1 ∈ [1; 2; 3]) by (apply elem_of_cons; by left).
  exact (grow_missing_state (GGraph 2182 0 [[1; 2; 3]] [Some 1] [] 0) 0 [1; 2; 3] 1
           eq_refl eq_refl Hj eq_refl).
Defined.

(** X18: in phase 0, [grow] on a well-formed graph leaves the nodes as they
    are and moves to phase 1; the new state of node [i] is bit [r] of the
    rule and its division flag is bit [r + 8], where [r < 8] is the case of
    the node.  No hypothesis on the rule is needed: bits 0 to 15 of the
    32-bit conversion are those of the rule itself. *)
Theorem grow_applies_rule g :
  wf_graph g → phase g = 0%Z →
  ∃ g', grow g = Some g'
        ∧ nodes g' = nodes g ∧ lastGen g' = lastGen g ∧ phase g' = 1%Z
        ∧ ∀ i, i < length (nodes g) →
            ∃ r, calcCases (nodes g) (states g) !! i = Some (Some r) ∧ r < 8
                 ∧ states g' !! i = Some (Some (Nat.b2n (Z.testbit (rule g) (Z.of_nat r))))
                 ∧ dividing g' !! i
                   = Some (Nat.b2n (Z.testbit (rule g) (Z.of_nat (r + 8)))).
Proof.
  intros (Hc & Hss & Hbin & Hds & Hph) H0. unfold grow. rewrite decide_True by done.
  eexists. split; [done|]. cbn. split_and!; [done|done|lia|].
  intros i Hi. destruct (calcCases_cubic _ _ i Hc Hss Hbin Hi) as (r & Hr & Hlt).
  exists r. split_and!; [done|done| |].
  - rewrite lookup_app_l by (by rewrite length_fmap, calcCases_length).
    rewrite list_lookup_fmap, Hr. cbn. by rewrite shr_and1_testbit by lia.
  - rewrite lookup_app_l by (by rewrite length_fmap, calcCases_length).
    rewrite list_lookup_fmap, Hr. cbn. by rewrite shr_and1_testbit by lia.
Qed.

Lemma grow_applies_rule_witness :
  ∃ g', grow (initial_graph 2182) = Some g'
        ∧ nodes g' = nodes (initial_graph 2182)
        ∧ lastGen g' = lastGen (initial_graph 2182) ∧ phase g' = 1%Z
        ∧ ∀ i, i < length (nodes (initial_graph 2182)) →
            ∃ r, calcCases (nodes (initial_graph 2182)) (states (initial_graph 2182)) !! i
                 = Some (Some r) ∧ r < 8
                 ∧ states g' !! i = Some (Some (Nat.b2n (Z.testbit 2182 (Z.of_nat r))))
                 ∧ dividing g' !! i = Some (Nat.b2n (Z.testbit 2182 (Z.of_nat (r + 8)))).
Proof. exact (grow_applies_rule (initial_graph 2182) (initial_cubic 2182) eq_refl). Defined.

(** X19: in phase 1, [grow] on a well-formed graph does not throw; every
    node whose flag is set divides once, which adds two nodes and two
    states; the graph is again simple and cubic, the states of the old nodes
    are kept, all flags are cleared, the generation counter goes up by one
    and the next phase is 0. *)
Theorem grow_divides g :
  wf_graph g → phase g = 1%Z →
  ∃ g', grow g = Some g'
        ∧ cubic (nodes g')
        ∧ length (nodes g') = length (nodes g) + 2 * flagged (dividing g)
        ∧ length (states g') = length (nodes g')
        ∧ states g `prefix_of` states g'
        ∧ dividing g' = replicate (length (dividing g)) 0
        ∧ lastGen g' = lastGen g + 1
        ∧ phase g' = 0%Z.
Proof.
  intros Hwf H1.
  destruct (grow_divide_wf g Hwf H1)
    as (g' & Hg & (Hc & Hss & _) & Hp & Hgen & Hlen & Hpre & Hd).
  exists g'. split_and!; done.
Qed.

Lemma grow_divides_witness :
  ∃ g', grow dividing_graph = Some g'
        ∧ cubic (nodes g')
        ∧ length (nodes g') = length (nodes dividing_graph) + 2 * flagged (dividing dividing_graph)
        ∧ length (states g') = length (nodes g')
        ∧ states dividing_graph `prefix_of` states g'
        ∧ dividing g' = replicate (length (dividing dividing_graph)) 0
        ∧ lastGen g' = lastGen dividing_graph + 1
        ∧ phase g' = 0%Z.
Proof. exact (grow_divides dividing_graph dividing_graph_wf eq_refl). Defined.

(** X20: [grow] keeps a graph well formed and never throws on one: the
    nodes form a simple cubic graph, every node has a state 0 or 1, there
    are no more flags than nodes, and the phase alternates between 0 and 1. *)
Theorem grow_keeps_wf g :
  wf_graph g → ∃ g', grow g = Some g' ∧ wf_graph g' ∧ phase g' = (1 - phase g)%Z.
Proof. apply grow_wf. Qed.

Lemma grow_keeps_wf_witness :
  ∃ g', grow dividing_graph = Some g' ∧ wf_graph g'
        ∧ phase g' = (1 - phase dividing_graph)%Z.
Proof. exact (grow_keeps_wf dividing_graph dividing_graph_wf). Defined.

(** X21: starting from the graph of the constructor, with any rule, any
    number of calls of [grow] goes through without an exception and ends in
    a well-formed graph; after [n] calls the phase is [n mod 2]. *)
Theorem grow_n_never_throws n rule :
  ∃ g, grow_n n (initial_graph rule) = Some g ∧ wf_graph g
       ∧ phase g = Z.of_nat (n mod 2).
Proof. apply grow_n_wf. Qed.

(** X22: on a simple cubic graph [createLinks] lists every edge exactly
    once, from its smaller to its larger end, and so gives three links for
    every two nodes. *)
Theorem createLinks_cubic ns :
  cubic ns →
  NoDup (createLinks ns)
  ∧ (∀ s t, (s, t) ∈ createLinks ns ↔ s < t ∧ ∃ node, ns !! s = Some node ∧ t ∈ node)
  ∧ 2 * length (createLinks ns) = 3 * length ns.
Proof. apply createLinks_cubic_aux. Qed.

Lemma createLinks_cubic_witness :
  NoDup (createLinks (nodes (initial_graph 2182)))
  ∧ (∀ s t, (s, t) ∈ createLinks (nodes (initial_graph 2182))
            ↔ s < t ∧ ∃ node, nodes (initial_graph 2182) !! s = Some node ∧ t ∈ node)
  ∧ 2 * length (createLinks (nodes (initial_graph 2182)))
    = 3 * length (nodes (initial_graph 2182)).
Proof. exact (createLinks_cubic _ (initial_nodes_cubic 2182)). Defined.

(** X23: [reconnect] can be undone: replacing the peer [a] of a node by a
    peer [b] that the node does not have yet, and then [b] by [a], gives the
    nodes back as they were. *)
Theorem reconnect_undo ns s node a b :
  ns !! s = Some node → a ∈ node → b ∉ node →
  reconnect ns s a b ≫= (λ ns', reconnect ns' s b a) = Some ns.
Proof.
  intros Hs Ha Hb. unfold reconnect. rewrite Hs. cbn [mbind option_bind].
  rewrite list_lookup_insert_eq by by eapply lookup_lt_Some. cbn [mbind option_bind].
  rewrite list_insert_insert_eq, replace_first_undo by done.
  by rewrite list_insert_id.
Qed.

Lemma reconnect_undo_witness :
  reconnect [[1; 2]; [0; 2]; [0; 1]] 0 2 5 ≫= (λ ns', reconnect ns' 0 5 2)
  = Some [[1; 2]; [0; 2]; [0; 1]].
Proof.
  assert (Ha : 2 ∈ [1; 2]) by (rewrite !elem_of_cons; tauto).
  assert (Hb : 5 ∉ [1; 2]) by (rewrite !elem_of_cons, elem_of_nil; lia).
  exact (reconnect_undo [[1; 2]; [0; 2]; [0; 1]] 0 [1; 2] 2 5 eq_refl Ha Hb).
Defined.

(** X24: [reconnect] with an old peer that the node does not have changes
    nothing: [indexOf] gives -1, and the write to index -1 does not touch
    the elements of the array. *)
Theorem reconnect_missing_peer ns s node a b :
  ns !! s = Some node → a ∉ node → reconnect ns s a b = Some ns.
Proof.
  intros Hs Ha. unfold reconnect. rewrite Hs. cbn [mbind option_bind].
  rewrite replace_first_notin by done. by rewrite list_insert_id.
Qed.

Lemma reconnect_missing_peer_witness :
  reconnect [[1; 2]; [0; 2]; [0; 1]] 0 7 5 = Some [[1; 2]; [0; 2]; [0; 1]].
Proof.
  assert (Ha : 7 ∉ [1; 2]) by (rewrite !elem_of_cons, elem_of_nil; lia).
  exact (reconnect_missing_peer [[1; 2]; [0; 2]; [0; 1]] 0 [1; 2] 7 5 eq_refl Ha).
Defined.

(** X25: what one division does.  When the flag of node [i] of a simple
    cubic graph with [n] nodes is set, the loop body does not throw; [i],
    with neighbours [a], [b], [c], becomes the triangle of [i] and the two
    new nodes [n] and [n + 1]: [i] keeps [a], node [n] takes over [b] and
    node [n + 1] takes over [c]; in [b] and [c] the peer [i] is replaced by
    the new node, every other node is untouched, the two new nodes get the
    state of [i], and the flag of [i] is cleared. *)
Theorem divide_triangle ns ss ds i x :
  cubic ns → ds !! i = Some (S x) → i < length ns →
  ∃ a b c nb nc ns',
    ns !! i = Some [a; b; c] ∧ ns !! b = Some nb ∧ ns !! c = Some nc
    ∧ divide i (ns, ss, ds)
      = Some (ns', ss ++ [mjoin (ss !! i); mjoin (ss !! i)], <[i := 0]> ds)
    ∧ length ns' = length ns + 2
    ∧ ns' !! i = Some [a; length ns; length ns + 1]
    ∧ ns' !! length ns = Some [i; b; length ns + 1]
    ∧ ns' !! (length ns + 1) = Some [i; length ns; c]
    ∧ ns' !! b = Some (replace_first i (length ns) nb)
    ∧ ns' !! c = Some (replace_first i (length ns + 1) nc)
    ∧ ∀ u, u < length ns → u ≠ i → u ≠ b → u ≠ c → ns' !! u = ns !! u.
Proof.
  intros Hc Hd Hi.
  destruct (divide_run ns ss ds i x Hc Hd Hi) as (a & b & c & nb & nc & Hn & Hb & Hcc & Hrun).
  destruct (cubic_three _ _ _ Hc Hn)
    as (a' & b' & c' & [= <- <- <-] & Hab & Hac & Hbc & Hia & Hib & Hic).
  pose proof (lookup_lt_Some _ _ _ Hb) as Hlb.
  pose proof (lookup_lt_Some _ _ _ Hcc) as Hlc.
  assert (L : ∀ u, divided ns i a b c nb nc !! u = _)
    by (intros u; by apply divided_lookup).
  exists a, b, c, nb, nc, (divided ns i a b c nb nc).
  split_and!; [done|done|done|done|apply divided_length|..].
  - rewrite L. repeat case_decide; first [lia|done].
  - rewrite L. repeat case_decide; first [lia|done].
  - rewrite L. repeat case_decide; first [lia|done].
  - rewrite L. rewrite decide_False by done. by rewrite decide_True.
  - rewrite L. by rewrite decide_True.
  - intros u Hu H1 H2 H3. rewrite L. repeat case_decide; first [lia|done].
Qed.

Lemma divide_triangle_witness :
  ∃ a b c nb nc ns',
    nodes dividing_graph !! 6 = Some [a; b; c]
    ∧ nodes dividing_graph !! b = Some nb ∧ nodes dividing_graph !! c = Some nc
    ∧ divide 6 (nodes dividing_graph, states dividing_graph, dividing dividing_graph)
      = Some (ns', states dividing_graph
                     ++ [mjoin (states dividing_graph !! 6);
                         mjoin (states dividing_graph !! 6)],
              <[6 := 0]> (dividing dividing_graph))
    ∧ length ns' = length (nodes dividing_graph) + 2
    ∧ ns' !! 6 = Some [a; length (nodes dividing_graph); length (nodes dividing_graph) + 1]
    ∧ ns' !! length (nodes dividing_graph)
      = Some [6; b; length (nodes dividing_graph) + 1]
    ∧ ns' !! (length (nodes dividing_graph) + 1)
      = Some [6; length (nodes dividing_graph); c]
    ∧ ns' !! b = Some (replace_first 6 (length (nodes dividing_graph)) nb)
    ∧ ns' !! c = Some (replace_first 6 (length (nodes dividing_graph) + 1) nc)
    ∧ ∀ u, u < length (nodes dividing_graph) → u ≠ 6 → u ≠ b → u ≠ c →
           ns' !! u = nodes dividing_graph !! u.
Proof.
  assert (Hi : 6 < length (nodes dividing_graph)) by (cbn; lia).
  exact (divide_triangle (nodes dividing_graph) (states dividing_graph)
           (dividing dividing_graph) 6 0 (initial_nodes_cubic 2182) eq_refl Hi).
Defined.

(** * The compressor on shared arrays *)

Lemma columns_cons h r bits : columns h (r :: bits) = (h !!! r) :: columns h bits.
Proof. done. Qed.

Lemma columns_frame h h' bits :
  (∀ r, r ∈ bits → h' !!! r = h !!! r) → columns h' bits = columns h bits.
Proof.
  intros H. unfold columns. apply list_fmap_ext. intros i r Hr.
  apply H. by eapply list_elem_of_lookup_2.
Qed.

Lemma columns_insert_notin h r col bits :
  r ∉ bits → columns (<[r := col]> h) bits = columns h bits.
Proof.
  intros Hr. apply columns_frame. intros r' Hr'.
  apply list_lookup_total_insert_ne. by intros ->.
Qed.

Lemma distinct_arrays_cons h r bits :
  distinct_arrays h (r :: bits) ↔ (r ∉ bits) ∧ r < length h ∧ distinct_arrays h bits.
Proof.
  unfold distinct_arrays. rewrite NoDup_cons, Forall_cons. tauto.
Qed.

Lemma distinct_arrays_grow h h' bits :
  length h ≤ length h' → distinct_arrays h bits → distinct_arrays h' bits.
Proof.
  intros Hl [Hnd Hv]. split; [done|].
  eapply Forall_impl; [exact Hv|]. cbn. lia.
Qed.

(** The end of an iteration that went through an adder: the lowest array
    becomes [col0] and the carry goes up. *)
Lemma inplace_carry (C' : netlist) h r0 rest col0 c (outs : list wire) :
  r0 ∉ rest → r0 < length h → distinct_arrays h rest →
  ∃ h' bits',
    match rest with
    | [] => let '(h2, r1) := alloc (<[r0 := col0]> h) [c] in Some (C', h2, [r0; r1], outs)
    | r1 :: _ =>
        Some (C', <[r1 := (<[r0 := col0]> h !!! r1) ++ [c]]> (<[r0 := col0]> h),
              r0 :: rest, outs)
    end = Some (C', h', bits', outs)
    ∧ columns h' bits' = col0 :: push_carry (columns h rest) c
    ∧ distinct_arrays h' bits'.
Proof.
  intros Hr0 Hlt Hd. destruct rest as [|r1 rest'].
  - unfold alloc. eexists _, _. split; [reflexivity|]. split.
    + rewrite !columns_cons. cbn [push_carry columns fmap list_fmap].
      rewrite length_insert. f_equal.
      * rewrite lookup_total_app_l by (rewrite length_insert; lia).
        by rewrite list_lookup_total_insert_eq.
      * f_equal. rewrite lookup_total_app_r by (rewrite length_insert; lia).
        by rewrite length_insert, Nat.sub_diag.
    + split.
      * apply NoDup_cons. split; [|apply NoDup_singleton].
        rewrite list_elem_of_singleton, length_insert. lia.
      * rewrite length_app, !length_insert. cbn.
        repeat (apply Forall_cons_2; [lia|]). apply Forall_nil_2.
  - apply distinct_arrays_cons in Hd as (Hr1 & Hlt1 & Hd).
    apply not_elem_of_cons in Hr0 as [Hne Hr0].
    eexists _, _. split; [done|]. split.
    + rewrite !columns_cons. cbn [push_carry].
      rewrite list_lookup_total_insert_ne by done.
      rewrite list_lookup_total_insert_eq by done.
      rewrite list_lookup_total_insert_eq by (by rewrite length_insert).
      rewrite list_lookup_total_insert_ne by done.
      by rewrite !columns_insert_notin by done.
    + rewrite !distinct_arrays_cons, !length_insert. split_and!; try done.
      * rewrite not_elem_of_cons. done.
      * eapply distinct_arrays_grow; [|exact Hd]. by rewrite !length_insert.
Qed.

(** One iteration on pairwise distinct arrays does to their contents what
    the by-value step does to the columns. *)
Lemma inplace_step_agrees C h bits outs :
  distinct_arrays h bits →
  match InPlace.compress_step C h bits outs with
  | Some (C1, h1, bits1, outs1) =>
      compress_step C (columns h bits) outs = Some (C1, columns h1 bits1, outs1)
      ∧ distinct_arrays h1 bits1
  | None => compress_step C (columns h bits) outs = None
  end.
Proof.
  intros Hd. destruct bits as [|r0 rest]; [done|].
  apply distinct_arrays_cons in Hd as (Hr0 & Hlt & Hd).
  rewrite columns_cons. unfold InPlace.compress_step, compress_step.
  destruct (h !!! r0) as [|x [|y [|z col']]] eqn:E.
  - destruct (inplace_carry C h r0 rest ([] ++ [None]) None outs Hr0 Hlt Hd)
      as (h' & bits' & -> & Hcols & Hd').
    rewrite compress_step_carry, Hcols. done.
  - split; [done|exact Hd].
  - destruct (halfadder C x y) as [C1 [s c]].
    destruct (inplace_carry C1 h r0 rest ([] ++ [Some s]) (Some c) outs Hr0 Hlt Hd)
      as (h' & bits' & -> & Hcols & Hd').
    rewrite compress_step_carry, Hcols. done.
  - destruct (fulladder C x y z) as [C1 [s c]].
    destruct (inplace_carry C1 h r0 rest (col' ++ [Some s]) (Some c) outs Hr0 Hlt Hd)
      as (h' & bits' & -> & Hcols & Hd').
    rewrite compress_step_carry, Hcols. done.
Qed.

Lemma inplace_loop_agrees fuel : ∀ C h bits outs,
  distinct_arrays h bits →
  (λ r, (r.1.1, r.2)) <$> InPlace.compress_loop fuel C h bits outs
  = compress_loop fuel C (columns h bits) outs.
Proof.
  induction fuel as [|fuel IH]; intros C h bits outs Hd; [done|].
  cbn [InPlace.compress_loop compress_loop].
  pose proof (inplace_step_agrees C h bits outs Hd) as Hs.
  destruct (InPlace.compress_step C h bits outs) as [[[[C1 h1] bits1] outs1]|].
  - destruct Hs as [-> Hd1]. by apply IH.
  - by rewrite Hs.
Qed.

Lemma inplace_loop_fuel fuel : ∀ fuel' C h bits outs r,
  InPlace.compress_loop fuel C h bits outs = Some r → fuel ≤ fuel' →
  InPlace.compress_loop fuel' C h bits outs = Some r.
Proof.
  induction fuel as [|fuel IH]; intros fuel' C h bits outs r; [done|].
  intros Hrun Hle. destruct fuel' as [|fuel']; [lia|].
  cbn [InPlace.compress_loop] in *.
  destruct (InPlace.compress_step C h bits outs) as [[[[C1 h1] bits1] outs1]|]; [|done].
  apply (IH fuel'); [done|lia].
Qed.

(** On pairwise distinct arrays the loop returns, with the netlist and the
    outputs of the by-value reading. *)
Lemma inplace_run C h bits :
  distinct_arrays h bits →
  ∃ C' h' outs,
    compress C (columns h bits) = Some (C', outs)
    ∧ ∀ fuel, work (columns h bits) < fuel →
        InPlace.compress fuel C h bits = Some (C', h', outs).
Proof.
  intros Hd. destruct (compress_total C (columns h bits)) as [[C' outs] Hrun].
  pose proof (inplace_loop_agrees (S (work (columns h bits))) C h bits [] Hd) as Hag.
  unfold compress in Hrun. rewrite Hrun in Hag.
  destruct (InPlace.compress_loop (S (work (columns h bits))) C h bits [])
    as [[[C1 h1] outs1]|] eqn:Erun; [|done].
  injection Hag as -> ->.
  exists C', h1, outs. split; [done|]. intros fuel Hfuel.
  apply (inplace_loop_fuel _ _ _ _ _ _ _ Erun). lia.
Qed.

Lemma inplace_aliased_loop fuel : ∀ C h r x y outs,
  h !! r = Some [x; y] → InPlace.compress_loop fuel C h [r; r] outs = None.
Proof.
  induction fuel as [|fuel IH]; intros C h r x y outs Hr; [done|].
  cbn [InPlace.compress_loop InPlace.compress_step].
  rewrite (list_lookup_total_correct _ _ _ Hr).
  destruct (halfadder C x y) as [C1 [s c]].
  pose proof (lookup_lt_Some _ _ _ Hr) as Hlt.
  eapply IH. rewrite list_lookup_total_insert_eq by done.
  apply list_lookup_insert_eq. by rewrite length_insert.
Qed.

(** What one iteration does to the store and to the outer array: either it
    shifts a one-wire array out, or it rewrites the two lowest arrays and
    possibly appends a new one. *)
Lemma inplace_step_shape C h r0 rest outs C1 h1 bits1 outs1 :
  InPlace.compress_step C h (r0 :: rest) outs = Some (C1, h1, bits1, outs1) →
  (∃ x, h !!! r0 = [x] ∧ h1 = h ∧ bits1 = rest ∧ outs1 = outs ++ [x])
  ∨ (outs1 = outs ∧ length h ≤ length h1
     ∧ (∃ extra, bits1 = (r0 :: rest) ++ extra ∧ Forall (λ r, length h ≤ r) extra)
     ∧ ∀ r, r ∉ r0 :: rest → r < length h → h1 !! r = h !! r).
Proof.
  unfold InPlace.compress_step.
  assert (Hgen : ∀ (C' : netlist) col0 c,
    match rest with
    | [] => let '(h2, r1) := alloc (<[r0 := col0]> h) [c] in Some (C', h2, [r0; r1], outs)
    | r1 :: _ =>
        Some (C', <[r1 := (<[r0 := col0]> h !!! r1) ++ [c]]> (<[r0 := col0]> h),
              r0 :: rest, outs)
    end = Some (C1, h1, bits1, outs1) →
    outs1 = outs ∧ length h ≤ length h1
     ∧ (∃ extra, bits1 = (r0 :: rest) ++ extra ∧ Forall (λ r, length h ≤ r) extra)
     ∧ ∀ r, r ∉ r0 :: rest → r < length h → h1 !! r = h !! r).
  { intros C' col0 c. destruct rest as [|r1 rest'].
    - unfold alloc. intros [= <- <- <- <-]. split_and!; [done| | |].
      + rewrite length_app, length_insert. lia.
      + exists [length (<[r0:=col0]> h)]. split; [done|].
        apply Forall_cons_2; [|apply Forall_nil_2]. by rewrite length_insert.
      + intros r Hr Hlt. apply not_elem_of_cons in Hr as [Hne _].
        rewrite lookup_app_l by (by rewrite length_insert).
        by rewrite list_lookup_insert_ne.
    - intros [= <- <- <- <-]. split_and!; [done| | |].
      + by rewrite !length_insert.
      + exists []. by rewrite app_nil_r.
      + intros r Hr Hlt. apply not_elem_of_cons in Hr as [Hne Hr].
        apply not_elem_of_cons in Hr as [Hne1 _].
        by rewrite !list_lookup_insert_ne. }
  destruct (h !!! r0) as [|x [|y [|z col']]] eqn:E.
  - intros H. right. by apply (Hgen C ([] ++ [None]) None).
  - intros [= <- <- <- <-]. left. by exists x.
  - destruct (halfadder C x y) as [C2 [s c]]. intros H. right.
    by apply (Hgen C2 ([] ++ [Some s]) (Some c)).
  - destruct (fulladder C x y z) as [C2 [s c]]. intros H. right.
    by apply (Hgen C2 (col' ++ [Some s]) (Some c)).
Qed.

Lemma inplace_loop_consumes fuel : ∀ C h bits outs C' h' outs',
  distinct_arrays h bits →
  InPlace.compress_loop fuel C h bits outs = Some (C', h', outs') →
  outs `prefix_of` outs'
  ∧ length h ≤ length h'
  ∧ (∀ i r, bits !! i = Some r →
       ∃ x, outs' !! (length outs + i) = Some x ∧ h' !! r = Some [x])
  ∧ (∀ r, r ∉ bits → r < length h → h' !! r = h !! r).
Proof.
  induction fuel as [|fuel IH]; intros C h bits outs C' h' outs' Hd; [done|].
  cbn [InPlace.compress_loop].
  pose proof (inplace_step_agrees C h bits outs Hd) as Hag.
  destruct (InPlace.compress_step C h bits outs) as [[[[C1 h1] bits1] outs1]|] eqn:Estep.
  - destruct Hag as [_ Hd1]. intros Hrun.
    destruct (IH _ _ _ _ _ _ _ Hd1 Hrun) as (Hpre & Hlen & Hcons & Hframe).
    destruct bits as [|r0 rest]; [done|].
    apply distinct_arrays_cons in Hd as (Hr0 & Hlt & Hd).
    destruct (inplace_step_shape _ _ _ _ _ _ _ _ _ Estep)
      as [(x & Hx & -> & -> & ->)|(-> & Hl1 & (extra & -> & Hextra) & Hfr1)].
    + (* the lowest array is shifted out *)
      split_and!.
      * etrans; [|exact Hpre]. by apply prefix_app_r.
      * done.
      * intros [|i] r Hr.
        -- injection Hr as <-. exists x. split.
           ++ destruct Hpre as [k ->]. rewrite Nat.add_0_r, <- app_assoc.
              by rewrite lookup_app_r, Nat.sub_diag by lia.
           ++ rewrite Hframe by done. rewrite <- Hx.
              by apply list_lookup_lookup_total_lt.
        -- destruct (Hcons i r Hr) as (x' & Hx' & Hh'). exists x'. split; [|done].
           rewrite length_app in Hx'. cbn in Hx'.
           by replace (length outs + S i) with (length outs + 1 + i) by lia.
      * intros r Hr Hrl. apply not_elem_of_cons in Hr as [_ Hr]. by apply Hframe.
    + (* an adder ran *)
      split_and!; [done|lia| |].
      * intros i r Hr. apply (Hcons i r). by apply lookup_app_l_Some.
      * intros r Hr Hrl. rewrite <- Hfr1 by done. apply Hframe; [|lia].
        rewrite elem_of_app. intros [?|Hin]; [done|].
        rewrite Forall_forall in Hextra. apply Hextra in Hin. lia.
  - intros [= <- <- <-]. destruct bits as [|r0 rest].
    + split_and!; [done|done| |done]. intros i r Hr. done.
    + exfalso. clear -Estep. unfold InPlace.compress_step in Estep.
      destruct (h !!! r0) as [|x [|y [|z col']]]; [|done| |].
      * by destruct rest.
      * destruct (halfadder C x y) as [? [? ?]]. by destruct rest.
      * destruct (fulladder C x y z) as [? [? ?]]. by destruct rest.
Qed.

Lemma two_columns_distinct : distinct_arrays two_columns [0; 1].
Proof.
  split.
  - apply NoDup_cons. split; [|apply NoDup_singleton].
    rewrite list_elem_of_singleton. lia.
  - repeat (apply Forall_cons_2; [cbn; lia|]). apply Forall_nil_2.
Qed.

Lemma pair_below_empty_distinct : distinct_arrays pair_below_empty [0; 1].
Proof.
  split.
  - apply NoDup_cons. split; [|apply NoDup_singleton].
    rewrite list_elem_of_singleton. lia.
  - repeat (apply Forall_cons_2; [cbn; lia|]). apply Forall_nil_2.
Qed.

(** X3: on pairwise distinct column arrays the loop of [compress]
    terminates, empty columns and [undefined] entries included: every bound
    above [work] of the columns gives the same result, whose netlist and
    outputs are those of the by-value reading. *)
Theorem compress_terminates C h bits :
  distinct_arrays h bits →
  ∃ C' h' outs,
    compress C (columns h bits) = Some (C', outs)
    ∧ ∀ fuel, work (columns h bits) < fuel →
        InPlace.compress fuel C h bits = Some (C', h', outs).
Proof. apply inplace_run. Qed.

Lemma compress_terminates_witness :
  ∃ C' h' outs,
    compress seven_inputs (columns two_columns [0; 1]) = Some (C', outs)
    ∧ ∀ fuel, work (columns two_columns [0; 1]) < fuel →
        InPlace.compress fuel seven_inputs two_columns [0; 1] = Some (C', h', outs).
Proof. exact (compress_terminates seven_inputs two_columns [0; 1] two_columns_distinct). Defined.

(** X5: on pairwise distinct, non-empty column arrays [compress] returns,
    and the number of output bits depends on the sizes of the columns only:
    a column of [m] wires gives one output and sends [m / 2] carries up, and
    the carries leaving the last column are counted in binary.  There is at
    least one output per column. *)
Theorem compress_output_count C h bits :
  distinct_arrays h bits →
  Forall (λ col : list wire, col ≠ []) (columns h bits) →
  ∃ C' h' outs,
    (∀ fuel, work (columns h bits) < fuel →
       InPlace.compress fuel C h bits = Some (C', h', outs))
    ∧ length outs = out_count 0 (length <$> columns h bits)
    ∧ length bits ≤ length outs.
Proof.
  intros Hd Hne. destruct (inplace_run C h bits Hd) as (C' & h' & outs & Hrun & Hfuel).
  exists C', h', outs. split; [exact Hfuel|].
  rewrite (compress_length _ _ _ _ Hne Hrun). split; [done|].
  replace (length bits) with (length (length <$> columns h bits))
    by (unfold columns; by rewrite !length_fmap).
  apply out_count_ge.
Qed.

Lemma compress_output_count_witness :
  ∃ C' h' outs,
    (∀ fuel, work (columns two_columns [0; 1]) < fuel →
       InPlace.compress fuel seven_inputs two_columns [0; 1] = Some (C', h', outs))
    ∧ length outs = 4
    ∧ 2 ≤ length outs.
Proof.
  assert (Hne : Forall (λ col : list wire, col ≠ []) (columns two_columns [0; 1]))
    by (repeat (apply Forall_cons_2; [done|]); apply Forall_nil_2).
  exact (compress_output_count seven_inputs two_columns [0; 1] two_columns_distinct Hne).
Defined.

(** X6: on pairwise distinct, non-empty column arrays [compress] returns,
    and the cost of what it appends depends on the sizes of the columns
    only, whatever the wires are: 5 XAIG gates (9 AIG gates) per full adder
    and 2 (4) per half adder, a column of [m] wires taking [(m-1)/2] full
    adders and, for even [m], one half adder. *)
Theorem compress_cost C h bits :
  distinct_arrays h bits →
  Forall (λ col : list wire, col ≠ []) (columns h bits) →
  ∃ C' h' outs,
    (∀ fuel, work (columns h bits) < fuel →
       InPlace.compress fuel C h bits = Some (C', h', outs))
    ∧ count_xaig C' = count_xaig C + cost_pred 5 2 0 (length <$> columns h bits)
    ∧ count_aig C' = count_aig C + cost_pred 9 4 0 (length <$> columns h bits).
Proof.
  intros Hd Hne. destruct (inplace_run C h bits Hd) as (C' & h' & outs & Hrun & Hfuel).
  exists C', h', outs. split; [exact Hfuel|].
  exact (compress_cost_sizes _ _ _ _ Hne Hrun).
Qed.

Lemma compress_cost_witness :
  ∃ C' h' outs,
    (∀ fuel, work (columns two_columns [0; 1]) < fuel →
       InPlace.compress fuel seven_inputs two_columns [0; 1] = Some (C', h', outs))
    ∧ count_xaig C' = 19
    ∧ count_aig C' = 35.
Proof.
  assert (Hne : Forall (λ col : list wire, col ≠ []) (columns two_columns [0; 1]))
    by (repeat (apply Forall_cons_2; [done|]); apply Forall_nil_2).
  exact (compress_cost seven_inputs two_columns [0; 1] two_columns_distinct Hne).
Defined.

(** X26: when one array of two wires is passed as both columns, the loop of
    [compress] never exits: the half adder takes the two wires out, the sum
    goes back into the array and the carry, pushed to the next column, goes
    into the same array, which holds two wires again.  Whatever the bound,
    it is reached. *)
Theorem compress_aliased_pair_diverges C h r x y :
  h !! r = Some [x; y] → ∀ fuel, InPlace.compress fuel C h [r; r] = None.
Proof. intros Hr fuel. by eapply inplace_aliased_loop. Qed.

Lemma compress_aliased_pair_diverges_witness :
  InPlace.compress 1000 two_by_two [[Some 0; Some 2]] [0; 0] = None.
Proof.
  exact (compress_aliased_pair_diverges two_by_two [[Some 0; Some 2]] 0 (Some 0) (Some 2)
           eq_refl 1000).
Defined.

(** X27: [compress] consumes the arrays it is given.  On pairwise distinct
    column arrays it returns, and afterwards the array that was column [i]
    holds exactly one entry, output bit [i]; the arrays of the store that
    were not passed are untouched. *)
Theorem compress_consumes_arrays C h bits :
  distinct_arrays h bits →
  ∃ C' h' outs,
    (∀ fuel, work (columns h bits) < fuel →
       InPlace.compress fuel C h bits = Some (C', h', outs))
    ∧ (∀ i r, bits !! i = Some r → ∃ x, outs !! i = Some x ∧ h' !! r = Some [x])
    ∧ (∀ r, r ∉ bits → r < length h → h' !! r = h !! r).
Proof.
  intros Hd. destruct (inplace_run C h bits Hd) as (C' & h' & outs & _ & Hfuel).
  exists C', h', outs. split; [exact Hfuel|].
  destruct (inplace_loop_consumes _ _ _ _ _ _ _ _ Hd
              (Hfuel (S (work (columns h bits))) ltac:(lia)))
    as (_ & _ & Hcons & Hframe).
  split; [|exact Hframe]. intros i r Hr. exact (Hcons i r Hr).
Qed.

Lemma compress_consumes_arrays_witness :
  ∃ C' h' outs,
    (∀ fuel, work (columns two_columns [1]) < fuel →
       InPlace.compress fuel seven_inputs two_columns [1] = Some (C', h', outs))
    ∧ (∀ i r, [1] !! i = Some r → ∃ x, outs !! i = Some x ∧ h' !! r = Some [x])
    ∧ (∀ r, r ∉ [1] → r < length two_columns → h' !! r = two_columns !! r).
Proof.
  assert (Hd : distinct_arrays two_columns [1]).
  { split; [apply NoDup_singleton|]. apply Forall_cons_2; [cbn; lia|apply Forall_nil_2]. }
  exact (compress_consumes_arrays seven_inputs two_columns [1] Hd).
Defined.

(** X28: [popcount] overwrites its argument.  On an array of the store it
    returns the netlist and the outputs of the by-value reading, and
    afterwards the caller's array holds a single entry, the least
    significant output bit; every other array is untouched. *)
Theorem popcount_consumes_argument C h bits :
  bits < length h →
  ∃ C' h' outs x,
    popcount C (h !!! bits) = Some (C', outs)
    ∧ (∀ fuel, work [h !!! bits] < fuel →
         InPlace.popcount fuel C h bits = Some (C', h', outs))
    ∧ outs !! 0 = Some x
    ∧ h' !! bits = Some [x]
    ∧ ∀ r, r ≠ bits → r < length h → h' !! r = h !! r.
Proof.
  intros Hlt.
  assert (Hd : distinct_arrays h [bits]).
  { split; [apply NoDup_singleton|]. apply Forall_cons_2; [done|apply Forall_nil_2]. }
  destruct (inplace_run C h [bits] Hd) as (C' & h' & outs & Hrun & Hfuel).
  destruct (inplace_loop_consumes _ _ _ _ _ _ _ _ Hd
              (Hfuel (S (work (columns h [bits]))) ltac:(lia)))
    as (_ & _ & Hcons & Hframe).
  destruct (Hcons 0 bits eq_refl) as (x & Hx & Hb).
  exists C', h', outs, x. split_and!; [exact Hrun|exact Hfuel|exact Hx|exact Hb|].
  intros r Hr Hrl. apply Hframe; [|done]. by rewrite list_elem_of_singleton.
Qed.

Lemma popcount_consumes_argument_witness :
  ∃ C' h' outs x,
    popcount seven_inputs (two_columns !!! 0) = Some (C', outs)
    ∧ (∀ fuel, work [two_columns !!! 0] < fuel →
         InPlace.popcount fuel seven_inputs two_columns 0 = Some (C', h', outs))
    ∧ outs !! 0 = Some x
    ∧ h' !! 0 = Some [x]
    ∧ ∀ r, r ≠ 0 → r < length two_columns → h' !! r = two_columns !! r.
Proof.
  assert (Hlt : 0 < length two_columns) by (cbn; lia).
  exact (popcount_consumes_argument seven_inputs two_columns 0 Hlt).
Defined.

(** X29: value preservation.  On pairwise distinct column arrays of wires
    that have a value, none of which is empty when the loop reaches it (an
    empty column is fine when a carry comes in from below), [compress]
    returns, only appends to the netlist, and the LSB-first value of its
    output bits is the sum of the wires' values, each weighted by two to
    the power of its column's index. *)
Theorem compress_preserves_value env C h bits v :
  distinct_arrays h bits →
  never_empty 0 (length <$> columns h bits) →
  cols_value (eval env C) (columns h bits) = Some v →
  ∃ C' h' outs,
    (∀ fuel, work (columns h bits) < fuel →
       InPlace.compress fuel C h bits = Some (C', h', outs))
    ∧ (∃ D, C' = C ++ D)
    ∧ bits_value (eval env C') outs = Some v.
Proof.
  intros Hd Hne Hv.
  destruct (compress_correct_reached env C _ v Hne Hv) as (D & outs & Hrun & Hval).
  destruct (inplace_run C h bits Hd) as (C' & h' & outs' & Hrun' & Hfuel).
  rewrite Hrun in Hrun'. injection Hrun' as <- <-.
  exists (C ++ D), h', outs. split_and!; [exact Hfuel|by exists D|exact Hval].
Qed.

Lemma compress_preserves_value_witness :
  ∃ C' h' outs,
    (∀ fuel, work (columns pair_below_empty [0; 1]) < fuel →
       InPlace.compress fuel seven_inputs pair_below_empty [0; 1] = Some (C', h', outs))
    ∧ (∃ D, C' = seven_inputs ++ D)
    ∧ bits_value (eval all_ones C') outs = Some 2%Z.
Proof.
  assert (Hne : never_empty 0 (length <$> columns pair_below_empty [0; 1])).
  { cbn. lia. }
  exact (compress_preserves_value all_ones seven_inputs pair_below_empty [0; 1] 2%Z
           pair_below_empty_distinct Hne eq_refl).
Defined.
